(** * Fraud detection via personalized PageRank: the graph-scoring core

    A shallow embedding of the CSR graph loader, of the power-iteration
    engine [PPREngine::compute] and of the random-walk engine
    [MonteCarloEngine::compute], with the properties their specification
    states about them.

    Conventions of the embedding:
    - a C++ [double] is a primitive binary64 float; every arithmetic
      expression keeps the association and the evaluation order of the
      source;
    - a C++ [int] that is stored in a vector, read from the caller or used
      as an index is an integer of [Z]; values are those of container sizes
      and are taken below 2^31, except the visit counters of the random
      walks, whose overflow is modelled;
    - [v[i]] on a [std::vector] is a checked access: an index outside the
      vector is undefined behaviour in C++, and [None] here. *)

From Stdlib Require Import Floats ZArith QArith Lia.
From stdpp Require Import gmap strings list.

Set Warnings "-inexact-float".
#[local] Open Scope Z_scope.

(** ** Vectors with checked accesses *)

Section vectors.
Context {A : Type}.

(** [v[i]] as an rvalue. *)
Definition vget (v : list A) (i : Z) : option A :=
  if bool_decide (0 ≤ i) then v !! Z.to_nat i else None.

(** [v[i] = x]. *)
Definition vset (v : list A) (i : Z) (x : A) : option (list A) :=
  if bool_decide (0 ≤ i < Z.of_nat (length v))
  then Some (<[Z.to_nat i := x]> v) else None.

(** [std::vector<A> v(n, x)]. *)
Definition valloc (n : Z) (x : A) : option (list A) :=
  if bool_decide (0 ≤ n) then Some (replicate (Z.to_nat n) x) else None.

(** The elements at the indices [lo], ..., [hi - 1]. *)
Definition slice (lo hi : Z) (v : list A) : list A :=
  take (Z.to_nat (hi - lo)) (drop (Z.to_nat lo) v).
End vectors.

(** ** Loops *)

Section loops.
Context {St : Type}.

(** [n] iterations of a counting loop whose counter starts at [i]. *)
Fixpoint for_iter (n : nat) (i : Z) (body : Z → St → option St) (s : St)
  : option St :=
  match n with
  | O => Some s
  | S n' => s' ← body i s; for_iter n' (i + 1) body s'
  end.

(** [for (int i = lo; i < hi; ++i) body]. *)
Definition for_range (lo hi : Z) (body : Z → St → option St) (s : St)
  : option St :=
  for_iter (Z.to_nat (hi - lo)) lo body s.

(** What an iteration of a loop with [break] leaves behind. *)
Inductive flow : Type :=
| Continue (s : St)
| Break (s : St).

Definition flow_state (f : flow) : St :=
  match f with
  | Continue s => s
  | Break s => s
  end.

Fixpoint for_iter_break (n : nat) (i : Z) (body : Z → St → option flow)
  (s : St) : option St :=
  match n with
  | O => Some s
  | S n' =>
      f ← body i s;
      match f with
      | Break s' => Some s'
      | Continue s' => for_iter_break n' (i + 1) body s'
      end
  end.

(** [for (int i = lo; i < hi; ++i) body], where [body] may [break]. *)
Definition for_range_break (lo hi : Z) (body : Z → St → option flow)
  (s : St) : option St :=
  for_iter_break (Z.to_nat (hi - lo)) lo body s.

(** [for (x : xs) body], with a body that cannot fail. *)
Definition for_each {X : Type} (xs : list X) (body : St → X → St) (s : St)
  : St :=
  fold_left body xs s.

(** [for (x : xs) body], with a body that can fail. *)
Fixpoint for_each_opt {X : Type} (xs : list X) (body : St → X → option St)
  (s : St) : option St :=
  match xs with
  | [] => Some s
  | x :: xs' => s' ← body s x; for_each_opt xs' body s'
  end.
End loops.

Arguments flow : clear implicits.

(** ** Floating-point helpers *)

(** [sum = 0.0; for (x : xs) sum += x]. *)
Definition fsum (xs : list float) : float :=
  fold_left PrimFloat.add xs 0%float.

(** ** Section 1 of the source: core data structures *)

(** [class NodeMapper]: names to dense integer ids. *)
Record NodeMapper := mkNodeMapper {
  name_to_id : gmap string Z;
  id_to_name : list string
}.

Definition new_mapper : NodeMapper :=
  {| name_to_id := ∅; id_to_name := [] |}.

(** [NodeMapper::getId]: the id of a name, created when the name is new. *)
Definition getId (name : string) (m : NodeMapper) : Z * NodeMapper :=
  match name_to_id m !! name with
  | None =>
      let new_id := Z.of_nat (length (id_to_name m)) in
      (new_id, {| name_to_id := <[name := new_id]> (name_to_id m);
                  id_to_name := id_to_name m ++ [name] |})
  | Some id => (id, m)
  end.

Definition getNumNodes (m : NodeMapper) : Z :=
  Z.of_nat (length (id_to_name m)).

(** [struct CSRGraph]. *)
Record CSRGraph := mkCSRGraph {
  num_nodes : Z;
  num_edges : Z;
  row_ptr : list Z;
  col_indices : list Z;
  edge_weights : list float;
  out_weight_sum : list float
}.

(** The constructor [CSRGraph(int n)]. *)
Definition CSRGraph_new (n : Z) : option CSRGraph :=
  rp ← valloc (n + 1) 0;
  ows ← valloc n 0%float;
  Some {| num_nodes := n; num_edges := 0; row_ptr := rp;
          col_indices := []; edge_weights := [];
          out_weight_sum := ows |}.

(** ** The graph loader *)

(** [struct Edge] of [loadGraphFromFile]. *)
Record Edge := mkEdge { e_u : Z; e_v : Z; e_w : float }.

(** A line of the dataset on which [ss >> u_str >> v_str] succeeded;
    [w_in] is the third column when [ss >> w_in] succeeded. Comment lines,
    blank lines and lines with fewer than two tokens never reach the edge
    list and are not represented. *)
Record edge_line := mkLine {
  u_str : string;
  v_str : string;
  w_in : option float
}.

(** The weight the loader keeps for a line. *)
Definition line_weight (l : edge_line) : float :=
  let weight := match w_in l with
                | Some w => abs w
                | None => 1%float
                end in
  if (weight =? 0)%float then 0.0001%float else weight.

(** The body of the reading loop, for one line. *)
Definition read_line (st : list Edge * NodeMapper) (l : edge_line)
  : list Edge * NodeMapper :=
  let '(temp_edges, mapper) := st in
  let weight := line_weight l in
  let '(u, mapper) := getId (u_str l) mapper in
  let '(v, mapper) := getId (v_str l) mapper in
  (temp_edges ++ [{| e_u := u; e_v := v; e_w := weight |}], mapper).

(** [adj[e.u].push_back({e.v, e.w})] for every edge. *)
Definition build_adj (N : Z) (temp_edges : list Edge)
  : option (list (list (Z * float))) :=
  adj ← valloc N [];
  for_each_opt temp_edges
    (λ adj e, row ← vget adj (e_u e);
              vset adj (e_u e) (row ++ [(e_v e, e_w e)]))
    adj.

(** The state of the conversion loop: the graph under construction and
    [cursor]. *)
Definition fill_row (nbrs : list (Z * float))
  (st : list Z * list float * float * Z) : list Z * list float * float * Z :=
  for_each nbrs
    (λ '(cols, ws, sum_w, cursor) nbr,
       (cols ++ [nbr.1], ws ++ [nbr.2], (sum_w + nbr.2)%float, cursor + 1))
    st.

Definition convert_row (adj : list (list (Z * float))) (i : Z)
  (st : CSRGraph * Z) : option (CSRGraph * Z) :=
  let '(graph, cursor) := st in
  rp ← vset (row_ptr graph) i cursor;
  nbrs ← vget adj i;
  let '(cols, ws, sum_w, cursor) :=
    fill_row nbrs (col_indices graph, edge_weights graph, 0%float, cursor) in
  ows ← vset (out_weight_sum graph) i sum_w;
  Some ({| num_nodes := num_nodes graph; num_edges := num_edges graph;
           row_ptr := rp; col_indices := cols; edge_weights := ws;
           out_weight_sum := ows |}, cursor).

(** The adjacency list to CSR conversion. *)
Definition adj_to_csr (N : Z) (E : Z) (adj : list (list (Z * float)))
  : option CSRGraph :=
  graph ← CSRGraph_new N;
  let graph := {| num_nodes := num_nodes graph; num_edges := E;
                  row_ptr := row_ptr graph;
                  col_indices := col_indices graph;
                  edge_weights := edge_weights graph;
                  out_weight_sum := out_weight_sum graph |} in
  '(graph, cursor) ← for_range 0 N (convert_row adj) (graph, 0);
  rp ← vset (row_ptr graph) N cursor;
  Some {| num_nodes := num_nodes graph; num_edges := num_edges graph;
          row_ptr := rp; col_indices := col_indices graph;
          edge_weights := edge_weights graph;
          out_weight_sum := out_weight_sum graph |}.

(** [loadGraphFromFile], from the tokenized lines of the file. *)
Definition loadGraphFromFile (lines : list edge_line) (mapper : NodeMapper)
  : option (CSRGraph * NodeMapper) :=
  let '(temp_edges, mapper) := for_each lines read_line ([], mapper) in
  let N := getNumNodes mapper in
  adj ← build_adj N temp_edges;
  graph ← adj_to_csr N (Z.of_nat (length temp_edges)) adj;
  Some (graph, mapper).

(** ** Section 2 of the source: the algorithms *)

(** [struct AlgorithmResult]. *)
Record AlgorithmResult := mkResult {
  scores : list float;
  duration_us : Z;
  iterations : Z
}.

(** A count converted to [double]: [(double)n] for [0 <= n < 2^63]. *)
Definition of_count (n : Z) : float :=
  of_uint63 (Uint63.of_Z n).

(** [std::fill(v.begin(), v.end(), x)]. *)
Definition fill {A : Type} (v : list A) (x : A) : list A :=
  replicate (length v) x.

(** *** Personalized PageRank by power iteration *)

Module PPREngine.
Section compute.
(** The two readings of [high_resolution_clock::now()], in microseconds. *)
Variables (start end_ : Z).
Variables (graph : CSRGraph) (seeds : list Z) (alpha epsilon : float).

(** The personalization vector: probability mass on the seed nodes. *)
Definition personalization (N : Z) : option (list float) :=
  p ← valloc N 0%float;
  match seeds with
  | [] => Some p
  | _ :: _ =>
      let mass := (1 / of_count (Z.of_nat (length seeds)))%float in
      for_each_opt seeds
        (λ p id, if bool_decide (id < N) then vset p id mass else Some p)
        p
  end.

(** The inner loop of the scatter phase: the outgoing edges of [u]. *)
Definition push_edge (r : list float) (u : Z) (k : Z) (r_new : list float)
  : option (list float) :=
  v ← vget (col_indices graph) k;
  w ← vget (edge_weights graph) k;
  old ← vget r_new v;
  ru ← vget r u;
  ows ← vget (out_weight_sum graph) u;
  vset r_new v (old + ru * (w / ows))%float.

(** The body of the scatter loop, for the node [u]. *)
Definition push_node (r : list float) (u : Z) (st : list float * float)
  : option (list float * float) :=
  let '(r_new, dead_mass) := st in
  ows ← vget (out_weight_sum graph) u;
  if (0 <? ows)%float then
    lo ← vget (row_ptr graph) u;
    hi ← vget (row_ptr graph) (u + 1);
    r_new ← for_range lo hi (push_edge r u) r_new;
    Some (r_new, dead_mass)
  else
    ru ← vget r u;
    Some (r_new, (dead_mass + ru)%float).

(** Push scores to outgoing neighbors. *)
Definition scatter (N : Z) (r r_new : list float)
  : option (list float * float) :=
  for_range 0 N (push_node r) (r_new, 0%float).

(** The value the combine loop stores at a node. *)
Definition combined (r_new_i p_i dead_mass : float) : float :=
  ((1 - alpha) * r_new_i + alpha * p_i + (1 - alpha) * dead_mass * p_i)%float.

(** The body of the teleportation and convergence loop. *)
Definition combine_node (p r : list float) (dead_mass : float) (i : Z)
  (st : list float * float) : option (list float * float) :=
  let '(r_new, diff) := st in
  x ← vget r_new i;
  p_i ← vget p i;
  let val := combined x p_i dead_mass in
  r_i ← vget r i;
  let diff := (diff + abs (val - r_i))%float in
  r_new ← vset r_new i val;
  Some (r_new, diff).

Definition combine (N : Z) (p r r_new : list float) (dead_mass : float)
  : option (list float * float) :=
  for_range 0 N (combine_node p r dead_mass) (r_new, 0%float).

(** One sweep: the new iterate and its L1 distance to the previous one. *)
Definition sweep (N : Z) (p r r_new : list float)
  : option (list float * float) :=
  let r_new := fill r_new 0%float in
  '(r_new, dead_mass) ← scatter N r r_new;
  combine N p r r_new dead_mass.

(** The body of the power iteration loop; the state is [r], [r_new] and
    [iter_count]. *)
Definition iteration (N : Z) (p : list float) (iter : Z)
  (st : list float * list float * Z)
  : option (flow (list float * list float * Z)) :=
  let '(r, r_new, _) := st in
  '(r_new, diff) ← sweep N p r r_new;
  let r := r_new in
  let iter_count := iter + 1 in
  if (diff <? epsilon)%float
  then Some (Break (r, r_new, iter_count))
  else Some (Continue (r, r_new, iter_count)).

(** [PPREngine::compute]. *)
Definition compute : option AlgorithmResult :=
  let N := num_nodes graph in
  p ← personalization N;
  let r := p in
  r_new ← valloc N 0%float;
  '(r, _, iter_count) ← for_range_break 0 100 (iteration N p) (r, r_new, 0);
  Some {| scores := r; duration_us := end_ - start;
          iterations := iter_count |}.
End compute.
End PPREngine.

(** *** Monte Carlo approximation by random walks *)

(** What a run of the random-walk engine comes to: a result, undefined
    behaviour, or a [while (true)] loop that has not left within the step
    budget of the model. *)
Inductive outcome (A : Type) : Type :=
| Ok (a : A)
| Undefined
| OutOfFuel.
Arguments Ok {A} a.
Arguments Undefined {A}.
Arguments OutOfFuel {A}.

#[global] Instance outcome_ret : MRet outcome := @Ok.
#[global] Instance outcome_bind : MBind outcome := λ A B f m,
  match m with
  | Ok a => f a
  | Undefined => Undefined
  | OutOfFuel => OutOfFuel
  end.

Definition defined {A : Type} (o : option A) : outcome A :=
  match o with
  | Some a => Ok a
  | None => Undefined
  end.

Definition INT_MAX : Z := 2147483647.

Module MonteCarloEngine.
Section compute.
(** The random source: the state of [std::mt19937] and the two
    distributions drawn from it. [prob g] is [prob(gen)], a draw of
    [uniform_real_distribution<>(0.0, 1.0)]; [seed_dist b g] is a draw of
    [uniform_int_distribution<>(0, b)]. *)
Context {G : Type}.
Variable prob : G → float * G.
Variable seed_dist : Z → G → Z * G.
(** The two readings of the clock, in microseconds. *)
Variables (start end_ : Z).
Variables (graph : CSRGraph) (seeds : list Z) (alpha : float).

(** [visits[curr]++] on [int] counters. *)
Definition count_visit (visits : list Z) (curr : Z) : option (list Z) :=
  c ← vget visits curr;
  if bool_decide (c < INT_MAX) then vset visits curr (c + 1) else None.

(** The body of the edge scan; the state is [acc] and [curr]. *)
Definition scan_edge (target : float) (k : Z) (st : float * Z)
  : option (flow (float * Z)) :=
  let '(acc, curr) := st in
  w ← vget (edge_weights graph) k;
  let acc := (acc + w)%float in
  if (target <=? acc)%float then
    v ← vget (col_indices graph) k;
    Some (Break (acc, v))
  else Some (Continue (acc, curr)).

(** Weighted neighbor selection: the node the walk is at after it. *)
Definition select_neighbor (curr : Z) (target : float) : option Z :=
  lo ← vget (row_ptr graph) curr;
  hi ← vget (row_ptr graph) (curr + 1);
  '(_, curr) ← for_range_break lo hi (scan_edge target) (0%float, curr);
  Some curr.

(** The [while (true)] loop of one walk, for at most [fuel] steps. *)
Fixpoint walk (fuel : nat) (visits : list Z) (curr : Z) (gen : G)
  : outcome (list Z * G) :=
  match fuel with
  | O => OutOfFuel
  | S fuel' =>
      visits ← defined (count_visit visits curr);
      let '(x, gen) := prob gen in
      if (x <? alpha)%float then Ok (visits, gen) else
      ows ← defined (vget (out_weight_sum graph) curr);
      if (ows =? 0)%float then Ok (visits, gen) else
      let '(y, gen) := prob gen in
      let target := (y * ows)%float in
      curr ← defined (select_neighbor curr target);
      walk fuel' visits curr gen
  end.

(** The random walk simulation: [n] walks. *)
Fixpoint simulate (fuel : nat) (n : nat) (visits : list Z) (gen : G)
  : outcome (list Z * G) :=
  match n with
  | O => Ok (visits, gen)
  | S n' =>
      let '(idx, gen) := seed_dist (Z.of_nat (length seeds) - 1) gen in
      curr ← defined (vget seeds idx);
      '(visits, gen) ← walk fuel visits curr gen;
      simulate fuel n' visits gen
  end.

(** Normalize visit counts to probabilities. *)
Definition normalize (N : Z) (visits : list Z) : option (list float) :=
  scores ← valloc N 0%float;
  let total := for_each visits Z.add 0 in
  if bool_decide (0 < total) then
    for_range 0 N
      (λ i scores, v ← vget visits i;
                   vset scores i (of_count v / of_count total)%float)
      scores
  else Some scores.

(** [gen] is the generator as [mt19937 gen(rd())] would leave it; the
    generator comes back with the result so that the draws show. *)
Definition compute (fuel : nat) (total_walks : Z) (gen : G)
  : outcome (AlgorithmResult * G) :=
  let N := num_nodes graph in
  visits ← defined (valloc N 0);
  match seeds with
  | [] =>
      zeros ← defined (valloc N 0%float);
      Ok ({| scores := zeros; duration_us := 0; iterations := 0 |}, gen)
  | _ :: _ =>
      '(visits, gen) ← simulate fuel (Z.to_nat total_walks) visits gen;
      scores ← defined (normalize N visits);
      Ok ({| scores := scores; duration_us := end_ - start;
             iterations := total_walks |}, gen)
  end.
End compute.
End MonteCarloEngine.

(** ** Example inputs *)

Definition ex_lines : list edge_line :=
  [ mkLine "a" "b" None; mkLine "b" "c" (Some 0%float);
    mkLine "a" "c" (Some (-2.5)%float); mkLine "c" "a" (Some 3%float) ].

Definition cycle_lines : list edge_line :=
  [ mkLine "0" "1" None; mkLine "1" "2" None; mkLine "2" "0" None ].

(** A scripted random source: the draws of [prob] and of [seed_dist] are
    read off two tapes; an exhausted tape yields 0. *)
Definition tape : Type := list float * list Z.

Definition tape_prob (g : tape) : float * tape :=
  match g.1 with
  | [] => (0%float, g)
  | x :: xs => (x, (xs, g.2))
  end.

Definition tape_seed_dist (b : Z) (g : tape) : Z * tape :=
  match g.2 with
  | [] => (0, g)
  | i :: rest => (i, (g.1, rest))
  end.

(** Six isolated nodes. *)
Definition six_nodes : CSRGraph :=
  {| num_nodes := 6; num_edges := 0; row_ptr := [0; 0; 0; 0; 0; 0; 0];
     col_indices := []; edge_weights := [];
     out_weight_sum := replicate 6 0%float |}.

(** ** Notions the properties are stated with *)

(** The ids a mapper hands out are the indices of its name table. *)
Definition mapper_ok (m : NodeMapper) : Prop :=
  map_Forall (λ _ id, 0 ≤ id < getNumNodes m) (name_to_id m).

Definition edge_ok (N : Z) (e : Edge) : Prop :=
  0 ≤ e_u e < N ∧ 0 ≤ e_v e < N.

(** The outgoing edges of [u] among [edges], in input order. *)
Definition row_of (edges : list Edge) (u : Z) : list (Z * float) :=
  (λ e, (e_v e, e_w e)) <$> filter (λ e, e_u e = u) edges.

(** The edges of source [u], in input order. *)
Definition filter_src (edges : list Edge) (u : Z) : list Edge :=
  filter (λ e, e_u e = u) edges.

Definition adj_rows (N : Z) (edges : list Edge) : list (list (Z * float)) :=
  row_of edges <$> seqZ 0 N.

(** The number of edges in the rows before row [u]. *)
Definition offset (adj : list (list (Z * float))) (u : Z) : Z :=
  Z.of_nat (length (concat (take (Z.to_nat u) adj))).

(** The CSR encoding of an adjacency list. *)
Record csr_of (adj : list (list (Z * float))) (E : Z) (g : CSRGraph)
  : Prop := {
  csr_nodes : num_nodes g = Z.of_nat (length adj);
  csr_edges : num_edges g = E;
  csr_row_len : length (row_ptr g) = S (length adj);
  csr_row : ∀ u, 0 ≤ u ≤ Z.of_nat (length adj) →
                 vget (row_ptr g) u = Some (offset adj u);
  csr_cols : col_indices g = concat ((λ row, row.*1) <$> adj);
  csr_weights : edge_weights g = concat ((λ row, row.*2) <$> adj);
  csr_ows_len : length (out_weight_sum g) = length adj;
  csr_ows : ∀ u row, vget adj u = Some row →
                     vget (out_weight_sum g) u = Some (fsum row.*2)
}.

(** What the engines need of a graph for their vector accesses to be in
    range: the sizes of the four vectors, row pointers within the edge
    arrays, destinations within the nodes. *)
Definition wf_graph (g : CSRGraph) : Prop :=
  0 ≤ num_nodes g ∧
  length (row_ptr g) = Z.to_nat (num_nodes g + 1) ∧
  length (out_weight_sum g) = Z.to_nat (num_nodes g) ∧
  length (edge_weights g) = length (col_indices g) ∧
  Forall (λ x, 0 ≤ x ≤ Z.of_nat (length (col_indices g))) (row_ptr g) ∧
  Forall (λ v, 0 ≤ v < num_nodes g) (col_indices g).

(** The CSR invariant of the data model. *)
Record csr_invariant (g : CSRGraph) : Prop := {
  inv_row_len : Z.of_nat (length (row_ptr g)) = num_nodes g + 1;
  inv_monotone : ∀ i j x y, i ≤ j → vget (row_ptr g) i = Some x →
                            vget (row_ptr g) j = Some y → x ≤ y;
  inv_first : vget (row_ptr g) 0 = Some 0;
  inv_last : vget (row_ptr g) (num_nodes g) = Some (num_edges g);
  inv_edges : Z.of_nat (length (col_indices g)) = num_edges g ∧
              Z.of_nat (length (edge_weights g)) = num_edges g;
  inv_ows : ∀ u, 0 ≤ u < num_nodes g →
      ∃ lo hi, vget (row_ptr g) u = Some lo ∧
               vget (row_ptr g) (u + 1) = Some hi ∧
               vget (out_weight_sum g) u
               = Some (fsum (slice lo hi (edge_weights g)))
}.

(** Weight sanitization as the specification words it: the absolute value
    of the input weight, and the fixed epsilon for an input weight of 0. *)
Definition sanitized (w : float) : float :=
  if (w =? 0)%float then 0.0001%float else abs w.

(** The weights a dataset file can carry: [ss >> w_in] reads a decimal
    numeral and leaves the default weight in place when it fails, so a
    weight that reaches the loader is never a NaN. *)
Definition parsed_weight (l : edge_line) : Prop :=
  match w_in l with
  | Some w => is_nan w = false
  | None => True
  end.

(** *** The power iteration, in closed form *)

(** [mass] on the nodes of [marked], 0 elsewhere. *)
Definition mark (N : Z) (mass : float) (marked : list Z) : list float :=
  (λ i, if bool_decide (i ∈ marked) then mass else 0%float) <$> seqZ 0 N.

Definition seed_mass (seeds : list Z) : float :=
  (1 / of_count (Z.of_nat (length seeds)))%float.

(** The mass node [u] sends along its edge [k]: destination and amount. *)
Definition edge_push (g : CSRGraph) (r : list float) (u k : Z)
  : option (Z * float) :=
  v ← vget (col_indices g) k;
  w ← vget (edge_weights g) k;
  ru ← vget r u;
  ows ← vget (out_weight_sum g) u;
  Some (v, (ru * (w / ows))%float).

(** [out_weight_sum[u] > 0]. *)
Definition has_out (g : CSRGraph) (u : Z) : bool :=
  match vget (out_weight_sum g) u with
  | Some ows => (0 <? ows)%float
  | None => false
  end.

(** What node [u] pushes, in the order of its edges. *)
Definition node_pushes (g : CSRGraph) (r : list float) (u : Z)
  : list (Z * float) :=
  if has_out g u then
    match vget (row_ptr g) u, vget (row_ptr g) (u + 1) with
    | Some lo, Some hi => omap (edge_push g r u) (seqZ lo (hi - lo))
    | _, _ => []
    end
  else [].

(** The pushes of the nodes below [n], in the order of the scatter loop. *)
Definition pushes (g : CSRGraph) (r : list float) (n : Z)
  : list (Z * float) :=
  concat (node_pushes g r <$> seqZ 0 n).

(** What the slot of [v] holds once [ps] have been added to [x0]. *)
Definition received (ps : list (Z * float)) (v : Z) (x0 : float) : float :=
  fold_left PrimFloat.add (filter (λ c, c.1 = v) ps).*2 x0.

(** The mass of the dangling nodes below [n], summed in node order. *)
Definition dead_mass_of (g : CSRGraph) (r : list float) (n : Z) : float :=
  fsum (omap (λ u, if has_out g u then None else vget r u) (seqZ 0 n)).

(** The term of node [j] in the L1 distance of a sweep. *)
Definition l1_term (alpha : float) (sc p r : list float) (dead_mass : float)
  (j : Z) : option float :=
  x ← vget sc j;
  p_j ← vget p j;
  r_j ← vget r j;
  Some (abs (PPREngine.combined alpha x p_j dead_mass - r_j))%float.

(** Every ratio [w / out_weight_sum[u]] the scatter phase forms is finite. *)
Definition finite_ratios (g : CSRGraph) : bool :=
  forallb
    (λ u, match vget (out_weight_sum g) u, vget (row_ptr g) u,
                vget (row_ptr g) (u + 1) with
          | Some ows, Some lo, Some hi =>
              if (0 <? ows)%float then
                forallb (λ k, match vget (edge_weights g) k with
                              | Some w => is_finite (w / ows)
                              | None => true
                              end)
                        (seqZ lo (hi - lo))
              else true
          | _, _, _ => true
          end)
    (seqZ 0 (num_nodes g)).

(** The state of the power iteration after [n] sweeps with no convergence
    test: [r] and [r_new]. *)
Fixpoint sweeps (g : CSRGraph) (alpha : float) (p : list float) (n : nat)
  (st : list float * list float) : option (list float * list float) :=
  match n with
  | O => Some st
  | S n' =>
      '(r', _) ← PPREngine.sweep g alpha (num_nodes g) p st.1 st.2;
      sweeps g alpha p n' (r', r')
  end.

(** The iterate after [n] sweeps. *)
Definition nth_iterate (g : CSRGraph) (seeds : list Z) (alpha : float)
  (n : nat) : option (list float) :=
  p ← PPREngine.personalization seeds (num_nodes g);
  r_new ← valloc (num_nodes g) 0%float;
  fst <$> sweeps g alpha p n (p, r_new).

(** The L1 difference that sweep number [n], counted from 0, computes. *)
Definition nth_diff (g : CSRGraph) (seeds : list Z) (alpha : float)
  (n : nat) : option float :=
  p ← PPREngine.personalization seeds (num_nodes g);
  r_new ← valloc (num_nodes g) 0%float;
  st ← sweeps g alpha p n (p, r_new);
  snd <$> PPREngine.sweep g alpha (num_nodes g) p st.1 st.2.

(** A chain [a -> b -> c]: the last node is dangling. *)
Definition chain_graph : CSRGraph :=
  {| num_nodes := 3; num_edges := 2; row_ptr := [0; 1; 2; 2];
     col_indices := [1; 2]; edge_weights := [1; 2]%float;
     out_weight_sum := [1; 2; 0]%float |}.

(** The cycle [0 -> 1 -> 2 -> 0] with unit weights. *)
Definition cycle_graph : CSRGraph :=
  {| num_nodes := 3; num_edges := 3; row_ptr := [0; 1; 2; 3];
     col_indices := [1; 2; 0]; edge_weights := [1; 1; 1]%float;
     out_weight_sum := [1; 1; 1]%float |}.

(** A random source that counts its draws. *)
Definition counting_prob (n : nat) : float * nat := (0.5%float, S n).
Definition counting_seed_dist (b : Z) (n : nat) : Z * nat := (0, S n).

(** *** The normalization, in exact arithmetic *)

(** [total], the sum of the visit counters. *)
Definition total_visits (visits : list Z) : Z :=
  for_each visits Z.add 0.

(** The shares [visits[i] / total] as rationals. *)
Definition exact_shares (visits : list Z) : list Q :=
  (λ c, inject_Z c / inject_Z (total_visits visits))%Q <$> visits.

Definition Qsum (qs : list Q) : Q :=
  fold_right Qplus 0%Q qs.

(** The rational a finite double stands for. *)
Definition exact_value (x : float) : Q :=
  match Prim2SF x with
  | S754_finite s m e =>
      ((if s then -1 else 1) * inject_Z (Z.pos m) * Qpower 2 e)%Q
  | _ => 0%Q
  end.

(** *** The edge scan, in closed form *)

(** [acc] once the scan that starts at [lo] has added the weight of edge
    [k]. *)
Definition running_weight (g : CSRGraph) (lo k : Z) : float :=
  fsum (slice lo (k + 1) (edge_weights g)).

(** The scan finds no edge in [lo .. hi). *)
Definition scan_exhausted (g : CSRGraph) (target : float) (lo hi : Z) : Prop :=
  ∀ k, lo ≤ k < hi → (target <=? running_weight g lo k)%float = false.

(** Edge [k] is the first of [lo .. hi) at which the running weight reaches
    the target. *)
Definition first_reached (g : CSRGraph) (target : float) (lo hi k : Z)
  : Prop :=
  lo ≤ k < hi ∧
  (target <=? running_weight g lo k)%float = true ∧
  scan_exhausted g target lo k.

(** Two parallel edges whose weights add up to infinity. *)
Definition overflow_graph : CSRGraph :=
  {| num_nodes := 2; num_edges := 2; row_ptr := [0; 2; 2];
     col_indices := [1; 1]; edge_weights := [1e308; 1e308]%float;
     out_weight_sum := [infinity; 0%float] |}.

(** *** Loop invariants *)

(** The invariant of the conversion loop before row [i]. *)
Definition csr_inv (adj : list (list (Z * float))) (E : Z) (i : Z)
  (st : CSRGraph * Z) : Prop :=
  let '(g, cursor) := st in
  num_nodes g = Z.of_nat (length adj) ∧ num_edges g = E ∧
  length (row_ptr g) = S (length adj) ∧
  length (out_weight_sum g) = length adj ∧
  (∀ u, 0 ≤ u < i → vget (row_ptr g) u = Some (offset adj u)) ∧
  cursor = offset adj i ∧
  col_indices g = concat ((λ row, row.*1) <$> take (Z.to_nat i) adj) ∧
  edge_weights g = concat ((λ row, row.*2) <$> take (Z.to_nat i) adj) ∧
  (∀ u row, 0 ≤ u < i → vget adj u = Some row →
            vget (out_weight_sum g) u = Some (fsum row.*2)).

(** The invariant of the scatter loop before node [u]. *)
Definition scatter_inv (g : CSRGraph) (r : list float) (u : Z)
  (st : list float * float) : Prop :=
  length st.1 = Z.to_nat (num_nodes g) ∧
  st.2 = dead_mass_of g r u ∧
  ∀ v, 0 ≤ v < num_nodes g →
       vget st.1 v = Some (received (pushes g r u) v 0%float).

(** The invariant of the combine loop before node [i]. *)
Definition combine_inv (g : CSRGraph) (alpha : float) (r sc p : list float)
  (dead : float) (i : Z) (st : list float * float) : Prop :=
  length st.1 = Z.to_nat (num_nodes g) ∧
  st.2 = fsum (omap (l1_term alpha sc p r dead) (seqZ 0 i)) ∧
  (∀ j, 0 ≤ j < i →
        ∃ x p_j, vget sc j = Some x ∧ vget p j = Some p_j ∧
                 vget st.1 j = Some (PPREngine.combined alpha x p_j dead)) ∧
  (∀ j, i ≤ j → vget st.1 j = vget sc j).

(** A positive or a negative zero. *)
Definition zeroish (x : float) : Prop := x = 0%float ∨ x = (-0)%float.

(** * The rest of the source *)

(** ** More of [NodeMapper] *)

(** [NodeMapper::getName]: the name of an id, ["UNKNOWN"] outside the
    table. *)
Definition getName (id : Z) (m : NodeMapper) : option string :=
  if bool_decide (0 ≤ id) && bool_decide (id < Z.of_nat (length (id_to_name m)))
  then vget (id_to_name m) id
  else Some "UNKNOWN"%string.

(** [NodeMapper::getRandomNodeName]; [rand] is the value of [rand()], an
    [int] between 0 and [RAND_MAX]. *)
Definition getRandomNodeName (rand : Z) (m : NodeMapper) : option string :=
  match id_to_name m with
  | [] => Some ""%string
  | _ :: _ => vget (id_to_name m) (rand `mod` Z.of_nat (length (id_to_name m)))
  end.

(** The two tables of a mapper mirror each other. *)
Definition mapper_bij (m : NodeMapper) : Prop :=
  ∀ name id, name_to_id m !! name = Some id ↔
             vget (id_to_name m) id = Some name.

(** The names of a dataset, in reading order. *)
Definition line_names (lines : list edge_line) : list string :=
  concat ((λ l, [u_str l; v_str l]) <$> lines).

(** ** The seed loop of [main] *)

(** The loop that reads the seed names. [inputs] are the words that
    [cin >> input] reads, in order, and [rand] the value of the one call
    of [rand()]. When the words run out before ["done"] or ["random"],
    [cin >> input] fails and leaves [input] as it was, so the loop goes on
    adding seeds and is never left: [OutOfFuel]. *)
Fixpoint read_seeds (inputs : list string) (rand : Z) (seed_ids : list Z)
  (mapper : NodeMapper) : outcome (list Z * NodeMapper) :=
  match inputs with
  | [] => OutOfFuel
  | input :: inputs' =>
      if bool_decide (input = "done"%string) then Ok (seed_ids, mapper) else
      if bool_decide (input = "random"%string) then
        rnd ← defined (getRandomNodeName rand mapper);
        let '(id, mapper) := getId rnd mapper in
        Ok (seed_ids ++ [id], mapper)
      else
        let '(id, mapper) := getId input mapper in
        read_seeds inputs' rand (seed_ids ++ [id]) mapper
  end.

(** The ids of [m] name in [m'] what they name in [m]. *)
Definition keeps_names (m m' : NodeMapper) : Prop :=
  ∀ n i, vget (id_to_name m) i = Some n → vget (id_to_name m') i = Some n.

(** [long long dynamic_walks = graph.num_nodes * 500], a product of two
    [int]s. *)
Definition dynamic_walks (graph : CSRGraph) : option Z :=
  if bool_decide (num_nodes graph * 500 ≤ INT_MAX)
  then Some (num_nodes graph * 500) else None.

(** A word that the seed loop takes for a node name. *)
Definition seed_name (input : string) : Prop :=
  input ≠ "done"%string ∧ input ≠ "random"%string.

(** The mapper after the loader has read [cycle_lines]. *)
Definition cycle_mapper : NodeMapper :=
  (for_each cycle_lines read_line ([], new_mapper)).2.

(** ** [saveToCSV] *)

(** A line of the file after the header; [row_score] is the [double] that
    is written, not its text. *)
Record csv_row : Type := mk_row {
  row_rank : Z;
  row_name : string;
  row_score : float;
  row_status : string
}.

(** [operator<] of [pair<double, int>]. *)
Definition pair_lt (a b : float * Z) : bool :=
  (a.1 <? b.1)%float || (negb (b.1 <? a.1)%float && bool_decide (a.2 < b.2)).

(** What [std::sort] promises of its result: no element is less than the
    one before it. *)
Definition is_sorted (l : list (float * Z)) : Prop :=
  ∀ (k : nat) a b, l !! k = Some a → l !! S k = Some b → pair_lt b a = false.

Definition status_of (is_seed : bool) (score : float) : string :=
  if is_seed then "Seed"%string
  else if (0.0001 <? score)%float then "Suspicious"%string
  else "Safe"%string.

Section saveToCSV.
(** [std::sort] with [operator<], whose order among equal elements the
    standard leaves open. *)
Variable sort : list (float * Z) → list (float * Z).

Definition rank_scores (scores : list float) : list (float * Z) :=
  let ranked := imap (λ i s, (s, Z.of_nat i)) scores in
  (* sort(ranked.rbegin(), ranked.rend()) *)
  reverse (sort (reverse ranked)).

Definition saveToCSV (scores : list float) (mapper : NodeMapper)
  (seeds : list Z) : option (list csv_row) :=
  let ranked := rank_scores scores in
  for_range 0 (Z.of_nat (length ranked))
    (λ i file,
       e ← vget ranked i;
       let id := e.2 in
       let is_seed := bool_decide (id ∈ seeds) in
       name ← getName id mapper;
       Some (file ++ [mk_row (i + 1) name e.1 (status_of is_seed e.1)]))
    [].
End saveToCSV.

(** A sort for the examples: insertion from the left. *)
Fixpoint insert_sorted (x : float * Z) (l : list (float * Z))
  : list (float * Z) :=
  match l with
  | [] => [x]
  | y :: l' => if pair_lt x y then x :: l else y :: insert_sorted x l'
  end.

Definition insertion_sort (l : list (float * Z)) : list (float * Z) :=
  foldr insert_sorted [] l.

(** * The first version of the program: [src/main.cpp] *)

(** [(double)n] for an [int] [n]. *)
Definition of_int (n : Z) : float :=
  if bool_decide (0 ≤ n) then of_count n else (- of_count (- n))%float.

Module CSRMatrix.
(** [class CSRMatrix]. *)
Record t : Type := mk {
  values : list float;
  colIndex : list Z;
  rowIndex : list Z;
  numRows : Z
}.

(** The constructor [CSRMatrix(int rows, int cols)]. *)
Definition create (rows cols : Z) : option t :=
  rowIndex ← valloc (rows + 1) 0;
  Some {| values := []; colIndex := []; rowIndex := rowIndex;
          numRows := rows |}.

Definition addValue (row col : Z) (value : float) (M : t) : option t :=
  c ← vget (rowIndex M) (row + 1);
  rowIndex' ← vset (rowIndex M) (row + 1) (c + 1);
  Some {| values := values M ++ [value]; colIndex := colIndex M ++ [col];
          rowIndex := rowIndex'; numRows := numRows M |}.

Definition finalizeRowIndex (M : t) : option t :=
  rowIndex' ← for_range 1 (numRows M + 1)
                 (λ i rowIndex,
                    a ← vget rowIndex i;
                    b ← vget rowIndex (i - 1);
                    vset rowIndex i (a + b))
                 (rowIndex M);
  Some {| values := values M; colIndex := colIndex M; rowIndex := rowIndex';
          numRows := numRows M |}.

(** [result[i] += values[j] * vec[colIndex[j]]]. *)
Definition multiply_entry (M : t) (vec : list float) (i j : Z)
  (result : list float) : option (list float) :=
  v ← vget (values M) j;
  c ← vget (colIndex M) j;
  x ← vget vec c;
  ri ← vget result i;
  vset result i (ri + v * x)%float.

Definition multiply (M : t) (vec : list float) : option (list float) :=
  let n := Z.of_nat (length (rowIndex M)) - 1 in
  result ← valloc n 0%float;
  for_range 0 n
    (λ i result,
       lo ← vget (rowIndex M) i;
       hi ← vget (rowIndex M) (i + 1);
       for_range lo hi (multiply_entry M vec i) result)
    result.

Definition normalizeWeights (M : t) : option t :=
  values' ← for_range 0 (numRows M)
               (λ i values,
                  hi ← vget (rowIndex M) (i + 1);
                  lo ← vget (rowIndex M) i;
                  let outDegree := of_int (hi - lo) in
                  if (0 <? outDegree)%float then
                    for_range lo hi
                      (λ j values,
                         v ← vget values j;
                         vset values j (v / outDegree)%float)
                      values
                  else Some values)
               (values M);
  Some {| values := values'; colIndex := colIndex M; rowIndex := rowIndex M;
          numRows := numRows M |}.

Definition handleDeadEnds (M : t) (p : list float) (alpha : float)
  : option (list float) :=
  for_range 0 (numRows M)
    (λ i p,
       lo ← vget (rowIndex M) i;
       hi ← vget (rowIndex M) (i + 1);
       if bool_decide (lo = hi) then
         x ← vget p i;
         vset p i (x + alpha / of_int (numRows M))%float
       else Some p)
    p.

(** [readFromFile]: [edges] are the triples [{from, {to, weight}}] that
    [file >> from >> to >> weight] reads, and [sort] is [std::sort] with
    the comparison of the [from] fields, whose order among edges of one
    row the standard leaves open. *)
Definition readFromFile
  (sort : list (Z * (Z * float)) → list (Z * (Z * float)))
  (edges : list (Z * (Z * float)))
  (M : t) : option t :=
  let edges := sort edges in
  M ← for_each_opt edges (λ M e, addValue e.1 e.2.1 e.2.2 M) M;
  finalizeRowIndex M.
End CSRMatrix.

Section personalizedPageRank.
(** The value that the reduction [reduction(+:norm)] leaves in [norm]:
    the sum of the terms in the order the threads combine them, [fsum]
    when the program is built without OpenMP. *)
Variable omp_sum : list float → float.

(** One pass of the loop over [iter]; [Break] is the [return r_new]. *)
Definition pagerank_iteration (M : CSRMatrix.t) (p : list float)
  (alpha epsilon : float) (n : Z) (iter : Z) (r : list float)
  : option (flow (list float)) :=
  r_new ← CSRMatrix.multiply M r;
  r_new ← for_range 0 n
             (λ i r_new,
                x ← vget r_new i;
                pi ← vget p i;
                vset r_new i ((1 - alpha) * x + alpha * pi)%float)
             r_new;
  r_new ← CSRMatrix.handleDeadEnds M r_new alpha;
  terms ← mapM (λ i, a ← vget r_new i; b ← vget r i;
                     Some (abs (a - b))%float) (seqZ 0 n);
  let norm := omp_sum terms in
  if (norm <? epsilon)%float then Some (Break r_new)
  else Some (Continue r_new).

Definition personalizedPageRank (M : CSRMatrix.t) (p : list float)
  (alpha epsilon : float) (max_iter : Z) : option (list float) :=
  let n := Z.of_nat (length p) in
  r ← valloc n 0%float;
  r ← for_range 0 n
         (λ i r, x ← vget p i;
                 if (0 <? x)%float then vset r i x else Some r)
         r;
  for_range_break 0 max_iter (pagerank_iteration M p alpha epsilon n) r.

(** [main] of [src/main.cpp], up to the nodes it reports. *)
Definition first_main
  (sort : list (Z * (Z * float)) → list (Z * (Z * float)))
  (edges : list (Z * (Z * float)))
  : option (list Z) :=
  let n := 5 in
  M ← CSRMatrix.create n n;
  M ← CSRMatrix.readFromFile sort edges M;
  M ← CSRMatrix.normalizeWeights M;
  let trustedNodes := [0; 2] in
  p ← valloc n 0%float;
  p ← for_each_opt trustedNodes
         (λ p nodeID,
            vset p nodeID (1 / of_count (Z.of_nat (length trustedNodes)))%float)
         p;
  result ← personalizedPageRank M p 0.15 1e-6 100;
  for_range 0 n
    (λ i reported,
       x ← vget result i;
       if (x <? 0.001)%float then Some (reported ++ [i]) else Some reported)
    [].
End personalizedPageRank.

(** ** Notions for [src/main.cpp] *)

(** The number of edges that start below row [i], and in row [i]. *)
Definition count_lt (edges : list (Z * (Z * float))) (i : Z) : Z :=
  Z.of_nat (length (filter (λ e, e.1 < i) edges)).

Definition count_eq (edges : list (Z * (Z * float))) (i : Z) : Z :=
  Z.of_nat (length (filter (λ e, e.1 = i) edges)).

(** What [std::sort] promises of its result under the comparison of the
    [from] fields: no edge starts below the one before it. *)
Definition sorted_by_from (l : list (Z * (Z * float))) : Prop :=
  ∀ (k : nat) a b, l !! k = Some a → l !! S k = Some b → ¬ b.1 < a.1.

(** The product of a row, given by its values and columns, and a vector,
    summed from the left as [multiply] does. *)
Definition row_dot (vec : list float) (vals : list float) (cols : list Z)
  : float :=
  fold_left (λ acc vc, (acc + vc.1 * default 0 (vget vec vc.2))%float)
    (zip vals cols) 0%float.

(** The row pointers stay within the value array, the columns within
    [n]. *)
Definition wf_matrix (M : CSRMatrix.t) (n : Z) : Prop :=
  CSRMatrix.numRows M = n ∧ 0 ≤ n ∧
  length (CSRMatrix.rowIndex M) = Z.to_nat (n + 1) ∧
  length (CSRMatrix.colIndex M) = length (CSRMatrix.values M) ∧
  Forall (λ x, 0 ≤ x ≤ Z.of_nat (length (CSRMatrix.values M)))
    (CSRMatrix.rowIndex M) ∧
  Forall (λ c, 0 ≤ c < n) (CSRMatrix.colIndex M).

(** What [normalizeWeights] leaves of a value [v] in a row of [d]
    entries. *)
Definition normalized (v : float) (d : Z) : float :=
  if (0 <? of_int d)%float then (v / of_int d)%float else v.

(** The start vector of [personalizedPageRank]. *)
Definition positive_part (p : list float) : list float :=
  (λ x, if (0 <? x)%float then x else 0%float) <$> p.

(** A sort by [from] for the examples: stable insertion. *)
Fixpoint insert_edge (x : Z * (Z * float)) (l : list (Z * (Z * float)))
  : list (Z * (Z * float)) :=
  match l with
  | [] => [x]
  | y :: l' =>
      if bool_decide (x.1 ≤ y.1) then x :: l else y :: insert_edge x l'
  end.

Definition sort_edges (l : list (Z * (Z * float))) : list (Z * (Z * float)) :=
  foldr insert_edge [] l.

(** Four edges into a matrix of three rows, one of them from [-1], and two
    edges of which one is from row 3. *)
Definition ex_edges : list (Z * (Z * float)) :=
  [(2, (0, 1%float)); (0, (1, 2%float)); (-1, (2, 4%float));
   (0, (2, 3%float))].

Definition bad_edges : list (Z * (Z * float)) :=
  [(0, (1, 2%float)); (3, (0, 1%float))].

(** Row pointers that do not decrease. *)
Definition monotone (l : list Z) : Prop :=
  ∀ (a b : nat) x y, (a ≤ b)%nat → l !! a = Some x → l !! b = Some y → x ≤ y.

(** A matrix of three rows, the second one without entries. *)
Definition ex_matrix : CSRMatrix.t :=
  {| CSRMatrix.values := [2; 3; 1]%float; CSRMatrix.colIndex := [1; 2; 0];
     CSRMatrix.rowIndex := [0; 2; 2; 3]; CSRMatrix.numRows := 3 |}.

(** Three transactions among the five nodes of [main]. *)
Definition tx_edges : list (Z * (Z * float)) :=
  [(2, (0, 1%float)); (0, (1, 2%float)); (0, (2, 3%float))].


(** * Properties *)

(** ** Vectors *)

Section vector_facts.
Context {A : Type}.
Implicit Types (v : list A) (i : Z) (x : A).

Lemma vget_Some v i x :
  vget v i = Some x ↔ 0 ≤ i ∧ v !! Z.to_nat i = Some x.
Proof. unfold vget. case_bool_decide; [tauto|]. split; [done|tauto]. Qed.

Lemma vget_lookup v (n : nat) : vget v (Z.of_nat n) = v !! n.
Proof.
  unfold vget. rewrite bool_decide_eq_true_2 by lia. by rewrite Nat2Z.id.
Qed.

Lemma vget_in_range v i x : vget v i = Some x → 0 ≤ i < Z.of_nat (length v).
Proof.
  rewrite vget_Some. intros [? Hl]. apply lookup_lt_Some in Hl. lia.
Qed.

Lemma vget_is_Some v i : 0 ≤ i < Z.of_nat (length v) → is_Some (vget v i).
Proof.
  intros ?. unfold vget. rewrite bool_decide_eq_true_2 by lia.
  apply lookup_lt_is_Some. lia.
Qed.

Lemma vset_Some v i x v' :
  vset v i x = Some v' ↔
  0 ≤ i < Z.of_nat (length v) ∧ v' = <[Z.to_nat i := x]> v.
Proof.
  unfold vset. case_bool_decide.
  - split; [by intros [= <-]|by intros [_ ->]].
  - split; [done|tauto].
Qed.

Lemma vset_in_range v i x :
  0 ≤ i < Z.of_nat (length v) → vset v i x = Some (<[Z.to_nat i := x]> v).
Proof. intros ?. unfold vset. by rewrite bool_decide_eq_true_2. Qed.

Lemma vset_length v i x v' : vset v i x = Some v' → length v' = length v.
Proof. rewrite vset_Some. intros [_ ->]. by rewrite length_insert. Qed.

Lemma vget_vset v i j x v' :
  vset v i x = Some v' →
  vget v' j = if bool_decide (j = i) then Some x else vget v j.
Proof.
  rewrite vset_Some. intros [Hi ->]. unfold vget.
  destruct (decide (j = i)) as [->|Hne].
  - rewrite !bool_decide_eq_true_2 by lia.
    apply list_lookup_insert_eq. lia.
  - rewrite (bool_decide_eq_false_2 (j = i)) by done.
    case_bool_decide; [|done].
    apply list_lookup_insert_ne. lia.
Qed.

Lemma vget_insert v i j x :
  0 ≤ i < Z.of_nat (length v) →
  vget (<[Z.to_nat i := x]> v) j
  = if bool_decide (j = i) then Some x else vget v j.
Proof. intros Hi. apply vget_vset. by apply vset_in_range. Qed.

Lemma valloc_Some n x v :
  valloc n x = Some v ↔ 0 ≤ n ∧ v = replicate (Z.to_nat n) x.
Proof.
  unfold valloc. case_bool_decide.
  - split; [by intros [= <-]|by intros [_ ->]].
  - split; [done|tauto].
Qed.

Lemma vget_replicate (n : nat) x i :
  0 ≤ i < Z.of_nat n → vget (replicate n x) i = Some x.
Proof.
  intros ?. unfold vget. rewrite bool_decide_eq_true_2 by lia.
  apply lookup_replicate_2. lia.
Qed.
End vector_facts.

(** ** Loop rules *)

Section loop_rules.
Context {St : Type}.
Implicit Types (body : Z → St → option St) (s : St).

Lemma for_iter_inv (I : Z → St → Prop) body n i s :
  I i s →
  (∀ j t, i ≤ j < i + Z.of_nat n → I j t →
          ∃ t', body j t = Some t' ∧ I (j + 1) t') →
  ∃ s', for_iter n i body s = Some s' ∧ I (i + Z.of_nat n) s'.
Proof.
  revert i s. induction n as [|n IH]; intros i s Hi Hstep.
  - exists s. split; [done|]. by replace (i + Z.of_nat 0) with i by lia.
  - destruct (Hstep i s) as (t & Hb & Ht); [lia|done|].
    destruct (IH (i + 1) t) as (s' & Hs' & HI); [done| |].
    + intros j u ? ?. apply Hstep; [lia|done].
    + exists s'. simpl. rewrite Hb. simpl. split; [done|].
      by replace (i + Z.of_nat (S n)) with (i + 1 + Z.of_nat n) by lia.
Qed.

(** Total correctness of a counting loop from an invariant. *)
Lemma for_range_inv (I : Z → St → Prop) lo hi body s :
  lo ≤ hi → I lo s →
  (∀ j t, lo ≤ j < hi → I j t → ∃ t', body j t = Some t' ∧ I (j + 1) t') →
  ∃ s', for_range lo hi body s = Some s' ∧ I hi s'.
Proof.
  intros Hle Hlo Hstep. unfold for_range.
  destruct (for_iter_inv I body (Z.to_nat (hi - lo)) lo s) as (s' & ? & HI);
    [done| |].
  - intros j t ? ?. apply Hstep; [lia|done].
  - exists s'. split; [done|].
    by replace (lo + Z.of_nat (Z.to_nat (hi - lo))) with hi in HI by lia.
Qed.

Lemma for_iter_post (I : Z → St → Prop) body n i s s' :
  for_iter n i body s = Some s' →
  I i s →
  (∀ j t t', i ≤ j < i + Z.of_nat n → I j t → body j t = Some t' →
             I (j + 1) t') →
  I (i + Z.of_nat n) s'.
Proof.
  revert i s. induction n as [|n IH]; intros i s Hrun Hi Hstep.
  - simplify_eq/=. by replace (i + Z.of_nat 0) with i by lia.
  - simpl in Hrun. destruct (body i s) as [t|] eqn:Hb; [|done].
    simpl in Hrun. replace (i + Z.of_nat (S n)) with (i + 1 + Z.of_nat n) by lia.
    apply (IH (i + 1) t); [done| |].
    + apply (Hstep i s); [lia|done|done].
    + intros j u u' ? ? ?. apply (Hstep j u); [lia|done|done].
Qed.

(** Partial correctness of a counting loop from an invariant. *)
Lemma for_range_post (I : Z → St → Prop) lo hi body s s' :
  for_range lo hi body s = Some s' →
  lo ≤ hi → I lo s →
  (∀ j t t', lo ≤ j < hi → I j t → body j t = Some t' → I (j + 1) t') →
  I hi s'.
Proof.
  intros Hrun Hle Hlo Hstep. unfold for_range in Hrun.
  replace hi with (lo + Z.of_nat (Z.to_nat (hi - lo))) at 1 by lia.
  apply (for_iter_post I body _ lo s s'); [done|done|].
  intros j t t' ? ? ?. apply (Hstep j t); [lia|done|done].
Qed.

Lemma for_range_empty lo hi body s : hi ≤ lo → for_range lo hi body s = Some s.
Proof.
  intros ?. unfold for_range. by replace (Z.to_nat (hi - lo)) with O by lia.
Qed.

Lemma for_each_opt_inv {X : Type} (I : list X → St → Prop)
  (body : St → X → option St) (xs : list X) s :
  I [] s →
  (∀ done x t, (∃ rest, xs = done ++ x :: rest) → I done t →
               ∃ t', body t x = Some t' ∧ I (done ++ [x]) t') →
  ∃ s', for_each_opt xs body s = Some s' ∧ I xs s'.
Proof.
  intros H0 Hstep.
  assert (∀ todo done t, xs = done ++ todo → I done t →
            ∃ s', for_each_opt todo body t = Some s' ∧ I xs s') as Hgen.
  { induction todo as [|x todo IH]; intros done t Hxs HI.
    - exists t. rewrite app_nil_r in Hxs. by subst.
    - destruct (Hstep done x t) as (t' & Hb & Ht'); [by eexists|done|].
      destruct (IH (done ++ [x]) t') as (s' & ? & ?);
        [by rewrite <-app_assoc|done|].
      exists s'. simpl. rewrite Hb. by simpl. }
  by apply (Hgen xs [] s).
Qed.
End loop_rules.

(** ** The node mapper *)

Lemma new_mapper_ok : mapper_ok new_mapper.
Proof. apply map_Forall_empty. Qed.

Lemma getId_ok name m id m' :
  mapper_ok m → getId name m = (id, m') →
  mapper_ok m' ∧ 0 ≤ id < getNumNodes m' ∧ getNumNodes m ≤ getNumNodes m'.
Proof.
  unfold getId, mapper_ok, getNumNodes. intros Hok Hget.
  destruct (name_to_id m !! name) as [id0|] eqn:Hl; simplify_eq/=.
  - split; [done|]. split; [|lia]. by apply (Hok name).
  - rewrite length_app. simpl. split; [|lia].
    apply map_Forall_insert_2; [lia|].
    intros k x Hk. specialize (Hok k x Hk). simpl in Hok. lia.
Qed.

(** ** The reading loop *)

Lemma edge_ok_mono N N' e : N ≤ N' → edge_ok N e → edge_ok N' e.
Proof. unfold edge_ok. lia. Qed.

Lemma read_line_spec acc m l edges m' :
  mapper_ok m → Forall (edge_ok (getNumNodes m)) acc →
  read_line (acc, m) l = (edges, m') →
  mapper_ok m' ∧ getNumNodes m ≤ getNumNodes m' ∧
  Forall (edge_ok (getNumNodes m')) edges ∧
  e_w <$> edges = (e_w <$> acc) ++ [line_weight l].
Proof.
  intros Hok Hacc. unfold read_line.
  destruct (getId (u_str l) m) as [u m1] eqn:Hu.
  destruct (getId (v_str l) m1) as [v m2] eqn:Hv.
  intros [= <- <-].
  destruct (getId_ok _ _ _ _ Hok Hu) as (Hok1 & Hur & Hle1).
  destruct (getId_ok _ _ _ _ Hok1 Hv) as (Hok2 & Hvr & Hle2).
  split; [done|]. split; [lia|]. split.
  - apply Forall_app. split.
    + eapply Forall_impl; [done|]. intros e. apply edge_ok_mono. lia.
    + apply Forall_singleton. unfold edge_ok. simpl. lia.
  - by rewrite fmap_app.
Qed.

Lemma read_lines_spec lines acc m edges m' :
  mapper_ok m → Forall (edge_ok (getNumNodes m)) acc →
  for_each lines read_line (acc, m) = (edges, m') →
  mapper_ok m' ∧ getNumNodes m ≤ getNumNodes m' ∧
  Forall (edge_ok (getNumNodes m')) edges ∧
  e_w <$> edges = (e_w <$> acc) ++ (line_weight <$> lines).
Proof.
  unfold for_each. revert acc m.
  induction lines as [|l lines IH]; intros acc m Hok Hacc Hrun.
  - simplify_eq/=. rewrite app_nil_r. split_and!; [done|lia|done|done].
  - cbn [fold_left] in Hrun.
    destruct (read_line (acc, m) l) as [acc1 m1] eqn:Hl.
    destruct (read_line_spec _ _ _ _ _ Hok Hacc Hl) as (Hok1 & Hle1 & Hacc1 & Hw1).
    destruct (IH _ _ Hok1 Hacc1 Hrun) as (Hok' & Hle' & Hedges & Hw).
    split_and!; [done|lia|done|].
    rewrite Hw, Hw1, <-app_assoc. done.
Qed.

(** ** The adjacency list *)

Lemma row_of_snoc edges e u :
  row_of (edges ++ [e]) u =
  if decide (e_u e = u) then row_of edges u ++ [(e_v e, e_w e)]
  else row_of edges u.
Proof.
  unfold row_of. rewrite filter_app, fmap_app.
  rewrite filter_cons, filter_nil.
  destruct (decide (e_u e = u)); [done|]. simpl. by rewrite app_nil_r.
Qed.

Lemma length_adj_rows N edges : length (adj_rows N edges) = Z.to_nat N.
Proof. unfold adj_rows. by rewrite length_fmap, length_seqZ. Qed.

Lemma vget_adj_rows N edges u :
  0 ≤ u < N → vget (adj_rows N edges) u = Some (row_of edges u).
Proof.
  intros ?. unfold vget, adj_rows. rewrite bool_decide_eq_true_2 by lia.
  rewrite list_lookup_fmap, lookup_seqZ_lt by lia. simpl.
  f_equal. f_equal. lia.
Qed.

Lemma adj_rows_snoc N edges e :
  0 ≤ e_u e < N →
  vset (adj_rows N edges) (e_u e) (row_of edges (e_u e) ++ [(e_v e, e_w e)])
  = Some (adj_rows N (edges ++ [e])).
Proof.
  intros Hu. rewrite vset_in_range by (rewrite length_adj_rows; lia).
  f_equal. apply list_eq. intros i.
  destruct (decide (i < Z.to_nat N)%nat) as [Hi|Hi].
  - rewrite <-(vget_lookup (adj_rows N (edges ++ [e]))).
    rewrite vget_adj_rows, row_of_snoc by lia.
    destruct (decide (e_u e = Z.of_nat i)) as [Heq|Hne].
    + rewrite Heq, Nat2Z.id. rewrite list_lookup_insert_eq; [done|].
      rewrite length_adj_rows. lia.
    + rewrite list_lookup_insert_ne by lia.
      rewrite <-vget_lookup. by rewrite vget_adj_rows by lia.
  - rewrite !lookup_ge_None_2; [done| |].
    + rewrite length_adj_rows. lia.
    + rewrite length_insert, length_adj_rows. lia.
Qed.

Lemma build_adj_spec N edges :
  0 ≤ N → Forall (λ e, 0 ≤ e_u e < N) edges →
  build_adj N edges = Some (adj_rows N edges).
Proof.
  intros HN Hedges. unfold build_adj, valloc.
  rewrite bool_decide_eq_true_2 by done. simpl.
  destruct (for_each_opt_inv (λ done adj, adj = adj_rows N done)
    (λ adj e, row ← vget adj (e_u e); vset adj (e_u e) (row ++ [(e_v e, e_w e)]))
    edges (replicate (Z.to_nat N) [])) as (adj & Hrun & ->); [| |done].
  - unfold adj_rows. apply list_eq. intros i.
    rewrite list_lookup_fmap.
    destruct (decide (i < Z.to_nat N)%nat).
    + rewrite lookup_replicate_2, lookup_seqZ_lt by lia. done.
    + rewrite lookup_ge_None_2, lookup_seqZ_ge; [done|lia|].
      rewrite length_replicate. lia.
  - intros done e adj [rest ->] ->.
    rewrite Forall_app, Forall_cons in Hedges. destruct Hedges as (_ & Hu & _).
    rewrite vget_adj_rows by done. simpl.
    exists (adj_rows N (done ++ [e])). split; [|done].
    by apply adj_rows_snoc.
Qed.

(** ** The conversion to CSR *)

Lemma fill_row_spec nbrs cols ws s c :
  fill_row nbrs (cols, ws, s, c) =
  (cols ++ nbrs.*1, ws ++ nbrs.*2, fold_left PrimFloat.add nbrs.*2 s,
   c + Z.of_nat (length nbrs)).
Proof.
  unfold fill_row, for_each. revert cols ws s c.
  induction nbrs as [|[v w] nbrs IH]; intros cols ws s c.
  - simpl. rewrite !app_nil_r. f_equal. lia.
  - cbn [fold_left]. rewrite IH. simpl. rewrite <-!app_assoc. simpl.
    f_equal. lia.
Qed.

Lemma offset_succ adj u row :
  vget adj u = Some row →
  offset adj (u + 1) = offset adj u + Z.of_nat (length row).
Proof.
  rewrite vget_Some. intros [Hu Hl]. unfold offset.
  replace (Z.to_nat (u + 1)) with (S (Z.to_nat u)) by lia.
  rewrite (take_S_r _ _ _ Hl), concat_app, length_app. simpl.
  rewrite app_nil_r. lia.
Qed.

Lemma offset_all adj :
  offset adj (Z.of_nat (length adj)) = Z.of_nat (length (concat adj)).
Proof. unfold offset. by rewrite Nat2Z.id, firstn_all. Qed.

Lemma take_succ_fmap_concat {A B : Type} (f : A → list B) (l : list A) i x :
  l !! i = Some x →
  concat (f <$> take (S i) l) = concat (f <$> take i l) ++ f x.
Proof.
  intros Hl. rewrite (take_S_r _ _ _ Hl), fmap_app, concat_app. simpl.
  by rewrite app_nil_r.
Qed.

Lemma convert_row_inv adj E i st :
  0 ≤ i < Z.of_nat (length adj) → csr_inv adj E i st →
  ∃ st', convert_row adj i st = Some st' ∧ csr_inv adj E (i + 1) st'.
Proof.
  intros Hi. destruct st as [g cursor].
  intros (Hn & He & Hrl & Hol & Hrow & Hcur & Hcol & Hew & Hows).
  unfold convert_row.
  destruct (vget_is_Some adj i) as [row Hrowi]; [lia|].
  rewrite vset_in_range by lia. simpl. rewrite Hrowi. simpl.
  rewrite fill_row_spec, vset_in_range by lia. simpl.
  eexists. split; [done|]. simpl.
  pose proof Hrowi as Hrowi'. apply vget_Some in Hrowi' as [_ Hl].
  replace (Z.to_nat (i + 1)) with (S (Z.to_nat i)) by lia.
  split_and!; try done.
  - by rewrite length_insert.
  - by rewrite length_insert.
  - intros u Hu. rewrite vget_insert by lia.
    case_bool_decide; [by subst|]. apply Hrow. lia.
  - rewrite Hcur. symmetry. by apply offset_succ.
  - by rewrite (take_succ_fmap_concat _ _ _ _ Hl), Hcol.
  - by rewrite (take_succ_fmap_concat _ _ _ _ Hl), Hew.
  - intros u row' Hu Hrow'. rewrite vget_insert by lia.
    case_bool_decide; [subst; by simplify_eq|].
    apply Hows; [lia|done].
Qed.

Lemma adj_to_csr_spec adj E :
  ∃ g, adj_to_csr (Z.of_nat (length adj)) E adj = Some g ∧ csr_of adj E g.
Proof.
  unfold adj_to_csr, CSRGraph_new, valloc.
  rewrite !bool_decide_eq_true_2 by lia. simpl.
  set (g0 := {| num_nodes := Z.of_nat (length adj); num_edges := E;
                row_ptr := replicate (Z.to_nat (Z.of_nat (length adj) + 1)) 0;
                col_indices := []; edge_weights := [];
                out_weight_sum :=
                  replicate (Z.to_nat (Z.of_nat (length adj))) 0%float |}).
  destruct (for_range_inv (csr_inv adj E) 0 (Z.of_nat (length adj))
              (convert_row adj) (g0, 0)) as ([g cursor] & Hrun & Hinv).
  - lia.
  - unfold csr_inv, g0. simpl. rewrite !length_replicate.
    split_and!; try done; try lia.
  - intros j t ? ?. by apply convert_row_inv.
  - rewrite Hrun. simpl.
    destruct Hinv as (Hn & He & Hrl & Hol & Hrow & Hcur & Hcol & Hew & Hows).
    rewrite vset_in_range by lia. simpl.
    eexists. split; [done|].
    rewrite Nat2Z.id, firstn_all in Hcol, Hew.
    constructor; simpl; try done.
    + by rewrite length_insert.
    + intros u Hu. rewrite vget_insert by lia.
      case_bool_decide; [by subst|]. apply Hrow. lia.
    + intros u row Hu. apply Hows; [|done].
      by apply vget_in_range in Hu.
Qed.

(** *** Rows, slices and permutations *)

Lemma concat_fmap_fst {A B : Type} (l : list (list (A * B))) :
  concat ((λ row, row.*1) <$> l) = (concat l).*1.
Proof.
  induction l as [|row l IH]; [done|].
  rewrite fmap_cons. cbn [concat]. by rewrite fmap_app, IH.
Qed.

Lemma concat_fmap_snd {A B : Type} (l : list (list (A * B))) :
  concat ((λ row, row.*2) <$> l) = (concat l).*2.
Proof.
  induction l as [|row l IH]; [done|].
  rewrite fmap_cons. cbn [concat]. by rewrite fmap_app, IH.
Qed.

Lemma slice_concat {A : Type} (l : list (list A)) (i : nat) (x : list A) :
  l !! i = Some x →
  slice (Z.of_nat (length (concat (take i l))))
        (Z.of_nat (length (concat (take (S i) l)))) (concat l) = x.
Proof.
  intros Hl. unfold slice.
  assert (concat l = concat (take i l) ++ x ++ concat (drop (S i) l)) as ->.
  { rewrite <-(take_drop_middle l i x Hl) at 1. by rewrite concat_app. }
  rewrite (take_S_r _ _ _ Hl), concat_app, length_app. simpl.
  rewrite app_nil_r, Nat2Z.id, drop_app_length.
  replace (Z.to_nat _) with (length x) by lia.
  by rewrite take_app_length.
Qed.

Lemma offset_mono adj i j : 0 ≤ i ≤ j → offset adj i ≤ offset adj j.
Proof.
  intros ?. unfold offset.
  rewrite <-(take_drop (Z.to_nat i) (take (Z.to_nat j) adj)).
  rewrite take_take, concat_app, length_app.
  replace (Z.to_nat i `min` Z.to_nat j)%nat with (Z.to_nat i) by lia. lia.
Qed.

Lemma filter_split_perm {A : Type} (P Q R : A → Prop)
  `{!∀ x, Decision (P x), !∀ x, Decision (Q x), !∀ x, Decision (R x)}
  (l : list A) :
  (∀ x, R x ↔ P x ∨ Q x) → (∀ x, P x → Q x → False) →
  filter R l ≡ₚ filter P l ++ filter Q l.
Proof.
  intros HR Hdisj. induction l as [|x l IH]; [done|].
  rewrite !filter_cons.
  destruct (decide (P x)) as [HP|HP], (decide (Q x)) as [HQ|HQ].
  - destruct (Hdisj x HP HQ).
  - rewrite decide_True by (apply HR; auto). simpl. by rewrite IH.
  - rewrite decide_True by (apply HR; auto).
    rewrite IH. apply Permutation_middle.
  - rewrite decide_False; [done|]. rewrite HR. tauto.
Qed.

Lemma filter_all {A : Type} (P : A → Prop) `{!∀ x, Decision (P x)}
  (l : list A) : Forall P l → filter P l = l.
Proof.
  induction 1 as [|x l HP _ IH]; [done|].
  by rewrite filter_cons, decide_True, IH.
Qed.

Lemma concat_rows_perm edges (n : nat) :
  concat (filter_src edges <$> seqZ 0 (Z.of_nat n))
  ≡ₚ filter (λ e, 0 ≤ e_u e < Z.of_nat n) edges.
Proof.
  induction n as [|n IH].
  - simpl. symmetry. apply Permutation_nil_r.
    induction edges as [|e edges IHe]; [done|].
    rewrite filter_cons, decide_False by lia. done.
  - replace (Z.of_nat (S n)) with (Z.of_nat n + 1) by lia.
    rewrite seqZ_app by lia. rewrite fmap_app, concat_app, IH.
    rewrite (seqZ_cons _ 1), seqZ_nil by lia. simpl. rewrite app_nil_r.
    symmetry. apply (filter_split_perm _ (λ e, e_u e = Z.of_nat n)).
    + intros e. lia.
    + intros e. lia.
Qed.

Lemma concat_adj_rows N edges :
  0 ≤ N → Forall (λ e, 0 ≤ e_u e < N) edges →
  concat (adj_rows N edges) ≡ₚ (λ e, (e_v e, e_w e)) <$> edges.
Proof.
  intros HN Hedges. unfold adj_rows.
  assert (∀ us, concat (row_of edges <$> us)
                = (λ e, (e_v e, e_w e)) <$> concat (filter_src edges <$> us))
    as ->.
  { induction us as [|u us IH]; [done|].
    rewrite !fmap_cons. cbn [concat]. by rewrite fmap_app, IH. }
  replace N with (Z.of_nat (Z.to_nat N)) by lia.
  rewrite concat_rows_perm, filter_all; [done|].
  eapply Forall_impl; [done|]. intros e. simpl. lia.
Qed.

(** *** The loader as a whole *)

Lemma loadGraphFromFile_spec lines m :
  mapper_ok m →
  ∃ g m' edges,
    loadGraphFromFile lines m = Some (g, m') ∧
    for_each lines read_line ([], m) = (edges, m') ∧
    mapper_ok m' ∧
    Forall (edge_ok (getNumNodes m')) edges ∧
    e_w <$> edges = line_weight <$> lines ∧
    length (adj_rows (getNumNodes m') edges) = length (id_to_name m') ∧
    csr_of (adj_rows (getNumNodes m') edges) (Z.of_nat (length edges)) g.
Proof.
  intros Hok. unfold loadGraphFromFile.
  destruct (for_each lines read_line ([], m)) as [edges m'] eqn:Hread.
  destruct (read_lines_spec _ _ _ _ _ Hok (Forall_nil_2 _) Hread)
    as (Hok' & _ & Hedges & Hw).
  assert (0 ≤ getNumNodes m') as HN by (unfold getNumNodes; lia).
  rewrite build_adj_spec; [|done|].
  2:{ eapply Forall_impl; [done|]. by intros e [? _]. }
  simpl.
  assert (length (adj_rows (getNumNodes m') edges) = length (id_to_name m'))
    as Hlen.
  { rewrite length_adj_rows. unfold getNumNodes. lia. }
  destruct (adj_to_csr_spec (adj_rows (getNumNodes m') edges)
              (Z.of_nat (length edges))) as (g & Hg & Hcsr).
  rewrite Hlen in Hg. fold (getNumNodes m') in Hg. rewrite Hg. simpl.
  by exists g, m', edges.
Qed.

Lemma csr_of_invariant adj E g :
  csr_of adj E g → Z.of_nat (length (concat adj)) = E → csr_invariant g.
Proof.
  intros [Hn He Hrl Hrow Hcol Hew Hol Hows] HE.
  assert (∀ i x, vget (row_ptr g) i = Some x →
                 0 ≤ i ≤ Z.of_nat (length adj) ∧ x = offset adj i) as Hrp.
  { intros i x Hi. pose proof (vget_in_range _ _ _ Hi) as Hr.
    rewrite Hrl in Hr. rewrite Hrow in Hi by lia. split; [lia|congruence]. }
  constructor.
  - lia.
  - intros i j x y Hij Hx Hy.
    apply Hrp in Hx as [? ->]. apply Hrp in Hy as [? ->].
    apply offset_mono. lia.
  - by rewrite Hrow by lia.
  - rewrite Hn, Hrow by lia. by rewrite offset_all, HE, He.
  - rewrite Hcol, Hew, concat_fmap_fst, concat_fmap_snd, !length_fmap. lia.
  - intros u Hu. rewrite Hn in Hu.
    destruct (vget_is_Some adj u) as [row Hrowu]; [lia|].
    exists (offset adj u), (offset adj (u + 1)).
    rewrite !Hrow by lia. split; [done|]. split; [done|].
    rewrite (Hows u row Hrowu). do 2 f_equal.
    apply vget_Some in Hrowu as [_ Hl].
    assert (((λ row : list (Z * float), row.*2) <$> adj) !! Z.to_nat u
            = Some row.*2) as Hl2.
    { by rewrite list_lookup_fmap, Hl. }
    apply slice_concat in Hl2. rewrite <-!fmap_take in Hl2.
    rewrite !concat_fmap_snd, !length_fmap in Hl2.
    unfold offset. replace (Z.to_nat (u + 1)) with (S (Z.to_nat u)) by lia.
    by rewrite Hew, concat_fmap_snd, Hl2.
Qed.

Lemma csr_of_wf adj E g :
  csr_of adj E g →
  Forall (λ vw, 0 ≤ vw.1 < Z.of_nat (length adj)) (concat adj) →
  wf_graph g.
Proof.
  intros [Hn He Hrl Hrow Hcol Hew Hol Hows] Hv.
  unfold wf_graph. rewrite Hn.
  split_and!; try lia.
  - rewrite Hcol, Hew, concat_fmap_fst, concat_fmap_snd, !length_fmap. done.
  - apply Forall_lookup_2. intros i x Hi.
    pose proof (lookup_lt_Some _ _ _ Hi) as Hlt.
    rewrite <-vget_lookup, Hrow in Hi by lia. simplify_eq.
    rewrite Hcol, concat_fmap_fst, length_fmap.
    rewrite <-offset_all.
    split; [unfold offset; lia|]. apply offset_mono. lia.
  - rewrite Hcol, concat_fmap_fst. by apply Forall_fmap.
Qed.

(** Every graph the loader builds is well formed: its ids come from the
    mapper. *)
Lemma loadGraphFromFile_wf lines m g m' :
  mapper_ok m → loadGraphFromFile lines m = Some (g, m') → wf_graph g.
Proof.
  intros Hok Hload.
  destruct (loadGraphFromFile_spec lines m Hok)
    as (g0 & m0 & edges & Hl & _ & _ & Hedges & _ & Hlen & Hcsr).
  rewrite Hl in Hload. simplify_eq.
  apply (csr_of_wf _ _ _ Hcsr).
  rewrite Hlen. fold (getNumNodes m').
  assert (0 ≤ getNumNodes m') as HN by (unfold getNumNodes; lia).
  rewrite concat_adj_rows; [|done|].
  - apply Forall_fmap. eapply Forall_impl; [done|]. by intros e [_ ?].
  - eapply Forall_impl; [done|]. by intros e [? _].
Qed.

(** The edges of the built graph, destination and weight, are those of
    the input, up to the row-major reordering. *)
Lemma loader_keeps_edges lines m :
  mapper_ok m →
  ∃ g m' edges,
    loadGraphFromFile lines m = Some (g, m') ∧
    for_each lines read_line ([], m) = (edges, m') ∧
    e_w <$> edges = line_weight <$> lines ∧
    zip (col_indices g) (edge_weights g) ≡ₚ (λ e, (e_v e, e_w e)) <$> edges.
Proof.
  intros Hok.
  destruct (loadGraphFromFile_spec lines m Hok)
    as (g & m' & edges & Hl & Hread & _ & Hedges & Hw & Hlen & Hcsr).
  exists g, m', edges. split_and!; try done.
  rewrite (csr_cols _ _ _ Hcsr), (csr_weights _ _ _ Hcsr).
  rewrite concat_fmap_fst, concat_fmap_snd, zip_fst_snd.
  apply concat_adj_rows; [unfold getNumNodes; lia|].
  eapply Forall_impl; [done|]. by intros e [? _].
Qed.

(** *** Weight sanitization *)

Lemma abs_eqb_0 w : (abs w =? 0)%float = (w =? 0)%float.
Proof.
  rewrite !FloatAxioms.eqb_spec, abs_spec.
  by destruct (Prim2SF w) as [[]|[]| |[] ? ?].
Qed.

Lemma line_weight_sanitized l :
  line_weight l = match w_in l with
                  | Some w => sanitized w
                  | None => 1%float
                  end.
Proof.
  unfold line_weight, sanitized. destruct (w_in l) as [w|]; [|done].
  by rewrite abs_eqb_0.
Qed.

Lemma sanitized_pos w : is_nan w = false → (0 <? sanitized w)%float = true.
Proof.
  unfold sanitized, is_nan. intros Hnan.
  destruct (w =? 0)%float eqn:H0; [done|].
  rewrite FloatAxioms.eqb_spec in Hnan, H0. rewrite ltb_spec, abs_spec.
  by destruct (Prim2SF w) as [[]|[]| |[] ? ?].
Qed.

Lemma line_weight_pos l : parsed_weight l → (0 <? line_weight l)%float = true.
Proof.
  rewrite line_weight_sanitized. unfold parsed_weight.
  destruct (w_in l); [apply sanitized_pos|done].
Qed.

(** C4. The graph the loader builds from any edge list satisfies the CSR
    invariant: [row_ptr] has [N + 1] entries, is non-decreasing, starts at
    0 and ends at the number of edges [E], and [out_weight_sum[u]] is the
    sum, in storage order, of [edge_weights] over
    [row_ptr[u] .. row_ptr[u+1]), for every node [u]. The loader never
    fails on the way. *)
Theorem loader_builds_csr_invariant (lines : list edge_line) (m : NodeMapper) :
  mapper_ok m →
  ∃ g m', loadGraphFromFile lines m = Some (g, m') ∧
          num_nodes g = getNumNodes m' ∧
          num_edges g = Z.of_nat (length lines) ∧
          csr_invariant g.
Proof.
  intros Hok.
  destruct (loadGraphFromFile_spec lines m Hok)
    as (g & m' & edges & Hl & _ & _ & Hedges & Hw & Hlen & Hcsr).
  assert (length edges = length lines) as HE.
  { by rewrite <-(length_fmap e_w), Hw, length_fmap. }
  exists g, m'. split; [done|]. split; [|split].
  - rewrite (csr_nodes _ _ _ Hcsr), Hlen. done.
  - by rewrite (csr_edges _ _ _ Hcsr), HE.
  - apply (csr_of_invariant _ _ _ Hcsr).
    rewrite concat_adj_rows, length_fmap; [done|unfold getNumNodes; lia|].
    eapply Forall_impl; [done|]. by intros e [? _].
Qed.

Lemma loader_builds_csr_invariant_witness :
  mapper_ok new_mapper ∧
  ∃ g m', loadGraphFromFile ex_lines new_mapper = Some (g, m') ∧
          num_nodes g = getNumNodes m' ∧
          num_edges g = Z.of_nat (length ex_lines) ∧
          csr_invariant g.
Proof.
  split; [apply new_mapper_ok|].
  apply (loader_builds_csr_invariant ex_lines new_mapper), new_mapper_ok.
Defined.

(** ** The personalization vector *)

Lemma vget_ext {A : Type} (l1 l2 : list A) :
  length l1 = length l2 →
  (∀ i, 0 ≤ i < Z.of_nat (length l1) → vget l1 i = vget l2 i) →
  l1 = l2.
Proof.
  intros Hlen Hget. apply list_eq. intros i.
  destruct (decide (i < length l1)%nat).
  - rewrite <-!vget_lookup. apply Hget. lia.
  - rewrite !lookup_ge_None_2; [done|lia|lia].
Qed.

Lemma length_mark N mass marked : length (mark N mass marked) = Z.to_nat N.
Proof. unfold mark. by rewrite length_fmap, length_seqZ. Qed.

Lemma vget_mark N mass marked i :
  0 ≤ i < N →
  vget (mark N mass marked) i
  = Some (if bool_decide (i ∈ marked) then mass else 0%float).
Proof.
  intros ?. unfold vget, mark. rewrite bool_decide_eq_true_2 by lia.
  rewrite list_lookup_fmap, lookup_seqZ_lt by lia. simpl.
  by replace (0 + Z.of_nat (Z.to_nat i)) with i by lia.
Qed.

Lemma mark_nil N mass : mark N mass [] = replicate (Z.to_nat N) 0%float.
Proof.
  apply vget_ext.
  - by rewrite length_mark, length_replicate.
  - intros i. rewrite length_mark. intros ?.
    rewrite vget_mark, vget_replicate by lia.
    by rewrite bool_decide_eq_false_2 by apply not_elem_of_nil.
Qed.

Lemma mark_snoc N mass marked id :
  0 ≤ id →
  (if bool_decide (id < N) then vset (mark N mass marked) id mass
   else Some (mark N mass marked))
  = Some (mark N mass (marked ++ [id])).
Proof.
  intros Hid. case_bool_decide as HidN.
  - destruct (vset (mark N mass marked) id mass) as [l|] eqn:Hset.
    2:{ rewrite vset_in_range in Hset; [done|]. rewrite length_mark. lia. }
    f_equal. apply vget_ext.
    + by rewrite (vset_length _ _ _ _ Hset), !length_mark.
    + intros i. rewrite (vset_length _ _ _ _ Hset), length_mark. intros ?.
      rewrite (vget_vset _ _ _ _ _ Hset), !vget_mark by lia.
      case_bool_decide as Hi.
      * subst. rewrite bool_decide_eq_true_2; [done|].
        apply elem_of_app. right. by apply list_elem_of_singleton.
      * assert (bool_decide (i ∈ marked) = bool_decide (i ∈ marked ++ [id]))
          as ->; [|done].
        apply bool_decide_ext.
        rewrite elem_of_app, list_elem_of_singleton. tauto.
  - f_equal. apply vget_ext.
    + by rewrite !length_mark.
    + intros i. rewrite length_mark. intros ?.
      rewrite !vget_mark by lia.
      assert (bool_decide (i ∈ marked) = bool_decide (i ∈ marked ++ [id]))
        as ->; [|done].
      apply bool_decide_ext.
      rewrite elem_of_app, list_elem_of_singleton. split; [tauto|].
      intros [?| ->]; [done|lia].
Qed.

(** With seeds that are not negative, the personalization vector is built
    without a fault: a seed below [N] receives [1 / |seeds|], a seed from
    [N] on is skipped. *)
Lemma personalization_spec seeds N :
  0 ≤ N → Forall (λ id, 0 ≤ id) seeds →
  PPREngine.personalization seeds N = Some (mark N (seed_mass seeds) seeds).
Proof.
  intros HN Hseeds. unfold PPREngine.personalization, valloc.
  rewrite bool_decide_eq_true_2 by done. simpl.
  destruct seeds as [|id0 seeds0] eqn:Hs; [by rewrite mark_nil|].
  rewrite <-Hs in *. fold (seed_mass seeds).
  destruct (for_each_opt_inv
    (λ done p, p = mark N (seed_mass seeds) done)
    (λ p id, if bool_decide (id < N) then vset p id (seed_mass seeds)
             else Some p)
    seeds (replicate (Z.to_nat N) 0%float)) as (p & Hrun & ->); [| |done].
  - by rewrite mark_nil.
  - intros done id p [rest Hsplit] ->.
    rewrite Hsplit, Forall_app, Forall_cons in Hseeds.
    destruct Hseeds as (_ & Hid & _).
    eexists. split; [by apply mark_snoc|done].
Qed.

(** ** One sweep of the power iteration *)

Lemma fsum_snoc xs x : fsum (xs ++ [x]) = (fsum xs + x)%float.
Proof. unfold fsum. by rewrite fold_left_app. Qed.

Lemma seqZ_snoc lo n : 0 ≤ n → seqZ lo (n + 1) = seqZ lo n ++ [lo + n].
Proof.
  intros ?. by rewrite seqZ_app by lia.
Qed.

Lemma omap_one {A B : Type} (f : A → option B) (x : A) :
  omap f [x] = match f x with Some y => [y] | None => [] end.
Proof. simpl. by destruct (f x). Qed.

Lemma received_app ps1 ps2 v x0 :
  received (ps1 ++ ps2) v x0 = received ps2 v (received ps1 v x0).
Proof. unfold received. by rewrite filter_app, fmap_app, fold_left_app. Qed.

Lemma received_one v' c v x0 :
  received [(v', c)] v x0
  = if bool_decide (v = v') then (x0 + c)%float else x0.
Proof.
  unfold received. rewrite filter_cons, filter_nil. simpl.
  destruct (decide (v' = v)) as [->|Hne].
  - by rewrite bool_decide_eq_true_2.
  - by rewrite bool_decide_eq_false_2 by done.
Qed.

Lemma push_edge_edge_push g r u k r_new :
  PPREngine.push_edge g r u k r_new
  = '(v, c) ← edge_push g r u k;
    old ← vget r_new v;
    vset r_new v (old + c)%float.
Proof.
  unfold PPREngine.push_edge, edge_push.
  destruct (vget (col_indices g) k) as [v|]; [|done]. simpl.
  destruct (vget (edge_weights g) k) as [w|]; [|done]. simpl.
  destruct (vget r u) as [ru|]; simpl.
  - destruct (vget (out_weight_sum g) u) as [s|]; simpl; [done|].
    by destruct (vget r_new v).
  - by destruct (vget r_new v).
Qed.

Section sweep_facts.
Variables (g : CSRGraph) (alpha : float) (r : list float).
Hypothesis Hwf : wf_graph g.
Hypothesis Hr : length r = Z.to_nat (num_nodes g).

Lemma wf_row_bounds u lo :
  vget (row_ptr g) u = Some lo →
  0 ≤ lo ≤ Z.of_nat (length (col_indices g)).
Proof.
  destruct Hwf as (_ & _ & _ & _ & Hrp & _).
  rewrite vget_Some. intros [_ Hl].
  by apply (Forall_lookup_1 _ _ _ _ Hrp Hl).
Qed.

Lemma edge_push_is_Some u k :
  0 ≤ u < num_nodes g → 0 ≤ k < Z.of_nat (length (col_indices g)) →
  ∃ v c, edge_push g r u k = Some (v, c) ∧ 0 ≤ v < num_nodes g.
Proof.
  destruct Hwf as (HN & Hrl & Hol & Hel & Hrp & Hcol). intros Hu Hk.
  unfold edge_push.
  destruct (vget_is_Some (col_indices g) k) as [v Hv]; [lia|].
  destruct (vget_is_Some (edge_weights g) k) as [w Hw]; [lia|].
  destruct (vget_is_Some r u) as [ru Hru]; [lia|].
  destruct (vget_is_Some (out_weight_sum g) u) as [s Hs]; [lia|].
  rewrite Hv, Hw, Hru, Hs. simpl. eexists _, _. split; [done|].
  apply vget_Some in Hv as [_ Hv].
  by apply (Forall_lookup_1 _ _ _ _ Hcol Hv).
Qed.

(** The inner loop adds the pushes of [u] to the slots, in edge order. *)
Lemma push_edges_spec u lo hi r_new0 :
  length r_new0 = Z.to_nat (num_nodes g) →
  0 ≤ u < num_nodes g →
  0 ≤ lo → hi ≤ Z.of_nat (length (col_indices g)) →
  ∃ r_new,
    for_range lo hi (PPREngine.push_edge g r u) r_new0 = Some r_new ∧
    length r_new = Z.to_nat (num_nodes g) ∧
    ∀ v x0, vget r_new0 v = Some x0 →
            vget r_new v
            = Some (received (omap (edge_push g r u) (seqZ lo (hi - lo)))
                      v x0).
Proof.
  intros Hlen Hu Hlo Hhi.
  destruct (decide (hi ≤ lo)) as [Hle|Hlt].
  { exists r_new0. rewrite for_range_empty by done.
    rewrite seqZ_nil by lia. by split_and!. }
  destruct (for_range_inv
    (λ k r_new, length r_new = Z.to_nat (num_nodes g) ∧
       ∀ v x0, vget r_new0 v = Some x0 →
         vget r_new v
         = Some (received (omap (edge_push g r u) (seqZ lo (k - lo))) v x0))
    lo hi (PPREngine.push_edge g r u) r_new0) as (r_new & Hrun & Hinv);
    [lia| | |by exists r_new].
  - split; [done|]. intros v x0 Hv. by rewrite Z.sub_diag, seqZ_nil.
  - intros k r_new Hk [Hlen' Hslots].
    destruct (edge_push_is_Some u k) as (v' & c & Hpush & Hv'); [done|lia|].
    rewrite push_edge_edge_push, Hpush. simpl.
    destruct (vget_is_Some r_new0 v') as [x0' Hx0']; [lia|].
    rewrite (Hslots v' x0' Hx0'). simpl.
    destruct (vset r_new v' _) as [r_new'|] eqn:Hset.
    2:{ rewrite vset_in_range in Hset; [done|lia]. }
    exists r_new'. split; [done|]. split.
    + by rewrite (vset_length _ _ _ _ Hset).
    + intros v x0 Hv.
      replace (k + 1 - lo) with (k - lo + 1) by lia.
      rewrite seqZ_snoc, omap_app by lia.
      replace (lo + (k - lo)) with k by lia. simpl. rewrite Hpush.
      rewrite received_app, received_one, (vget_vset _ _ _ _ _ Hset).
      case_bool_decide; [|by apply Hslots].
      subst. by simplify_eq.
Qed.

Lemma pushes_succ u :
  0 ≤ u → pushes g r (u + 1) = pushes g r u ++ node_pushes g r u.
Proof.
  intros ?. unfold pushes. rewrite seqZ_snoc, fmap_app, concat_app by done.
  simpl. by rewrite app_nil_r.
Qed.

Lemma dead_mass_of_succ u :
  0 ≤ u →
  dead_mass_of g r (u + 1)
  = match (if has_out g u then None else vget r u) with
    | Some ru => (dead_mass_of g r u + ru)%float
    | None => dead_mass_of g r u
    end.
Proof.
  intros ?. unfold dead_mass_of.
  rewrite seqZ_snoc, omap_app, omap_one by done.
  replace (0 + u) with u by lia.
  destruct (if has_out g u then None else vget r u).
  - by rewrite fsum_snoc.
  - by rewrite app_nil_r.
Qed.

Lemma push_node_inv u st :
  0 ≤ u < num_nodes g → scatter_inv g r u st →
  ∃ st', PPREngine.push_node g r u st = Some st' ∧
         scatter_inv g r (u + 1) st'.
Proof.
  intros Hu. destruct st as [r_new dead]. intros (Hlen & Hdead & Hslots).
  simpl in *. pose proof Hwf as (HN & Hrl & Hol & Hel & Hrp & Hcol).
  unfold PPREngine.push_node.
  destruct (vget_is_Some (out_weight_sum g) u) as [s Hs]; [lia|].
  rewrite Hs. simpl.
  assert (has_out g u = (0 <? s)%float) as Hout.
  { unfold has_out. by rewrite Hs. }
  destruct (0 <? s)%float.
  - destruct (vget_is_Some (row_ptr g) u) as [lo Hlo]; [lia|].
    destruct (vget_is_Some (row_ptr g) (u + 1)) as [hi Hhi]; [lia|].
    rewrite Hlo, Hhi. simpl.
    destruct (push_edges_spec u lo hi r_new) as (r_new' & Hrun & Hlen' & Hs');
      [done|done|by apply (wf_row_bounds u)|by apply (wf_row_bounds (u + 1))|].
    rewrite Hrun. simpl. eexists. split; [done|].
    split; [done|]. split; simpl.
    + by rewrite dead_mass_of_succ, Hout by lia.
    + intros v Hv. rewrite (Hs' v _ (Hslots v Hv)).
      rewrite pushes_succ, received_app by lia.
      unfold node_pushes. by rewrite Hout, Hlo, Hhi.
  - destruct (vget_is_Some r u) as [ru Hru]; [lia|].
    rewrite Hru. simpl. eexists. split; [done|].
    split; [done|]. split; simpl.
    + by rewrite dead_mass_of_succ, Hout, Hru, Hdead by lia.
    + intros v Hv. rewrite pushes_succ, received_app by lia.
      unfold node_pushes. rewrite Hout. by apply Hslots.
Qed.

(** The scatter phase: every slot holds the pushes it received, added up
    in the order of the loop, and [dead_mass] the mass of the dangling
    nodes. *)
Lemma scatter_spec r_new0 :
  length r_new0 = Z.to_nat (num_nodes g) →
  ∃ sc,
    PPREngine.scatter g (num_nodes g) r (fill r_new0 0%float)
    = Some (sc, dead_mass_of g r (num_nodes g)) ∧
    length sc = Z.to_nat (num_nodes g) ∧
    ∀ v, 0 ≤ v < num_nodes g →
         vget sc v = Some (received (pushes g r (num_nodes g)) v 0%float).
Proof.
  intros Hlen. pose proof Hwf as (HN & _).
  destruct (for_range_inv (scatter_inv g r) 0 (num_nodes g)
              (PPREngine.push_node g r) (fill r_new0 0%float, 0%float))
    as ([sc dead] & Hrun & Hl & Hd & Hslots); [done| | |].
  - unfold scatter_inv, fill. simpl. rewrite length_replicate.
    split; [done|]. split; [done|]. intros v Hv.
    by rewrite vget_replicate by lia.
  - intros u st. apply push_node_inv.
  - simpl in *. subst dead. by exists sc.
Qed.

Lemma combine_node_inv sc p dead i st :
  length p = Z.to_nat (num_nodes g) →
  0 ≤ i < num_nodes g → combine_inv g alpha r sc p dead i st →
  ∃ st', PPREngine.combine_node alpha p r dead i st = Some st' ∧
         combine_inv g alpha r sc p dead (i + 1) st'.
Proof.
  intros Hp Hi. destruct st as [r_new diff].
  intros (Hlen & Hdiff & Hdone & Htodo). simpl in *.
  unfold PPREngine.combine_node.
  destruct (vget_is_Some r_new i) as [x Hx]; [lia|].
  destruct (vget_is_Some p i) as [p_i Hp_i]; [lia|].
  destruct (vget_is_Some r i) as [r_i Hr_i]; [lia|].
  rewrite Hx, Hp_i. simpl. rewrite Hr_i. simpl.
  destruct (vset r_new i _) as [r_new'|] eqn:Hset.
  2:{ rewrite vset_in_range in Hset; [done|lia]. }
  simpl. eexists. split; [done|].
  rewrite Htodo in Hx by lia.
  split; [|split; [|split]]; simpl.
  - by rewrite (vset_length _ _ _ _ Hset).
  - rewrite seqZ_snoc, omap_app, omap_one by lia.
    replace (0 + i) with i by lia.
    unfold l1_term at 2. rewrite Hx, Hp_i. simpl. rewrite Hr_i. simpl.
    by rewrite fsum_snoc, Hdiff.
  - intros j Hj. rewrite (vget_vset _ _ _ _ _ Hset).
    case_bool_decide; [subst; by eexists _, _|].
    apply Hdone. lia.
  - intros j Hj. rewrite (vget_vset _ _ _ _ _ Hset).
    rewrite bool_decide_eq_false_2 by lia. apply Htodo. lia.
Qed.

(** The combine phase: every node gets its combined value, and [diff]
    adds up the L1 terms in node order. *)
Lemma combine_spec sc p dead :
  length sc = Z.to_nat (num_nodes g) →
  length p = Z.to_nat (num_nodes g) →
  ∃ r',
    PPREngine.combine alpha (num_nodes g) p r sc dead
    = Some (r', fsum (omap (l1_term alpha sc p r dead)
                        (seqZ 0 (num_nodes g)))) ∧
    length r' = Z.to_nat (num_nodes g) ∧
    ∀ i, 0 ≤ i < num_nodes g →
         ∃ x p_i, vget sc i = Some x ∧ vget p i = Some p_i ∧
                  vget r' i = Some (PPREngine.combined alpha x p_i dead).
Proof.
  intros Hsc Hp. pose proof Hwf as (HN & _).
  destruct (for_range_inv (combine_inv g alpha r sc p dead) 0 (num_nodes g)
              (PPREngine.combine_node alpha p r dead) (sc, 0%float))
    as ([r' diff] & Hrun & Hl & Hd & Hdone & _); [done| | |].
  - by split_and!; simpl; [| |intros; lia|].
  - intros i st. by apply combine_node_inv.
  - simpl in *. subst diff. by exists r'.
Qed.
End sweep_facts.

Lemma sweep_spec g alpha p r r_new0 :
  wf_graph g →
  length r = Z.to_nat (num_nodes g) →
  length p = Z.to_nat (num_nodes g) →
  length r_new0 = Z.to_nat (num_nodes g) →
  ∃ sc r',
    let dead := dead_mass_of g r (num_nodes g) in
    PPREngine.scatter g (num_nodes g) r (fill r_new0 0%float)
    = Some (sc, dead) ∧
    (∀ v, 0 ≤ v < num_nodes g →
          vget sc v = Some (received (pushes g r (num_nodes g)) v 0%float)) ∧
    PPREngine.sweep g alpha (num_nodes g) p r r_new0
    = Some (r', fsum (omap (l1_term alpha sc p r dead)
                        (seqZ 0 (num_nodes g)))) ∧
    length r' = Z.to_nat (num_nodes g) ∧
    ∀ i, 0 ≤ i < num_nodes g →
         ∃ x p_i, vget sc i = Some x ∧ vget p i = Some p_i ∧
                  vget r' i = Some (PPREngine.combined alpha x p_i dead).
Proof.
  intros Hwf Hr Hp Hn.
  destruct (scatter_spec g r Hwf Hr r_new0 Hn) as (sc & Hsc & Hlen & Hslots).
  destruct (combine_spec g alpha r Hwf Hr sc p
              (dead_mass_of g r (num_nodes g)) Hlen Hp)
    as (r' & Hcomb & Hlen' & Hvals).
  exists sc, r'. simpl. split_and!; try done.
  unfold PPREngine.sweep. rewrite Hsc. simpl. done.
Qed.

Example chain_graph_loaded :
  fst <$> loadGraphFromFile
            [mkLine "a" "b" None; mkLine "b" "c" (Some (-2)%float)] new_mapper
  = Some chain_graph.
Proof. reflexivity. Qed.

Example cycle_graph_loaded :
  fst <$> loadGraphFromFile cycle_lines new_mapper = Some cycle_graph.
Proof. reflexivity. Qed.

Lemma chain_graph_wf : wf_graph chain_graph.
Proof.
  unfold wf_graph. apply (bool_decide_unpack _). by vm_compute.
Qed.

Lemma cycle_graph_wf : wf_graph cycle_graph.
Proof.
  unfold wf_graph. apply (bool_decide_unpack _). by vm_compute.
Qed.

(** C1. In a sweep, once the scatter phase has added
    [r[u] * (w / out_weight_sum[u])] to the slot of the destination of every
    outgoing edge of every node [u] with [out_weight_sum[u] > 0], and summed
    [r[u]] over the other (dangling) nodes into [dead_mass], the combine
    phase stores, at every node [i],
    [(1-alpha)*r_new[i] + alpha*p[i] + (1-alpha)*dead_mass*p[i]]: the mass
    of the dangling nodes comes back in proportion to the personalization
    vector [p], damped once more by [1-alpha]. *)
Theorem sweep_redistributes_dead_mass (g : CSRGraph) (alpha : float)
  (p r r_new0 : list float) :
  wf_graph g →
  length r = Z.to_nat (num_nodes g) →
  length p = Z.to_nat (num_nodes g) →
  length r_new0 = Z.to_nat (num_nodes g) →
  ∃ sc dead_mass r' diff,
    PPREngine.scatter g (num_nodes g) r (fill r_new0 0%float)
    = Some (sc, dead_mass) ∧
    (∀ v, 0 ≤ v < num_nodes g →
          vget sc v = Some (received (pushes g r (num_nodes g)) v 0%float)) ∧
    dead_mass = dead_mass_of g r (num_nodes g) ∧
    PPREngine.sweep g alpha (num_nodes g) p r r_new0 = Some (r', diff) ∧
    ∀ i, 0 ≤ i < num_nodes g →
         ∃ x p_i, vget sc i = Some x ∧ vget p i = Some p_i ∧
                  vget r' i
                  = Some ((1 - alpha) * x + alpha * p_i
                          + (1 - alpha) * dead_mass * p_i)%float.
Proof.
  intros Hwf Hr Hp Hn.
  destruct (sweep_spec g alpha p r r_new0 Hwf Hr Hp Hn)
    as (sc & r' & Hsc & Hslots & Hsweep & _ & Hvals).
  by eexists sc, _, r', _.
Qed.

Lemma sweep_redistributes_dead_mass_witness :
  ∃ sc dead_mass r' diff,
    PPREngine.scatter chain_graph 3 [0.5; 0.25; 0.25]%float
      (fill [0; 0; 0]%float 0%float)
    = Some (sc, dead_mass) ∧
    (∀ v, 0 ≤ v < 3 →
          vget sc v
          = Some (received (pushes chain_graph [0.5; 0.25; 0.25]%float 3)
                    v 0%float)) ∧
    dead_mass = dead_mass_of chain_graph [0.5; 0.25; 0.25]%float 3 ∧
    PPREngine.sweep chain_graph 0.15 3 [1; 0; 0]%float
      [0.5; 0.25; 0.25]%float [0; 0; 0]%float = Some (r', diff) ∧
    ∀ i, 0 ≤ i < 3 →
         ∃ x p_i, vget sc i = Some x ∧ vget [1; 0; 0]%float i = Some p_i ∧
                  vget r' i
                  = Some ((1 - 0.15) * x + 0.15 * p_i
                          + (1 - 0.15) * dead_mass * p_i)%float.
Proof.
  apply (sweep_redistributes_dead_mass chain_graph 0.15 [1; 0; 0]%float
           [0.5; 0.25; 0.25]%float [0; 0; 0]%float);
    [apply chain_graph_wf|reflexivity|reflexivity|reflexivity].
Defined.

(** ** The power iteration loop *)

Section break_rules.
Context {St : Type}.

(** A loop with [break] whose body keeps an invariant returns a state
    that satisfies it. *)
Lemma for_iter_break_inv (I : St → Prop) (body : Z → St → option (flow St))
  n i s :
  I s →
  (∀ j t, I t → ∃ f, body j t = Some f ∧ I (flow_state f)) →
  ∃ s', for_iter_break n i body s = Some s' ∧ I s'.
Proof.
  intros Hs Hstep. revert i s Hs.
  induction n as [|n IH]; intros i s Hs; [by exists s|].
  destruct (Hstep i s Hs) as (f & Hb & Hf). simpl. rewrite Hb. simpl.
  destruct f as [t|t]; [by apply IH|by exists t].
Qed.

(** A loop with [break] depends on its body at the indices of its range
    only. *)
Lemma for_iter_break_ext (body body' : Z → St → option (flow St)) n i s :
  (∀ j t, i ≤ j < i + Z.of_nat n → body j t = body' j t) →
  for_iter_break n i body s = for_iter_break n i body' s.
Proof.
  revert i s. induction n as [|n IH]; intros i s Hext; [done|].
  simpl. rewrite Hext by lia. destruct (body' i s) as [[t|t]|]; [|done|done].
  simpl. apply IH. intros j u ?. apply Hext. lia.
Qed.
End break_rules.

Lemma iteration_inv g alpha epsilon p iter st :
  wf_graph g → length p = Z.to_nat (num_nodes g) →
  length st.1.1 = Z.to_nat (num_nodes g) →
  length st.1.2 = Z.to_nat (num_nodes g) →
  ∃ f, PPREngine.iteration g alpha epsilon (num_nodes g) p iter st = Some f ∧
       length (flow_state f).1.1 = Z.to_nat (num_nodes g) ∧
       length (flow_state f).1.2 = Z.to_nat (num_nodes g).
Proof.
  intros Hwf Hp. destruct st as [[r r_new] c]. simpl. intros Hr Hn.
  destruct (sweep_spec g alpha p r r_new Hwf Hr Hp Hn)
    as (sc & r' & _ & _ & Hsweep & Hlen & _).
  unfold PPREngine.iteration. rewrite Hsweep. simpl.
  destruct (_ <? epsilon)%float; by eexists.
Qed.

(** On a well-formed graph and with seeds that are not negative, the
    engine returns, and the clock shows in the duration only. *)
Lemma compute_total g seeds alpha epsilon :
  wf_graph g → Forall (λ id, 0 ≤ id) seeds →
  ∃ sc it, ∀ start end_,
    PPREngine.compute start end_ g seeds alpha epsilon
    = Some {| scores := sc; duration_us := end_ - start; iterations := it |}.
Proof.
  intros Hwf Hseeds. pose proof Hwf as (HN & _).
  destruct (for_iter_break_inv
    (λ st : list float * list float * Z,
       length st.1.1 = Z.to_nat (num_nodes g) ∧
       length st.1.2 = Z.to_nat (num_nodes g))
    (PPREngine.iteration g alpha epsilon (num_nodes g)
       (mark (num_nodes g) (seed_mass seeds) seeds))
    (Z.to_nat (100 - 0)) 0
    (mark (num_nodes g) (seed_mass seeds) seeds,
     replicate (Z.to_nat (num_nodes g)) 0%float, 0))
    as ([[r r_new] c] & Hrun & _).
  - simpl. by rewrite length_mark, length_replicate.
  - intros j t [? ?]. apply iteration_inv; [done|apply length_mark|done|done].
  - exists r, c. intros start end_. unfold PPREngine.compute.
    rewrite personalization_spec by done. simpl.
    unfold valloc. rewrite bool_decide_eq_true_2 by done. simpl.
    unfold for_range_break. by rewrite Hrun.
Qed.

Lemma iteration_sweep g alpha epsilon p iter r r_new c r' d :
  PPREngine.sweep g alpha (num_nodes g) p r r_new = Some (r', d) →
  PPREngine.iteration g alpha epsilon (num_nodes g) p iter (r, r_new, c)
  = Some (if (d <? epsilon)%float then Break (r', r', iter + 1)
          else Continue (r', r', iter + 1)).
Proof.
  intros Hsweep. unfold PPREngine.iteration. rewrite Hsweep. simpl.
  by destruct (d <? epsilon)%float.
Qed.

Lemma power_iteration_no_break g alpha epsilon p n i st c :
  (∀ k, (k < n)%nat →
        ∃ st_k r' d,
          sweeps g alpha p k st = Some st_k ∧
          PPREngine.sweep g alpha (num_nodes g) p st_k.1 st_k.2
          = Some (r', d) ∧
          (d <? epsilon)%float = false) →
  ∃ st_n,
    sweeps g alpha p n st = Some st_n ∧
    for_iter_break n i (PPREngine.iteration g alpha epsilon (num_nodes g) p)
      (st.1, st.2, c)
    = Some (st_n.1, st_n.2, match n with O => c | S _ => i + Z.of_nat n end).
Proof.
  revert i st c. induction n as [|n IH]; intros i [r0 rn0] c Hdiff.
  - by exists (r0, rn0).
  - destruct (Hdiff O) as (st0 & r' & d & Hst0 & Hsweep & Hd); [lia|].
    simpl in Hst0. simplify_eq. cbn [fst snd] in *.
    destruct (IH (i + 1) (r', r') (i + 1)) as (st_n & Hsw & Hrun).
    { intros k Hk. destruct (Hdiff (S k)) as (st_k & r'' & d' & Hk1 & Hk2 & Hk3);
        [lia|].
      simpl in Hk1. rewrite Hsweep in Hk1. simpl in Hk1. by exists st_k, r'', d'. }
    exists st_n. split.
    + simpl. rewrite Hsweep. by simpl.
    + cbn [for_iter_break]. rewrite (iteration_sweep _ _ _ _ _ _ _ _ _ _ Hsweep).
      rewrite Hd. cbn [mbind option_bind]. cbn [fst snd] in Hrun. rewrite Hrun.
      do 2 f_equal. destruct n; lia.
Qed.

(** C8. When none of the 100 sweeps brings the L1 difference below
    epsilon, the engine returns, without a fault, the iterate of the last
    sweep and an iteration count of 100. *)
Theorem max_iterations_returns_last_iterate (start end_ : Z) (g : CSRGraph)
  (seeds : list Z) (alpha epsilon : float) :
  (∀ k, (k < 100)%nat →
        ∃ d, nth_diff g seeds alpha k = Some d ∧
             (d <? epsilon)%float = false) →
  ∃ r, nth_iterate g seeds alpha 100 = Some r ∧
       PPREngine.compute start end_ g seeds alpha epsilon
       = Some {| scores := r; duration_us := end_ - start;
                 iterations := 100 |}.
Proof.
  intros Hdiff.
  destruct (Hdiff O) as (d0 & Hd0 & _); [lia|]. unfold nth_diff in Hd0.
  destruct (PPREngine.personalization seeds (num_nodes g)) as [p|] eqn:Hp;
    [|done].
  destruct (valloc (num_nodes g) 0%float) as [r_new|] eqn:Hr_new; [|done].
  clear Hd0.
  destruct (power_iteration_no_break g alpha epsilon p 100 0 (p, r_new) 0)
    as ([r r_new'] & Hsw & Hrun).
  - intros k Hk. destruct (Hdiff k Hk) as (d & Hd & Hlt).
    unfold nth_diff in Hd. rewrite Hp, Hr_new in Hd.
    cbn [mbind option_bind] in Hd.
    destruct (sweeps g alpha p k (p, r_new)) as [st_k|]; [|done].
    cbn [mbind option_bind] in Hd.
    destruct (PPREngine.sweep g alpha (num_nodes g) p st_k.1 st_k.2)
      as [[r' d']|] eqn:Hsweep; [|done].
    simpl in Hd. simplify_eq. by exists st_k, r', d.
  - exists r. split.
    + unfold nth_iterate. rewrite Hp. cbn [mbind option_bind].
      rewrite Hr_new. cbn [mbind option_bind]. by rewrite Hsw.
    + unfold PPREngine.compute. rewrite Hp. cbn [mbind option_bind].
      rewrite Hr_new. cbn [mbind option_bind].
      unfold for_range_break. change (Z.to_nat (100 - 0)) with 100%nat.
      cbn [fst snd] in Hrun. by rewrite Hrun.
Qed.

Lemma max_iterations_returns_last_iterate_witness :
  (∀ k, (k < 100)%nat →
        ∃ d, nth_diff cycle_graph [0] 0.15 k = Some d ∧
             (d <? 0)%float = false) ∧
  ∃ r, nth_iterate cycle_graph [0] 0.15 100 = Some r ∧
       PPREngine.compute 0 7 cycle_graph [0] 0.15 0
       = Some {| scores := r; duration_us := 7 - 0; iterations := 100 |}.
Proof.
  assert (∀ k, (k < 100)%nat →
               ∃ d, nth_diff cycle_graph [0] 0.15 k = Some d ∧
                    (d <? 0)%float = false) as Hdiff.
  { intros k Hk.
    do 100 (destruct k as [|k];
            [eexists; split; [vm_compute; reflexivity|reflexivity]|]).
    lia. }
  split; [exact Hdiff|].
  exact (max_iterations_returns_last_iterate 0 7 cycle_graph [0] 0.15 0 Hdiff).
Defined.

(** ** Arithmetic on zeros *)

Lemma finite_cases x :
  is_finite x = true →
  (∃ s, Prim2SF x = S754_zero s) ∨ (∃ s m e, Prim2SF x = S754_finite s m e).
Proof.
  unfold is_finite, is_nan, is_infinity.
  rewrite !FloatAxioms.eqb_spec, abs_spec.
  destruct (Prim2SF x) as [s|s| |s m e]; intros H.
  - left. by exists s.
  - by destruct s.
  - done.
  - right. by exists s, m, e.
Qed.

Lemma zeroish_of_SF x s : Prim2SF x = S754_zero s → zeroish x.
Proof.
  intros H. destruct s; [right|left]; by apply Prim2SF_inj.
Qed.

Lemma mul_zero_r_finite x : is_finite x = true → zeroish (x * 0)%float.
Proof.
  intros [[s H]|(s & m & e & H)]%finite_cases;
    apply (zeroish_of_SF _ (xorb s false)); by rewrite mul_spec, H.
Qed.

Lemma mul_zero_l_finite x : is_finite x = true → zeroish (0 * x)%float.
Proof.
  intros [[s H]|(s & m & e & H)]%finite_cases;
    apply (zeroish_of_SF _ (xorb false s)); by rewrite mul_spec, H.
Qed.

Lemma mul_zero_r_pos x :
  (0 <? x)%float = true → (x <=? 1)%float = true → (x * 0 = 0)%float.
Proof.
  rewrite ltb_spec, leb_spec. intros H0 H1. apply Prim2SF_inj.
  rewrite mul_spec.
  destruct (Prim2SF x) as [s|s| |s m e]; try done.
  - by destruct s.
  - by destruct s.
Qed.

Lemma add_zero_zeroish x : zeroish x → (0 + x = 0)%float.
Proof. by intros [-> | ->]. Qed.

Lemma add_zeroish_zero x : zeroish x → (x + 0 = 0)%float.
Proof. by intros [-> | ->]. Qed.

Lemma mul_zeroish_zero x : zeroish x → zeroish (x * 0)%float.
Proof. intros [-> | ->]; [by left|by right]. Qed.

Lemma fold_add_zeroish xs :
  Forall zeroish xs → fold_left PrimFloat.add xs 0%float = 0%float.
Proof.
  induction 1 as [|x xs Hx _ IH]; [done|].
  simpl. by rewrite (add_zero_zeroish x Hx).
Qed.

(** With alpha in (0, 1], the combined value of three zeros is zero. *)
Lemma combined_zero alpha :
  (0 <? alpha)%float = true → (alpha <=? 1)%float = true →
  is_finite (1 - alpha) = true →
  PPREngine.combined alpha 0 0 0 = 0%float.
Proof.
  intros H0 H1 Hfin. unfold PPREngine.combined.
  rewrite (mul_zero_r_pos alpha H0 H1).
  pose proof (mul_zero_r_finite _ Hfin) as Hz.
  rewrite (add_zeroish_zero _ Hz).
  by apply add_zero_zeroish, mul_zeroish_zero.
Qed.

(** ** A sweep from the zero vector *)

Lemma pushes_zero g :
  finite_ratios g = true →
  Forall (λ c, zeroish c.2)
    (pushes g (replicate (Z.to_nat (num_nodes g)) 0%float) (num_nodes g)).
Proof.
  intros Hfin. unfold finite_ratios in Hfin.
  rewrite forallb_forall in Hfin.
  unfold pushes. apply Forall_concat, Forall_fmap, Forall_forall.
  intros u Hu. specialize (Hfin u (proj1 (list_elem_of_In _ _) Hu)).
  unfold node_pushes, has_out. simpl.
  destruct (vget (out_weight_sum g) u) as [s|] eqn:Hs; [|done].
  destruct (0 <? s)%float; [|done].
  destruct (vget (row_ptr g) u) as [lo|]; [|done].
  destruct (vget (row_ptr g) (u + 1)) as [hi|]; [|done].
  rewrite forallb_forall in Hfin.
  apply Forall_forall. intros [v c] (k & Hk & Hpush)%list_elem_of_omap.
  specialize (Hfin k (proj1 (list_elem_of_In _ _) Hk)).
  unfold edge_push in Hpush.
  destruct (vget (col_indices g) k) as [v'|]; [|done].
  destruct (vget (edge_weights g) k) as [w|]; [|done].
  simpl in Hpush.
  destruct (vget (replicate _ _) u) as [ru|] eqn:Hru; [|done].
  apply vget_Some in Hru as [_ [-> _]%lookup_replicate_1].
  rewrite Hs in Hpush. simpl in Hpush. simplify_eq. simpl.
  by apply mul_zero_l_finite.
Qed.

Lemma received_zero ps v :
  Forall (λ c, zeroish c.2) ps → received ps v 0%float = 0%float.
Proof.
  intros Hps. unfold received. apply fold_add_zeroish, Forall_fmap.
  apply Forall_forall. intros c [_ Hc]%list_elem_of_filter.
  by apply (proj1 (Forall_forall _ _) Hps).
Qed.

Lemma dead_mass_zero g n :
  dead_mass_of g (replicate n 0%float) (num_nodes g) = 0%float.
Proof.
  unfold dead_mass_of, fsum. apply fold_add_zeroish, Forall_forall.
  intros x (u & _ & Hx)%list_elem_of_omap.
  destruct (has_out g u); [done|].
  apply vget_Some in Hx as [_ [-> _]%lookup_replicate_1]. by left.
Qed.

Lemma sweep_zero g alpha r_new0 :
  wf_graph g → finite_ratios g = true →
  (0 <? alpha)%float = true → (alpha <=? 1)%float = true →
  is_finite (1 - alpha) = true →
  length r_new0 = Z.to_nat (num_nodes g) →
  let zeros := replicate (Z.to_nat (num_nodes g)) 0%float in
  PPREngine.sweep g alpha (num_nodes g) zeros zeros r_new0
  = Some (zeros, 0%float).
Proof.
  intros Hwf Hfin H0 H1 Ha Hn zeros.
  assert (length zeros = Z.to_nat (num_nodes g)) as Hz
    by apply length_replicate.
  destruct (sweep_spec g alpha zeros zeros r_new0 Hwf Hz Hz Hn)
    as (sc & r' & _ & Hslots & Hsweep & Hlen & Hvals).
  simpl in Hsweep, Hvals. rewrite Hsweep.
  unfold zeros in *. rewrite dead_mass_zero in *.
  assert (∀ i, 0 ≤ i < num_nodes g → vget sc i = Some 0%float) as Hsc.
  { intros i Hi. rewrite (Hslots i Hi). f_equal.
    by apply received_zero, pushes_zero. }
  f_equal. f_equal.
  - apply vget_ext; [by rewrite Hlen, length_replicate|].
    intros i. rewrite Hlen. intros Hi.
    destruct (Hvals i) as (x & p_i & Hx & Hp_i & ->); [lia|].
    rewrite Hsc in Hx by lia. rewrite vget_replicate in Hp_i |- * by lia.
    simplify_eq. by rewrite combined_zero.
  - apply fold_add_zeroish, Forall_forall.
    intros x (j & Hj%elem_of_seqZ & Hx)%list_elem_of_omap.
    unfold l1_term in Hx. rewrite Hsc, vget_replicate in Hx by lia.
    simpl in Hx. simplify_eq. rewrite combined_zero by done. by left.
Qed.

(** C2, as the code has it. With an empty seed set (alpha in (0, 1],
    epsilon positive, a well-formed graph with finite weight ratios), the
    personalization vector is all-zero and the engine returns an all-zero
    score vector after the one sweep it takes to see that nothing moves:
    the iteration count is 1. *)
Theorem ppr_empty_seeds_one_sweep (start end_ : Z) (g : CSRGraph)
  (alpha epsilon : float) :
  wf_graph g → finite_ratios g = true →
  (0 <? alpha)%float = true → (alpha <=? 1)%float = true →
  is_finite (1 - alpha) = true →
  (0 <? epsilon)%float = true →
  PPREngine.personalization [] (num_nodes g)
  = Some (replicate (Z.to_nat (num_nodes g)) 0%float) ∧
  PPREngine.compute start end_ g [] alpha epsilon
  = Some {| scores := replicate (Z.to_nat (num_nodes g)) 0%float;
            duration_us := end_ - start;
            iterations := 1 |}.
Proof.
  intros Hwf Hfin H0 H1 Ha He. pose proof Hwf as (HN & _).
  assert (valloc (num_nodes g) 0%float
          = Some (replicate (Z.to_nat (num_nodes g)) 0%float)) as Hv.
  { unfold valloc. by rewrite bool_decide_eq_true_2. }
  assert (PPREngine.personalization [] (num_nodes g)
          = Some (replicate (Z.to_nat (num_nodes g)) 0%float)) as Hp.
  { unfold PPREngine.personalization. by rewrite Hv. }
  split; [done|].
  unfold PPREngine.compute. rewrite Hp. cbn [mbind option_bind].
  rewrite Hv. cbn [mbind option_bind].
  unfold for_range_break. change (Z.to_nat (100 - 0)) with (S 99).
  cbn [for_iter_break].
  rewrite (iteration_sweep _ _ _ _ _ _ _ _ _ _
             (sweep_zero g alpha _ Hwf Hfin H0 H1 Ha (length_replicate _ _))).
  by rewrite He.
Qed.

Lemma ppr_empty_seeds_one_sweep_witness :
  wf_graph chain_graph ∧ finite_ratios chain_graph = true ∧
  (0 <? 0.15)%float = true ∧ (0.15 <=? 1)%float = true ∧
  is_finite (1 - 0.15) = true ∧ (0 <? 1e-6)%float = true ∧
  PPREngine.personalization [] (num_nodes chain_graph)
  = Some (replicate (Z.to_nat (num_nodes chain_graph)) 0%float) ∧
  PPREngine.compute 0 5 chain_graph [] 0.15 1e-6
  = Some {| scores := replicate (Z.to_nat (num_nodes chain_graph)) 0%float;
            duration_us := 5 - 0;
            iterations := 1 |}.
Proof.
  split; [apply chain_graph_wf|].
  do 5 (split; [reflexivity|]).
  apply (ppr_empty_seeds_one_sweep 0 5 chain_graph 0.15 1e-6);
    [apply chain_graph_wf|reflexivity..].
Defined.

(** The claim C2 as stated fails: on the three-node cycle with no seeds
    the engine reports one iteration, not zero. *)
Lemma ppr_empty_seeds_zero_iterations_fails :
  ¬ ∃ res, PPREngine.compute 0 5 cycle_graph [] 0.15 1e-6 = Some res ∧
           scores res = [0; 0; 0]%float ∧ iterations res = 0.
Proof. intros (res & Hres & _ & Hit). vm_compute in Hres. by simplify_eq. Qed.

(** ** Seeds outside the graph *)

(** C3, as the code has it. The power-iteration engine does not reject a
    seed id from [N] on: it skips it. On a well-formed graph and with
    seeds that are not negative it returns normally, and its
    personalization vector holds [1 / |seeds|], the invalid ids counted in
    [|seeds|], at every seed below [N] and 0 elsewhere. *)
Theorem ppr_skips_seeds_beyond_graph (start end_ : Z) (g : CSRGraph)
  (seeds : list Z) (alpha epsilon : float) :
  wf_graph g → Forall (λ id, 0 ≤ id) seeds →
  ∃ p res,
    PPREngine.personalization seeds (num_nodes g) = Some p ∧
    (∀ i, 0 ≤ i < num_nodes g →
          vget p i
          = Some (if bool_decide (i ∈ seeds)
                  then (1 / of_count (Z.of_nat (length seeds)))%float
                  else 0%float)) ∧
    PPREngine.compute start end_ g seeds alpha epsilon = Some res.
Proof.
  intros Hwf Hseeds. pose proof Hwf as (HN & _).
  destruct (compute_total g seeds alpha epsilon Hwf Hseeds) as (sc & it & Hc).
  eexists _, _. split; [by apply personalization_spec|]. split; [|apply Hc].
  intros i Hi. by rewrite vget_mark.
Qed.

Lemma ppr_skips_seeds_beyond_graph_witness :
  wf_graph chain_graph ∧ Forall (λ id, 0 ≤ id) [0; 3] ∧
  ∃ p res,
    PPREngine.personalization [0; 3] (num_nodes chain_graph) = Some p ∧
    (∀ i, 0 ≤ i < num_nodes chain_graph →
          vget p i
          = Some (if bool_decide (i ∈ [0; 3])
                  then (1 / of_count (Z.of_nat (length [0; 3])))%float
                  else 0%float)) ∧
    PPREngine.compute 0 5 chain_graph [0; 3] 0.15 1e-6 = Some res.
Proof.
  assert (Forall (λ id, 0 ≤ id) [0; 3]) as Hseeds.
  { apply (bool_decide_unpack _). by vm_compute. }
  split; [apply chain_graph_wf|]. split; [exact Hseeds|].
  exact (ppr_skips_seeds_beyond_graph 0 5 chain_graph [0; 3] 0.15 1e-6
           chain_graph_wf Hseeds).
Defined.

(** The claim C3 as stated fails: with the seed 3 on a graph of three
    nodes the power-iteration engine returns a result, computed from a
    personalization vector that gives 1/2 to node 0 and drops the rest. *)
Lemma ppr_invalid_seed_not_rejected :
  3 ∈ [0; 3] ∧ ¬ (0 ≤ 3 < num_nodes chain_graph) ∧
  PPREngine.personalization [0; 3] (num_nodes chain_graph)
  = Some [0.5; 0; 0]%float ∧
  PPREngine.compute 0 5 chain_graph [0; 3] 0.15 1e-6 ≠ None.
Proof.
  split; [apply (bool_decide_unpack _); by vm_compute|].
  split; [simpl; lia|]. split; [reflexivity|].
  vm_compute. discriminate.
Qed.

(** The random-walk engine has no such guard: a walk that starts at a seed
    outside the graph indexes [visits] out of range. *)
Example mc_invalid_seed_undefined :
  MonteCarloEngine.compute tape_prob tape_seed_dist 0 5 chain_graph [0; 3]
    0.15 10 1 ([], [1])
  = Undefined.
Proof. reflexivity. Qed.

(** ** The random-walk engine with no seeds *)

(** C9. With an empty seed set the random-walk engine returns an
    all-zero vector of length [N] and a walk count of 0. It does so
    whatever the random source and with a step budget of 0, and hands the
    generator back as it was: no walk is taken and nothing is drawn. *)
Theorem mc_empty_seeds_no_walk {G : Type} (prob : G → float * G)
  (seed_dist : Z → G → Z * G) (start end_ : Z) (g : CSRGraph)
  (alpha : float) (fuel : nat) (total_walks : Z) (gen : G) :
  0 ≤ num_nodes g →
  MonteCarloEngine.compute prob seed_dist start end_ g [] alpha fuel
    total_walks gen
  = Ok ({| scores := replicate (Z.to_nat (num_nodes g)) 0%float;
           duration_us := 0; iterations := 0 |}, gen).
Proof.
  intros HN. unfold MonteCarloEngine.compute, valloc.
  by rewrite !bool_decide_eq_true_2.
Qed.

Lemma mc_empty_seeds_no_walk_witness :
  0 ≤ num_nodes cycle_graph ∧
  MonteCarloEngine.compute counting_prob counting_seed_dist 0 5 cycle_graph
    [] 0.15 0 1500 0%nat
  = Ok ({| scores := replicate (Z.to_nat (num_nodes cycle_graph)) 0%float;
           duration_us := 0; iterations := 0 |}, 0%nat).
Proof.
  split; [simpl; lia|].
  apply (mc_empty_seeds_no_walk counting_prob counting_seed_dist 0 5
           cycle_graph 0.15 0 1500 0%nat).
  simpl. lia.
Defined.

(** ** Normalization of the visit counts *)

Lemma Qsum_shares (t : Z) (l : list Z) (a : Z) :
  t ≠ 0 →
  (inject_Z (fold_left Z.add l a) / inject_Z t ==
   inject_Z a / inject_Z t
   + Qsum ((λ c, inject_Z c / inject_Z t) <$> l))%Q.
Proof.
  intros Ht.
  assert (¬ (inject_Z t == 0)%Q) as Ht'.
  { unfold Qeq. simpl. lia. }
  unfold Qsum. revert a. induction l as [|x l IH]; intros a.
  - simpl. ring.
  - cbn [fold_left]. rewrite IH.
    rewrite fmap_cons. cbn [fold_right].
    rewrite inject_Z_plus. field. exact Ht'.
Qed.

(** The exact shares of the visits add up to 1. *)
Lemma exact_shares_sum visits :
  0 < total_visits visits → (Qsum (exact_shares visits) == 1)%Q.
Proof.
  intros Ht. unfold exact_shares.
  assert (total_visits visits ≠ 0) as Hne by lia.
  pose proof (Qsum_shares (total_visits visits) visits 0 Hne) as H.
  fold (for_each visits Z.add 0) in H. fold (total_visits visits) in H.
  assert (¬ (inject_Z (total_visits visits) == 0)%Q) as Ht'.
  { unfold Qeq. simpl. lia. }
  set (S := Qsum _) in *.
  assert (S == inject_Z (total_visits visits) / inject_Z (total_visits visits)
               - inject_Z 0 / inject_Z (total_visits visits))%Q as ->.
  { rewrite H. ring. }
  field. exact Ht'.
Qed.

Lemma normalize_spec N visits sc :
  MonteCarloEngine.normalize N visits = Some sc →
  length sc = Z.to_nat N ∧
  (0 < total_visits visits →
   ∀ i, 0 ≤ i < N →
        ∃ c, vget visits i = Some c ∧
             vget sc i
             = Some (of_count c / of_count (total_visits visits))%float).
Proof.
  unfold MonteCarloEngine.normalize. fold (total_visits visits).
  destruct (valloc N 0%float) as [zeros|] eqn:Hz; [|done].
  apply valloc_Some in Hz as [HN ->]. cbn [mbind option_bind].
  case_bool_decide as Ht.
  2:{ intros [= <-]. rewrite length_replicate. split; [done|]. lia. }
  intros Hrun.
  pose proof (for_range_post
    (λ i (sc : list float),
       length sc = Z.to_nat N ∧
       ∀ j, 0 ≤ j < i →
            ∃ c, vget visits j = Some c ∧
                 vget sc j
                 = Some (of_count c / of_count (total_visits visits))%float)
    0 N _ _ sc Hrun HN) as Hpost.
  destruct Hpost as [Hlen Hvals].
  - split; [apply length_replicate|]. intros; lia.
  - intros i t t' Hi [Hlen Hdone] Hbody.
    destruct (vget visits i) as [c|] eqn:Hc; [|done]. simpl in Hbody.
    split; [by rewrite (vset_length _ _ _ _ Hbody)|].
    intros j Hj. rewrite (vget_vset _ _ _ _ _ Hbody).
    case_bool_decide; [subst; by exists c|].
    apply Hdone. lia.
  - split; [done|]. intros _. exact Hvals.
Qed.

Lemma count_visit_length visits curr visits' :
  MonteCarloEngine.count_visit visits curr = Some visits' →
  length visits' = length visits.
Proof.
  unfold MonteCarloEngine.count_visit.
  destruct (vget visits curr) as [c|]; [|done]. simpl.
  case_bool_decide; [|done]. apply vset_length.
Qed.

Section walk_facts.
Context {G : Type}.
Variable prob : G → float * G.
Variable seed_dist : Z → G → Z * G.
Variables (g : CSRGraph) (seeds : list Z) (alpha : float).

Lemma walk_length fuel visits curr gen visits' gen' :
  MonteCarloEngine.walk prob g alpha fuel visits curr gen
  = Ok (visits', gen') →
  length visits' = length visits.
Proof.
  revert visits curr gen.
  induction fuel as [|fuel IH]; intros visits curr gen; [done|].
  simpl.
  destruct (MonteCarloEngine.count_visit visits curr) as [v1|] eqn:Hc;
    [|done].
  apply count_visit_length in Hc. simpl.
  destruct (prob gen) as [x gen1].
  destruct (x <? alpha)%float; [by intros [= <- <-]|].
  destruct (vget (out_weight_sum g) curr) as [ows|]; [|done]. simpl.
  destruct (ows =? 0)%float; [by intros [= <- <-]|].
  destruct (prob gen1) as [y gen2].
  destruct (MonteCarloEngine.select_neighbor g curr _) as [next|]; [|done].
  simpl. intros Hw. apply IH in Hw. congruence.
Qed.

Lemma simulate_length fuel n visits gen visits' gen' :
  MonteCarloEngine.simulate prob seed_dist g seeds alpha fuel n visits gen
  = Ok (visits', gen') →
  length visits' = length visits.
Proof.
  revert visits gen. induction n as [|n IH]; intros visits gen.
  - by intros [= <- <-].
  - simpl. destruct (seed_dist _ gen) as [idx gen1].
    destruct (vget seeds idx) as [curr|]; [|done]. simpl.
    destruct (MonteCarloEngine.walk prob g alpha fuel visits curr gen1)
      as [[v1 gen2]| |] eqn:Hw; [|done|done].
    simpl. intros Hs. apply IH in Hs. apply walk_length in Hw. congruence.
Qed.
End walk_facts.

(** C5, as the code has it. When the random-walk engine returns from a run
    with seeds, its visit vector has one counter per node and, if some
    visit was recorded, [scores[i]] is the double quotient of [visits[i]]
    by the total visit count, for every node [i]. The exact shares
    [visits[i] / total] add up to 1; the scores are these shares rounded
    to doubles. *)
Theorem mc_scores_are_visit_shares {G : Type} (prob : G → float * G)
  (seed_dist : Z → G → Z * G) (start end_ : Z) (g : CSRGraph)
  (seeds : list Z) (alpha : float) (fuel : nat) (total_walks : Z) (gen : G)
  (res : AlgorithmResult) (gen' : G) :
  seeds ≠ [] →
  MonteCarloEngine.compute prob seed_dist start end_ g seeds alpha fuel
    total_walks gen = Ok (res, gen') →
  ∃ visits,
    MonteCarloEngine.simulate prob seed_dist g seeds alpha fuel
      (Z.to_nat total_walks) (replicate (Z.to_nat (num_nodes g)) 0) gen
    = Ok (visits, gen') ∧
    length visits = Z.to_nat (num_nodes g) ∧
    length (scores res) = Z.to_nat (num_nodes g) ∧
    (0 < total_visits visits →
     (∀ i, 0 ≤ i < num_nodes g →
           ∃ c, vget visits i = Some c ∧
                vget (scores res) i
                = Some (of_count c / of_count (total_visits visits))%float) ∧
     (Qsum (exact_shares visits) == 1)%Q).
Proof.
  intros Hseeds. unfold MonteCarloEngine.compute.
  destruct (valloc (num_nodes g) 0) as [zeros|] eqn:Hz; [|done].
  apply valloc_Some in Hz as [HN ->]. cbn [mbind outcome_bind defined].
  destruct seeds as [|id seeds']; [done|].
  destruct (MonteCarloEngine.simulate _ _ _ _ _ _ _ _ _)
    as [[visits gen1]| |] eqn:Hsim; [|done|done].
  cbn [mbind outcome_bind].
  destruct (MonteCarloEngine.normalize _ visits) as [sc|] eqn:Hnorm; [|done].
  cbn [mbind outcome_bind defined]. intros [= <- <-].
  apply normalize_spec in Hnorm as [Hlen Hvals].
  apply simulate_length in Hsim as Hvlen. rewrite length_replicate in Hvlen.
  exists visits. split_and!; try done.
  intros Ht. split; [by apply Hvals|by apply exact_shares_sum].
Qed.

Lemma mc_scores_are_visit_shares_witness :
  [0; 1; 2; 3; 4; 5] ≠ [] ∧
  MonteCarloEngine.compute tape_prob tape_seed_dist 0 9 six_nodes
    [0; 1; 2; 3; 4; 5] 1 1 6 ([], [0; 1; 2; 3; 4; 5])
  = Ok ({| scores := replicate 6 (1 / 6)%float; duration_us := 9;
           iterations := 6 |}, ([], [])) ∧
  ∃ visits,
    MonteCarloEngine.simulate tape_prob tape_seed_dist six_nodes
      [0; 1; 2; 3; 4; 5] 1 1 (Z.to_nat 6)
      (replicate (Z.to_nat (num_nodes six_nodes)) 0) ([], [0; 1; 2; 3; 4; 5])
    = Ok (visits, ([], [])) ∧
    length visits = Z.to_nat (num_nodes six_nodes) ∧
    length (replicate 6 (1 / 6)%float) = Z.to_nat (num_nodes six_nodes) ∧
    (0 < total_visits visits →
     (∀ i, 0 ≤ i < num_nodes six_nodes →
           ∃ c, vget visits i = Some c ∧
                vget (replicate 6 (1 / 6)%float) i
                = Some (of_count c / of_count (total_visits visits))%float) ∧
     (Qsum (exact_shares visits) == 1)%Q).
Proof.
  split; [discriminate|]. split; [reflexivity|].
  apply (mc_scores_are_visit_shares tape_prob tape_seed_dist 0 9 six_nodes
           [0; 1; 2; 3; 4; 5] 1 1 6 ([], [0; 1; 2; 3; 4; 5])
           {| scores := replicate 6 (1 / 6)%float; duration_us := 9;
              iterations := 6 |} ([], []));
    [discriminate|reflexivity].
Defined.

Example exact_value_sixth :
  (exact_value (1 / 6)%float == 6004799503160661 # 36028797018963968)%Q.
Proof. reflexivity. Qed.

(** The claim C5 as stated fails: six walks that each visit one of six
    nodes once leave the score 1/6 at every node, and these six doubles do
    not sum to 1, neither added up in doubles nor as exact rationals. *)
Lemma mc_scores_do_not_sum_to_one :
  ∃ res gen',
    0 < 6 ∧
    MonteCarloEngine.simulate tape_prob tape_seed_dist six_nodes
      [0; 1; 2; 3; 4; 5] 1 1 (Z.to_nat 6) (replicate 6 0)
      ([], [0; 1; 2; 3; 4; 5])
    = Ok ([1; 1; 1; 1; 1; 1], gen') ∧
    MonteCarloEngine.compute tape_prob tape_seed_dist 0 9 six_nodes
      [0; 1; 2; 3; 4; 5] 1 1 6 ([], [0; 1; 2; 3; 4; 5]) = Ok (res, gen') ∧
    scores res = replicate 6 (1 / 6)%float ∧
    fsum (scores res) = 0.99999999999999989%float ∧
    (fsum (scores res) =? 1)%float = false ∧
    ¬ (Qsum (exact_value <$> scores res) == 1)%Q.
Proof.
  eexists _, _. split; [lia|]. split; [reflexivity|].
  split; [reflexivity|]. do 3 (split; [reflexivity|]).
  intros H. vm_compute in H. discriminate.
Qed.

(** ** Weighted neighbor selection *)

Lemma slice_snoc {A : Type} (l : list A) lo k x :
  0 ≤ lo ≤ k → vget l k = Some x → slice lo (k + 1) l = slice lo k l ++ [x].
Proof.
  intros Hk [_ Hl]%vget_Some. unfold slice.
  replace (Z.to_nat (k + 1 - lo)) with (S (Z.to_nat (k - lo))) by lia.
  apply take_S_r. rewrite lookup_drop. rewrite <-Hl. f_equal. lia.
Qed.

Lemma scan_edge_step g target lo k acc curr w :
  0 ≤ lo ≤ k → vget (edge_weights g) k = Some w →
  acc = fsum (slice lo k (edge_weights g)) →
  MonteCarloEngine.scan_edge g target k (acc, curr)
  = if (target <=? running_weight g lo k)%float
    then v ← vget (col_indices g) k;
         Some (Break (running_weight g lo k, v))
    else Some (Continue (running_weight g lo k, curr)).
Proof.
  intros Hk Hw ->. unfold MonteCarloEngine.scan_edge, running_weight.
  rewrite Hw. simpl. by rewrite (slice_snoc _ _ _ _ Hk Hw), fsum_snoc.
Qed.

Lemma scan_loop_spec g target lo curr n k acc :
  0 ≤ lo ≤ k → acc = fsum (slice lo k (edge_weights g)) →
  (∀ j, k ≤ j < k + Z.of_nat n →
        is_Some (vget (edge_weights g) j) ∧ is_Some (vget (col_indices g) j)) →
  scan_exhausted g target lo k →
  ∃ acc' next,
    for_iter_break n k (MonteCarloEngine.scan_edge g target) (acc, curr)
    = Some (acc', next) ∧
    ((∃ j, first_reached g target lo (k + Z.of_nat n) j ∧
           vget (col_indices g) j = Some next) ∨
     (scan_exhausted g target lo (k + Z.of_nat n) ∧ next = curr)).
Proof.
  revert k acc. induction n as [|n IH]; intros k acc Hk Hacc Hvalid Hbefore.
  - exists acc, curr. split; [done|]. right.
    replace (k + Z.of_nat 0) with k by lia. done.
  - destruct (Hvalid k) as [[w Hw] [v Hv]]; [lia|].
    cbn [for_iter_break].
    rewrite (scan_edge_step _ _ lo _ _ _ _ Hk Hw Hacc).
    destruct (target <=? running_weight g lo k)%float eqn:Hreach.
    + rewrite Hv. simpl. eexists _, v. split; [done|]. left.
      exists k. split; [|done]. split; [lia|]. done.
    + simpl.
      destruct (IH (k + 1) (running_weight g lo k)) as (acc' & next & Hrun & Hres).
      * lia.
      * done.
      * intros j Hj. apply Hvalid. lia.
      * intros j Hj. destruct (decide (j = k)) as [->|]; [done|].
        apply Hbefore. lia.
      * exists acc', next. split; [done|].
        by replace (k + Z.of_nat (S n)) with (k + 1 + Z.of_nat n) by lia.
Qed.

Lemma select_neighbor_spec g curr target lo hi :
  vget (row_ptr g) curr = Some lo → vget (row_ptr g) (curr + 1) = Some hi →
  0 ≤ lo → hi ≤ Z.of_nat (length (col_indices g)) →
  length (edge_weights g) = length (col_indices g) →
  ∃ next,
    MonteCarloEngine.select_neighbor g curr target = Some next ∧
    ((∃ k, first_reached g target lo hi k ∧
           vget (col_indices g) k = Some next) ∨
     (scan_exhausted g target lo hi ∧ next = curr)).
Proof.
  intros Hlo Hhi Hlo0 HhiE Hlen. unfold MonteCarloEngine.select_neighbor.
  rewrite Hlo, Hhi. cbn [mbind option_bind]. unfold for_range_break.
  destruct (scan_loop_spec g target lo curr (Z.to_nat (hi - lo)) lo 0%float)
    as (acc' & next & Hrun & Hres).
  - lia.
  - unfold slice. by rewrite Z.sub_diag.
  - intros j Hj. split; apply vget_is_Some; lia.
  - intros j Hj. lia.
  - rewrite Hrun. simpl. exists next. split; [done|].
    destruct (decide (lo ≤ hi)) as [Hle|Hgt].
    + by replace (lo + Z.of_nat (Z.to_nat (hi - lo))) with hi in Hres by lia.
    + replace (lo + Z.of_nat (Z.to_nat (hi - lo))) with lo in Hres by lia.
      right. destruct Hres as [(j & (Hj & _) & _)|[_ ->]]; [lia|].
      split; [|done]. intros j Hj. lia.
Qed.

(** The scan reads the two edge arrays inside the range of the current
    node only: a graph that differs elsewhere gives the same result. *)
Lemma select_neighbor_frame g g' curr target lo hi :
  vget (row_ptr g) curr = Some lo → vget (row_ptr g) (curr + 1) = Some hi →
  row_ptr g' = row_ptr g →
  (∀ k, lo ≤ k < hi →
        vget (edge_weights g') k = vget (edge_weights g) k ∧
        vget (col_indices g') k = vget (col_indices g) k) →
  MonteCarloEngine.select_neighbor g' curr target
  = MonteCarloEngine.select_neighbor g curr target.
Proof.
  intros Hlo Hhi Hrp Hsame. unfold MonteCarloEngine.select_neighbor.
  rewrite Hrp, Hlo, Hhi. cbn [mbind option_bind]. unfold for_range_break.
  rewrite (for_iter_break_ext (MonteCarloEngine.scan_edge g' target)
             (MonteCarloEngine.scan_edge g target)); [done|].
  intros j [acc c] Hj. unfold MonteCarloEngine.scan_edge.
  destruct (Hsame j) as [-> ->]; [lia|]. done.
Qed.

Lemma count_visit_Some visits curr visits1 :
  MonteCarloEngine.count_visit visits curr = Some visits1 →
  ∃ c, vget visits curr = Some c ∧
       ∀ i, vget visits1 i
            = if bool_decide (i = curr) then Some (c + 1) else vget visits i.
Proof.
  unfold MonteCarloEngine.count_visit.
  destruct (vget visits curr) as [c|]; [|done]. simpl.
  case_bool_decide; [|done]. intros Hset. exists c. split; [done|].
  intros i. apply (vget_vset _ _ _ _ _ Hset).
Qed.

Section walk_counts.
Context {G : Type}.
Variable prob : G → float * G.
Variables (g : CSRGraph) (alpha : float).

(** A walk never lowers a counter, and it counts the node it starts
    at. *)
Lemma walk_counts fuel visits curr gen visits' gen' :
  MonteCarloEngine.walk prob g alpha fuel visits curr gen
  = Ok (visits', gen') →
  ∀ i c, vget visits i = Some c →
         ∃ c', vget visits' i = Some c' ∧ c ≤ c' ∧ (i = curr → c + 1 ≤ c').
Proof.
  revert visits curr gen.
  induction fuel as [|fuel IH]; intros visits curr gen; [done|].
  cbn [MonteCarloEngine.walk].
  destruct (MonteCarloEngine.count_visit visits curr) as [v1|] eqn:Hc;
    [|done].
  apply count_visit_Some in Hc as (c0 & Hc0 & Hv1).
  cbn [mbind outcome_bind defined].
  assert (∀ i c, vget visits i = Some c →
                 ∃ c', vget v1 i = Some c' ∧ c ≤ c' ∧
                       (i = curr → c + 1 ≤ c')) as Hstep.
  { intros i c Hi. rewrite Hv1. case_bool_decide.
    - subst. simplify_eq. eexists. split; [done|]. lia.
    - exists c. split; [done|]. split; [lia|done]. }
  destruct (prob gen) as [x gen1].
  destruct (x <? alpha)%float; [intros [= <- <-]; exact Hstep|].
  destruct (vget (out_weight_sum g) curr) as [ows|]; [|done].
  cbn [mbind outcome_bind defined].
  destruct (ows =? 0)%float; [intros [= <- <-]; exact Hstep|].
  destruct (prob gen1) as [y gen2].
  destruct (MonteCarloEngine.select_neighbor g curr _) as [next|]; [|done].
  cbn [mbind outcome_bind defined]. intros Hw i c Hi.
  destruct (Hstep i c Hi) as (c1 & Hc1 & Hle & Hcurr).
  destruct (IH _ _ _ Hw i c1 Hc1) as (c' & Hc' & Hle' & _).
  exists c'. split; [done|]. split; [lia|]. intros ?. specialize (Hcurr H). lia.
Qed.

(** When the scan finds no edge, the loop goes on at the node it is at,
    and counts it again. *)
Lemma walk_stays fuel visits curr gen lo hi :
  vget (row_ptr g) curr = Some lo → vget (row_ptr g) (curr + 1) = Some hi →
  0 ≤ lo → hi ≤ Z.of_nat (length (col_indices g)) →
  length (edge_weights g) = length (col_indices g) →
  ∀ x gen1 y gen2 ows,
    prob gen = (x, gen1) → (x <? alpha)%float = false →
    vget (out_weight_sum g) curr = Some ows → (ows =? 0)%float = false →
    prob gen1 = (y, gen2) →
    scan_exhausted g (y * ows)%float lo hi →
    MonteCarloEngine.walk prob g alpha (S fuel) visits curr gen
    = (visits1 ← defined (MonteCarloEngine.count_visit visits curr);
       MonteCarloEngine.walk prob g alpha fuel visits1 curr gen2) ∧
    ∀ visits' gen',
      MonteCarloEngine.walk prob g alpha (S fuel) visits curr gen
      = Ok (visits', gen') →
      ∃ c c', vget visits curr = Some c ∧ vget visits' curr = Some c' ∧
              c + 2 ≤ c'.
Proof.
  intros Hlo Hhi Hlo0 HhiE Hlen x gen1 y gen2 ows Hx Hxa Hows Hows0 Hy Hex.
  destruct (select_neighbor_spec g curr (y * ows)%float lo hi
              Hlo Hhi Hlo0 HhiE Hlen) as (next & Hsel & Hres).
  assert (next = curr) as ->.
  { destruct Hres as [(k & (Hk & Hreach & _) & _)|[_ ->]]; [|done].
    rewrite (Hex k Hk) in Hreach. done. }
  assert (MonteCarloEngine.walk prob g alpha (S fuel) visits curr gen
          = (visits1 ← defined (MonteCarloEngine.count_visit visits curr);
             MonteCarloEngine.walk prob g alpha fuel visits1 curr gen2))
    as Heq.
  { cbn [MonteCarloEngine.walk].
    destruct (MonteCarloEngine.count_visit visits curr) as [v1|]; [|done].
    cbn [mbind outcome_bind defined].
    rewrite Hx, Hxa, Hows. cbn [mbind outcome_bind defined].
    rewrite Hows0, Hy, Hsel. done. }
  split; [exact Heq|].
  intros visits' gen'. rewrite Heq.
  destruct (MonteCarloEngine.count_visit visits curr) as [v1|] eqn:Hc;
    [|done].
  cbn [mbind outcome_bind defined]. intros Hw.
  apply count_visit_Some in Hc as (c & Hc & Hv1).
  destruct (walk_counts _ _ _ _ _ _ Hw curr (c + 1)) as (c' & Hc' & _ & Hle).
  { by rewrite Hv1, bool_decide_eq_true_2. }
  exists c, c'. split; [done|]. split; [done|]. specialize (Hle eq_refl). lia.
Qed.
End walk_counts.

(** On a graph that satisfies the CSR invariant the scan runs dry only
    when the target is not below or at the weight sum of the node. *)
Lemma scan_exhausted_above_sum g curr target lo hi ows :
  csr_invariant g → 0 ≤ curr < num_nodes g →
  vget (row_ptr g) curr = Some lo → vget (row_ptr g) (curr + 1) = Some hi →
  vget (out_weight_sum g) curr = Some ows →
  lo < hi → scan_exhausted g target lo hi →
  (target <=? ows)%float = false.
Proof.
  intros Hinv Hcurr Hlo Hhi Hows Hlt Hex.
  destruct (inv_ows g Hinv curr Hcurr) as (lo' & hi' & Hlo' & Hhi' & Hsum).
  simplify_eq. rewrite <-(Hex (hi - 1)) by lia. unfold running_weight.
  by replace (hi - 1 + 1) with hi by lia.
Qed.

(** C10. The edge scan of the weighted neighbor selection, at a node of a
    well-formed graph: it ends without a fault; it reads the edge arrays
    inside [row_ptr[curr] .. row_ptr[curr+1]) only, a graph that differs
    elsewhere giving the same result; the edge it takes is the first whose
    running cumulative weight reaches or exceeds the scaled draw; and when
    no edge does, the walk stays at the current node, the loop goes on
    there and counts that node again. *)
Theorem weighted_selection_scan {G : Type} (prob : G → float * G)
  (g : CSRGraph) (alpha : float) (curr : Z) (target : float) :
  wf_graph g → 0 ≤ curr < num_nodes g →
  ∃ lo hi next,
    vget (row_ptr g) curr = Some lo ∧
    vget (row_ptr g) (curr + 1) = Some hi ∧
    MonteCarloEngine.select_neighbor g curr target = Some next ∧
    (∀ g', row_ptr g' = row_ptr g →
           (∀ k, lo ≤ k < hi →
                 vget (edge_weights g') k = vget (edge_weights g) k ∧
                 vget (col_indices g') k = vget (col_indices g) k) →
           MonteCarloEngine.select_neighbor g' curr target = Some next) ∧
    ((∃ k, first_reached g target lo hi k ∧
           vget (col_indices g) k = Some next) ∨
     (scan_exhausted g target lo hi ∧ next = curr ∧
      ∀ fuel visits gen x gen1 y gen2 ows,
        prob gen = (x, gen1) → (x <? alpha)%float = false →
        vget (out_weight_sum g) curr = Some ows →
        (ows =? 0)%float = false →
        prob gen1 = (y, gen2) → target = (y * ows)%float →
        MonteCarloEngine.walk prob g alpha (S fuel) visits curr gen
        = (visits1 ← defined (MonteCarloEngine.count_visit visits curr);
           MonteCarloEngine.walk prob g alpha fuel visits1 curr gen2) ∧
        ∀ visits' gen',
          MonteCarloEngine.walk prob g alpha (S fuel) visits curr gen
          = Ok (visits', gen') →
          ∃ c c', vget visits curr = Some c ∧ vget visits' curr = Some c' ∧
                  c + 2 ≤ c')).
Proof.
  intros Hwf Hcurr. pose proof Hwf as (HN & Hrl & Hol & Hel & Hrp & Hcol).
  destruct (vget_is_Some (row_ptr g) curr) as [lo Hlo]; [lia|].
  destruct (vget_is_Some (row_ptr g) (curr + 1)) as [hi Hhi]; [lia|].
  pose proof (wf_row_bounds g Hwf curr lo Hlo) as [Hlo0 _].
  pose proof (wf_row_bounds g Hwf (curr + 1) hi Hhi) as [_ HhiE].
  destruct (select_neighbor_spec g curr target lo hi Hlo Hhi Hlo0 HhiE Hel)
    as (next & Hsel & Hres).
  exists lo, hi, next. split_and!; try done.
  - intros g' Hrp' Hsame.
    by rewrite (select_neighbor_frame g g' curr target lo hi).
  - destruct Hres as [Hfound|[Hex ->]]; [by left|right].
    split_and!; try done.
    intros fuel visits gen x gen1 y gen2 ows Hx Hxa Hows Hows0 Hy ->.
    by apply (walk_stays prob g alpha fuel visits curr gen lo hi
                Hlo Hhi Hlo0 HhiE Hel x gen1 y gen2 ows).
Qed.

Lemma weighted_selection_scan_witness :
  wf_graph chain_graph ∧ 0 ≤ 0 < num_nodes chain_graph ∧
  ∃ lo hi next,
    vget (row_ptr chain_graph) 0 = Some lo ∧
    vget (row_ptr chain_graph) (0 + 1) = Some hi ∧
    MonteCarloEngine.select_neighbor chain_graph 0 0.5 = Some next ∧
    (∀ g', row_ptr g' = row_ptr chain_graph →
           (∀ k, lo ≤ k < hi →
                 vget (edge_weights g') k = vget (edge_weights chain_graph) k ∧
                 vget (col_indices g') k = vget (col_indices chain_graph) k) →
           MonteCarloEngine.select_neighbor g' 0 0.5 = Some next) ∧
    ((∃ k, first_reached chain_graph 0.5 lo hi k ∧
           vget (col_indices chain_graph) k = Some next) ∨
     (scan_exhausted chain_graph 0.5 lo hi ∧ next = 0 ∧
      ∀ fuel visits gen x gen1 y gen2 ows,
        tape_prob gen = (x, gen1) → (x <? 0.15)%float = false →
        vget (out_weight_sum chain_graph) 0 = Some ows →
        (ows =? 0)%float = false →
        tape_prob gen1 = (y, gen2) → 0.5%float = (y * ows)%float →
        MonteCarloEngine.walk tape_prob chain_graph 0.15 (S fuel) visits 0 gen
        = (visits1 ← defined (MonteCarloEngine.count_visit visits 0);
           MonteCarloEngine.walk tape_prob chain_graph 0.15 fuel visits1 0
             gen2) ∧
        ∀ visits' gen',
          MonteCarloEngine.walk tape_prob chain_graph 0.15 (S fuel) visits 0
            gen = Ok (visits', gen') →
          ∃ c c', vget visits 0 = Some c ∧ vget visits' 0 = Some c' ∧
                  c + 2 ≤ c')).
Proof.
  split; [apply chain_graph_wf|]. split; [simpl; lia|].
  apply (weighted_selection_scan tape_prob chain_graph 0.15 0 0.5);
    [apply chain_graph_wf|simpl; lia].
Defined.

(** The scan can run dry on a graph the loader builds: two weights whose
    sum overflows make [out_weight_sum] infinite, the draw 0 then scales to
    a NaN target that no running weight reaches, and the walk counts the
    node until the teleport draw stops it. *)
Example scan_runs_dry_on_overflow :
  fst <$> loadGraphFromFile [mkLine "a" "b" (Some 1e308%float);
                             mkLine "a" "b" (Some 1e308%float)] new_mapper
  = Some overflow_graph ∧
  MonteCarloEngine.select_neighbor overflow_graph 0 (0 * infinity)%float
  = Some 0 ∧
  MonteCarloEngine.walk tape_prob overflow_graph 0.15 5 [0; 0] 0
    ([0.5; 0; 0.5; 0; 0.1]%float, [])
  = Ok ([3; 0], ([], [])).
Proof. by vm_compute. Qed.

(** * Properties of the rest of the source *)

(** ** The node mapper as a bijection *)

Lemma new_mapper_bij : mapper_bij new_mapper.
Proof.
  intros name id. simpl. rewrite lookup_empty. split; [done|].
  by intros [_ ?]%vget_Some.
Qed.

Lemma mapper_bij_ok m : mapper_bij m → mapper_ok m.
Proof.
  intros Hbij name id Hid. apply Hbij in Hid.
  apply vget_in_range in Hid. unfold getNumNodes. lia.
Qed.

Lemma vget_app_l {A : Type} (l1 l2 : list A) i x :
  vget l1 i = Some x → vget (l1 ++ l2) i = Some x.
Proof.
  rewrite !vget_Some. intros [? Hl]. split; [done|].
  by apply lookup_app_l_Some.
Qed.

Lemma vget_snoc {A : Type} (l : list A) x i y :
  vget (l ++ [x]) i = Some y ↔
  vget l i = Some y ∨ (i = Z.of_nat (length l) ∧ y = x).
Proof.
  rewrite !vget_Some. split.
  - intros [Hi Hl]. apply lookup_app_Some in Hl as [Hl|[Hge Hl]]; [by left; split|].
    apply list_lookup_singleton_Some in Hl as [Hz ->]. right. split; [lia|done].
  - intros [[Hi Hl]|[-> ->]].
    + split; [done|]. by apply lookup_app_l_Some.
    + split; [lia|]. rewrite Nat2Z.id. by apply list_lookup_middle.
Qed.

Lemma getId_bij name m id m' :
  mapper_bij m → getId name m = (id, m') →
  mapper_bij m' ∧ name_to_id m' !! name = Some id ∧
  (∀ n i, vget (id_to_name m) i = Some n → vget (id_to_name m') i = Some n) ∧
  (∀ n, n ∈ id_to_name m' ↔ n ∈ id_to_name m ∨ n = name).
Proof.
  unfold getId. intros Hbij Hget.
  destruct (name_to_id m !! name) as [id0|] eqn:Hl; simplify_eq/=.
  - split_and!; try done. intros n. split; [by left|].
    intros [?| ->]; [done|]. apply Hbij in Hl.
    apply vget_Some in Hl as [_ Hl]. by apply list_elem_of_lookup_2 in Hl.
  - split_and!.
    + intros n i. simpl. rewrite vget_snoc.
      destruct (decide (n = name)) as [->|Hne].
      * rewrite lookup_insert_eq. split.
        -- intros [= <-]. by right.
        -- intros [Hi|[-> _]]; [|done]. apply Hbij in Hi. congruence.
      * rewrite lookup_insert_ne by done. rewrite (Hbij n i). split; [by left|].
        intros [?|[_ ?]]; [done|congruence].
    + apply lookup_insert_eq.
    + intros n i. apply vget_app_l.
    + intros n. rewrite elem_of_app, list_elem_of_singleton. done.
Qed.

(** X1. Round trip: after [getId name] has returned [id], [getName id]
    gives [name] back, and the names that earlier ids stand for are
    unchanged. *)
Theorem getId_getName_round_trip (name : string) (m : NodeMapper) (id : Z)
  (m' : NodeMapper) :
  mapper_bij m → getId name m = (id, m') →
  getName id m' = Some name ∧
  ∀ n i, 0 ≤ i < getNumNodes m →
         getName i m = Some n → getName i m' = Some n.
Proof.
  intros Hbij Hget.
  destruct (getId_bij _ _ _ _ Hbij Hget) as (Hbij' & Hid & Hkeep & _).
  assert (∀ n i mm, vget (id_to_name mm) i = Some n → getName i mm = Some n)
    as Hname.
  { intros n i mm Hi. unfold getName. pose proof (vget_in_range _ _ _ Hi).
    by rewrite !bool_decide_eq_true_2 by lia. }
  split.
  - apply Hname. by apply Hbij'.
  - intros n i Hi Hn. apply Hname, Hkeep. unfold getName, getNumNodes in *.
    by rewrite !bool_decide_eq_true_2 in Hn by lia.
Qed.

Lemma getId_getName_round_trip_witness :
  mapper_bij new_mapper ∧
  getId "alice" new_mapper
  = (0, {| name_to_id := {["alice"%string := 0]};
           id_to_name := ["alice"%string] |}) ∧
  getName 0 {| name_to_id := {["alice"%string := 0]};
               id_to_name := ["alice"%string] |} = Some "alice"%string ∧
  ∀ n i, 0 ≤ i < getNumNodes new_mapper →
         getName i new_mapper = Some n →
         getName i {| name_to_id := {["alice"%string := 0]};
                      id_to_name := ["alice"%string] |} = Some n.
Proof.
  split; [apply new_mapper_bij|]. split; [reflexivity|].
  apply (getId_getName_round_trip "alice" new_mapper 0);
    [apply new_mapper_bij|reflexivity].
Defined.

(** X2. Ids are stable and injective: asking again for a name returns the
    same id and leaves the mapper as it is, and two names get the same id
    only when they are the same name. *)
Theorem getId_stable_injective (n1 n2 : string) (m m1 m2 : NodeMapper)
  (i1 i2 : Z) :
  mapper_bij m → getId n1 m = (i1, m1) → getId n2 m1 = (i2, m2) →
  getId n1 m2 = (i1, m2) ∧ (i1 = i2 ↔ n1 = n2).
Proof.
  intros Hbij H1 H2.
  destruct (getId_bij _ _ _ _ Hbij H1) as (Hbij1 & Hid1 & _ & _).
  destruct (getId_bij _ _ _ _ Hbij1 H2) as (Hbij2 & Hid2 & Hkeep2 & _).
  assert (name_to_id m2 !! n1 = Some i1) as Hid1'.
  { apply Hbij2, Hkeep2. by apply Hbij1. }
  split.
  - unfold getId. by rewrite Hid1'.
  - split.
    + intros <-. apply Hbij2 in Hid1', Hid2. congruence.
    + intros <-. congruence.
Qed.

Lemma getId_stable_injective_witness :
  mapper_bij new_mapper ∧
  getId "a" (getId "b" (getId "a" new_mapper).2).2
  = (0, (getId "b" (getId "a" new_mapper).2).2) ∧ (0 = 1 ↔ "a" = "b"%string).
Proof.
  split; [apply new_mapper_bij|].
  apply (getId_stable_injective "a" "b" new_mapper
           (getId "a" new_mapper).2 (getId "b" (getId "a" new_mapper).2).2
           0 1); [apply new_mapper_bij|reflexivity|reflexivity].
Defined.

(** ** More on the graph the loader builds *)

Lemma mapper_bij_NoDup m : mapper_bij m → NoDup (id_to_name m).
Proof.
  intros Hbij. apply NoDup_alt. intros i j name Hi Hj.
  rewrite <-vget_lookup in Hi, Hj. apply Hbij in Hi, Hj.
  rewrite Hi in Hj. simplify_eq. lia.
Qed.

Lemma read_line_names acc m l edges m' :
  mapper_bij m → read_line (acc, m) l = (edges, m') →
  mapper_bij m' ∧
  ∀ n, n ∈ id_to_name m' ↔ n ∈ id_to_name m ∨ n ∈ [u_str l; v_str l].
Proof.
  intros Hbij. unfold read_line.
  destruct (getId (u_str l) m) as [u m1] eqn:Hu.
  destruct (getId (v_str l) m1) as [v m2] eqn:Hv.
  intros [= <- <-].
  destruct (getId_bij _ _ _ _ Hbij Hu) as (Hbij1 & _ & _ & Hn1).
  destruct (getId_bij _ _ _ _ Hbij1 Hv) as (Hbij2 & _ & _ & Hn2).
  split; [done|]. intros n. rewrite Hn2, Hn1.
  rewrite !elem_of_cons, elem_of_nil. tauto.
Qed.

Lemma read_lines_names lines acc m edges m' :
  mapper_bij m → for_each lines read_line (acc, m) = (edges, m') →
  mapper_bij m' ∧
  ∀ n, n ∈ id_to_name m' ↔ n ∈ id_to_name m ∨ n ∈ line_names lines.
Proof.
  unfold for_each. revert acc m.
  induction lines as [|l lines IH]; intros acc m Hbij Hrun.
  - simplify_eq/=. split; [done|]. intros n. rewrite elem_of_nil. tauto.
  - cbn [fold_left] in Hrun.
    destruct (read_line (acc, m) l) as [acc1 m1] eqn:Hl.
    destruct (read_line_names _ _ _ _ _ Hbij Hl) as [Hbij1 Hn1].
    destruct (IH _ _ Hbij1 Hrun) as [Hbij' Hn'].
    split; [done|]. intros n. rewrite Hn', Hn1. unfold line_names.
    rewrite fmap_cons. cbn [concat]. rewrite elem_of_app. tauto.
Qed.

(** X3. A graph loaded with a fresh mapper has one node per distinct name
    of the dataset, and a name that does not occur in the dataset is given
    the id [N] when it is looked up afterwards: an id outside the graph. *)
Theorem loader_node_count (lines : list edge_line) :
  ∃ g m',
    loadGraphFromFile lines new_mapper = Some (g, m') ∧
    num_nodes g
    = Z.of_nat (size (list_to_set (line_names lines) : gset string)) ∧
    ∀ name, name ∉ line_names lines → (getId name m').1 = num_nodes g.
Proof.
  destruct (loadGraphFromFile_spec lines new_mapper new_mapper_ok)
    as (g & m' & edges & Hl & Hread & _ & _ & _ & Hlen & Hcsr).
  destruct (read_lines_names _ _ _ _ _ new_mapper_bij Hread) as [Hbij Hn].
  assert (num_nodes g = Z.of_nat (length (id_to_name m'))) as HN.
  { by rewrite (csr_nodes _ _ _ Hcsr), Hlen. }
  exists g, m'. split; [done|]. split.
  - rewrite HN. f_equal.
    rewrite <-(size_list_to_set (C:=gset string) (id_to_name m'))
      by by apply mapper_bij_NoDup.
    f_equal. apply set_eq. intros n. rewrite !elem_of_list_to_set, Hn.
    simpl. rewrite elem_of_nil. tauto.
  - intros name Hname. unfold getId.
    destruct (name_to_id m' !! name) as [id|] eqn:Hid; [|by rewrite HN].
    apply Hbij in Hid. apply vget_Some in Hid as [_ Hid].
    apply list_elem_of_lookup_2 in Hid. apply Hn in Hid.
    simpl in Hid. rewrite elem_of_nil in Hid. tauto.
Qed.

Lemma csr_of_row adj E g u row :
  csr_of adj E g → vget adj u = Some row →
  vget (row_ptr g) u = Some (offset adj u) ∧
  vget (row_ptr g) (u + 1)
  = Some (offset adj u + Z.of_nat (length row)) ∧
  slice (offset adj u) (offset adj u + Z.of_nat (length row)) (col_indices g)
  = row.*1 ∧
  slice (offset adj u) (offset adj u + Z.of_nat (length row)) (edge_weights g)
  = row.*2 ∧
  vget (out_weight_sum g) u = Some (fsum row.*2).
Proof.
  intros [Hn He Hrl Hrow Hcol Hew Hol Hows] Hu.
  pose proof (vget_in_range _ _ _ Hu) as Hr.
  rewrite <-(offset_succ adj u row Hu).
  rewrite !Hrow by lia. split_and!; try done; [| |by apply Hows].
  - apply vget_Some in Hu as [_ Hl].
    assert (((λ row : list (Z * float), row.*1) <$> adj) !! Z.to_nat u
            = Some row.*1) as Hl1 by by rewrite list_lookup_fmap, Hl.
    apply slice_concat in Hl1. rewrite <-!fmap_take in Hl1.
    rewrite !concat_fmap_fst, !length_fmap in Hl1.
    unfold offset. replace (Z.to_nat (u + 1)) with (S (Z.to_nat u)) by lia.
    by rewrite Hcol, concat_fmap_fst, Hl1.
  - apply vget_Some in Hu as [_ Hl].
    assert (((λ row : list (Z * float), row.*2) <$> adj) !! Z.to_nat u
            = Some row.*2) as Hl2 by by rewrite list_lookup_fmap, Hl.
    apply slice_concat in Hl2. rewrite <-!fmap_take in Hl2.
    rewrite !concat_fmap_snd, !length_fmap in Hl2.
    unfold offset. replace (Z.to_nat (u + 1)) with (S (Z.to_nat u)) by lia.
    by rewrite Hew, concat_fmap_snd, Hl2.
Qed.

(** X4. The row of a node in the built graph lists the input edges that
    leave it in input order: destinations in [col_indices], sanitized
    weights in [edge_weights]. A node that no edge leaves has an empty row
    and an [out_weight_sum] of exactly 0, which is what makes it dangling
    for both engines. *)
Theorem loader_rows_in_input_order (lines : list edge_line) (m : NodeMapper) :
  mapper_ok m →
  ∃ g m' edges,
    loadGraphFromFile lines m = Some (g, m') ∧
    for_each lines read_line ([], m) = (edges, m') ∧
    e_w <$> edges = line_weight <$> lines ∧
    ∀ u, 0 ≤ u < num_nodes g →
         ∃ lo hi,
           vget (row_ptr g) u = Some lo ∧
           vget (row_ptr g) (u + 1) = Some hi ∧
           slice lo hi (col_indices g) = e_v <$> filter_src edges u ∧
           slice lo hi (edge_weights g) = e_w <$> filter_src edges u ∧
           (filter_src edges u = [] →
            lo = hi ∧ vget (out_weight_sum g) u = Some 0%float ∧
            has_out g u = false).
Proof.
  intros Hok.
  destruct (loadGraphFromFile_spec lines m Hok)
    as (g & m' & edges & Hl & Hread & _ & Hedges & Hw & Hlen & Hcsr).
  exists g, m', edges. split_and!; try done.
  intros u Hu. rewrite (csr_nodes _ _ _ Hcsr), Hlen in Hu.
  fold (getNumNodes m') in Hu.
  destruct (csr_of_row _ _ _ u _ Hcsr (vget_adj_rows _ edges u Hu))
    as (Hlo & Hhi & Hcols & Hws & Hows).
  eexists _, _. split; [done|]. split; [done|].
  unfold row_of in *. fold (filter_src edges u) in *.
  rewrite <-!list_fmap_compose in Hcols, Hws.
  split; [done|]. split; [done|].
  intros Hempty. rewrite Hempty in *. simpl in *.
  split; [lia|]. split; [done|]. unfold has_out. by rewrite Hows.
Qed.

Lemma loader_rows_in_input_order_witness :
  mapper_ok new_mapper ∧
  ∃ g m' edges,
    loadGraphFromFile ex_lines new_mapper = Some (g, m') ∧
    for_each ex_lines read_line ([], new_mapper) = (edges, m') ∧
    e_w <$> edges = line_weight <$> ex_lines ∧
    ∀ u, 0 ≤ u < num_nodes g →
         ∃ lo hi,
           vget (row_ptr g) u = Some lo ∧
           vget (row_ptr g) (u + 1) = Some hi ∧
           slice lo hi (col_indices g) = e_v <$> filter_src edges u ∧
           slice lo hi (edge_weights g) = e_w <$> filter_src edges u ∧
           (filter_src edges u = [] →
            lo = hi ∧ vget (out_weight_sum g) u = Some 0%float ∧
            has_out g u = false).
Proof.
  split; [apply new_mapper_ok|].
  apply (loader_rows_in_input_order ex_lines new_mapper), new_mapper_ok.
Defined.

(** X5. Whatever the dataset, the graph the loader builds is well formed:
    the vectors have the sizes the node and edge counts call for, every
    row pointer lies within the edge arrays and every stored destination
    is a node of the graph, so that no index the engines form from the
    graph is out of range. *)
Theorem loader_graph_well_formed (lines : list edge_line) (m : NodeMapper) :
  mapper_ok m →
  ∃ g m', loadGraphFromFile lines m = Some (g, m') ∧ wf_graph g ∧
          Z.of_nat (length (col_indices g)) = num_edges g.
Proof.
  intros Hok.
  destruct (loadGraphFromFile_spec lines m Hok)
    as (g & m' & edges & Hl & _ & _ & Hedges & Hw & Hlen & Hcsr).
  exists g, m'. split; [done|]. split.
  - by apply (loadGraphFromFile_wf lines m g m').
  - rewrite (csr_cols _ _ _ Hcsr), (csr_edges _ _ _ Hcsr).
    rewrite concat_fmap_fst, length_fmap, concat_adj_rows, length_fmap;
      [done|unfold getNumNodes; lia|].
    eapply Forall_impl; [done|]. by intros e [? _].
Qed.

Lemma loader_graph_well_formed_witness :
  mapper_ok new_mapper ∧
  ∃ g m', loadGraphFromFile cycle_lines new_mapper = Some (g, m') ∧
          wf_graph g ∧ Z.of_nat (length (col_indices g)) = num_edges g.
Proof.
  split; [apply new_mapper_ok|].
  apply (loader_graph_well_formed cycle_lines new_mapper), new_mapper_ok.
Defined.

(** ** More on the power iteration *)

Lemma power_iteration_spec g alpha epsilon p :
  wf_graph g → length p = Z.to_nat (num_nodes g) →
  ∀ n i r rn c,
    length r = Z.to_nat (num_nodes g) → length rn = Z.to_nat (num_nodes g) →
    ∃ (k : nat) st_k,
      (1 ≤ k ≤ S n)%nat ∧
      sweeps g alpha p k (r, rn) = Some st_k ∧
      length st_k.1 = Z.to_nat (num_nodes g) ∧
      for_iter_break (S n) i
        (PPREngine.iteration g alpha epsilon (num_nodes g) p) (r, rn, c)
      = Some (st_k.1, st_k.2, i + Z.of_nat k) ∧
      (∀ j, (S j < k)%nat →
            ∃ st_j r' d,
              sweeps g alpha p j (r, rn) = Some st_j ∧
              PPREngine.sweep g alpha (num_nodes g) p st_j.1 st_j.2
              = Some (r', d) ∧ (d <? epsilon)%float = false) ∧
      ((k < S n)%nat →
       ∃ st_j r' d,
         sweeps g alpha p (k - 1) (r, rn) = Some st_j ∧
         PPREngine.sweep g alpha (num_nodes g) p st_j.1 st_j.2
         = Some (r', d) ∧ (d <? epsilon)%float = true).
Proof.
  intros Hwf Hp. induction n as [|n IH]; intros i r rn c Hr Hrn;
    destruct (sweep_spec g alpha p r rn Hwf Hr Hp Hrn)
      as (sc & r' & _ & _ & Hsweep & Hlen & _);
    set (d := fsum _) in Hsweep;
    cbn [for_iter_break];
    rewrite (iteration_sweep _ _ epsilon _ i _ _ c _ _ Hsweep);
    destruct (d <? epsilon)%float eqn:Hd; cbn [mbind option_bind].
  1-3: exists 1%nat, (r', r'); split_and!; try done; try lia;
    try (simpl; by rewrite Hsweep); try (intros _; by exists (r, rn), r', d).
  destruct (IH (i + 1) r' r' (i + 1) Hlen Hlen)
    as (k & st_k & Hk & Hsw & Hlk & Hrun & Hbefore & Hat).
  exists (S k), st_k. split_and!; try done; try lia.
  - simpl. rewrite Hsweep. by simpl.
  - cbn [for_iter_break] in Hrun. rewrite Hrun. do 2 f_equal. lia.
  - intros j Hj. destruct j as [|j]; [by exists (r, rn), r', d|].
    destruct (Hbefore j) as (st_j & r'' & d' & ? & ? & ?); [lia|].
    exists st_j, r'', d'. split; [|done]. simpl. rewrite Hsweep. by simpl.
  - intros Hlt. destruct Hat as (st_j & r'' & d' & Hj & ? & ?); [lia|].
    exists st_j, r'', d'. split; [|done].
    destruct k as [|k]; [lia|].
    replace (S (S k) - 1)%nat with (S k) by lia.
    replace (S k - 1)%nat with k in Hj by lia.
    simpl. rewrite Hsweep. by simpl.
Qed.

(** X6. The iteration count is the 1-based number of the first sweep whose
    L1 difference is below epsilon, or 100 when there is none, and the
    scores are the iterate after that many sweeps, a vector of length
    [N]. *)
Theorem ppr_stops_at_first_convergence (g : CSRGraph) (seeds : list Z)
  (alpha epsilon : float) :
  wf_graph g → Forall (λ id, 0 ≤ id) seeds →
  ∃ (k : nat) r,
    (1 ≤ k ≤ 100)%nat ∧
    nth_iterate g seeds alpha k = Some r ∧
    length r = Z.to_nat (num_nodes g) ∧
    (∀ start end_,
       PPREngine.compute start end_ g seeds alpha epsilon
       = Some {| scores := r; duration_us := end_ - start;
                 iterations := Z.of_nat k |}) ∧
    (∀ j, (S j < k)%nat →
          ∃ d, nth_diff g seeds alpha j = Some d ∧
               (d <? epsilon)%float = false) ∧
    ((k < 100)%nat →
     ∃ d, nth_diff g seeds alpha (k - 1) = Some d ∧
          (d <? epsilon)%float = true).
Proof.
  intros Hwf Hseeds. pose proof Hwf as (HN & _).
  pose proof (personalization_spec seeds (num_nodes g) HN Hseeds) as Hp.
  assert (valloc (num_nodes g) 0%float
          = Some (replicate (Z.to_nat (num_nodes g)) 0%float)) as Hv.
  { unfold valloc. by rewrite bool_decide_eq_true_2. }
  set (p := mark (num_nodes g) (seed_mass seeds) seeds) in *.
  set (zeros := replicate (Z.to_nat (num_nodes g)) 0%float) in *.
  destruct (power_iteration_spec g alpha epsilon p Hwf (length_mark _ _ _)
              99 0 p zeros 0 (length_mark _ _ _) (length_replicate _ _))
    as (k & [r rn] & Hk & Hsw & Hlk & Hrun & Hbefore & Hat).
  exists k, r. split; [lia|]. split_and!.
  - unfold nth_iterate. rewrite Hp. cbn [mbind option_bind].
    rewrite Hv. cbn [mbind option_bind]. by rewrite Hsw.
  - done.
  - intros start end_. unfold PPREngine.compute. rewrite Hp.
    cbn [mbind option_bind]. rewrite Hv. cbn [mbind option_bind].
    unfold for_range_break. change (Z.to_nat (100 - 0)) with 100%nat.
    rewrite Hrun. simpl. do 2 f_equal.
  - intros j Hj. destruct (Hbefore j Hj) as (st_j & r' & d & Hj1 & Hj2 & Hj3).
    exists d. split; [|done]. unfold nth_diff. rewrite Hp.
    cbn [mbind option_bind]. rewrite Hv. cbn [mbind option_bind].
    rewrite Hj1. cbn [mbind option_bind]. by rewrite Hj2.
  - intros Hlt. destruct Hat as (st_j & r' & d & Hj1 & Hj2 & Hj3); [lia|].
    exists d. split; [|done]. unfold nth_diff. rewrite Hp.
    cbn [mbind option_bind]. rewrite Hv. cbn [mbind option_bind].
    rewrite Hj1. cbn [mbind option_bind]. by rewrite Hj2.
Qed.

Lemma ppr_stops_at_first_convergence_witness :
  wf_graph cycle_graph ∧ Forall (λ id, 0 ≤ id) [0] ∧
  ∃ (k : nat) r,
    (1 ≤ k ≤ 100)%nat ∧
    nth_iterate cycle_graph [0] 0.15 k = Some r ∧
    length r = Z.to_nat (num_nodes cycle_graph) ∧
    (∀ start end_,
       PPREngine.compute start end_ cycle_graph [0] 0.15 1e-6
       = Some {| scores := r; duration_us := end_ - start;
                 iterations := Z.of_nat k |}) ∧
    (∀ j, (S j < k)%nat →
          ∃ d, nth_diff cycle_graph [0] 0.15 j = Some d ∧
               (d <? 1e-6)%float = false) ∧
    ((k < 100)%nat →
     ∃ d, nth_diff cycle_graph [0] 0.15 (k - 1) = Some d ∧
          (d <? 1e-6)%float = true).
Proof.
  assert (Forall (λ id, 0 ≤ id) [0]) as Hseeds.
  { apply Forall_singleton. lia. }
  split; [apply cycle_graph_wf|]. split; [exact Hseeds|].
  exact (ppr_stops_at_first_convergence cycle_graph [0] 0.15 1e-6
           cycle_graph_wf Hseeds).
Defined.

Lemma for_each_opt_fails {St X : Type} (body : St → X → option St)
  (xs : list X) (x : X) (s : St) :
  x ∈ xs → (∀ t, body t x = None) → for_each_opt xs body s = None.
Proof.
  intros Hx Hfail. revert s.
  induction xs as [|y xs IH]; intros s; [by apply elem_of_nil in Hx|].
  simpl. destruct (body s y) as [t|] eqn:Hy; [|done]. simpl.
  apply elem_of_cons in Hx as [->|Hx]; [congruence|by apply IH].
Qed.

(** X7. A negative seed id passes the guard [id < N] and indexes the
    personalization vector below its first element: the call has
    undefined behaviour, whatever the graph and the other seeds. *)
Theorem ppr_negative_seed_faults (start end_ : Z) (g : CSRGraph)
  (seeds : list Z) (alpha epsilon : float) (id : Z) :
  id ∈ seeds → id < 0 →
  PPREngine.compute start end_ g seeds alpha epsilon = None.
Proof.
  intros Hin Hneg. unfold PPREngine.compute, PPREngine.personalization.
  destruct (valloc (num_nodes g) 0%float) as [p|] eqn:Hv; [|done].
  apply valloc_Some in Hv as [HN _]. cbn [mbind option_bind].
  destruct seeds as [|id0 seeds0] eqn:Hs; [by apply elem_of_nil in Hin|].
  rewrite <-Hs in *.
  rewrite (for_each_opt_fails _ seeds id p Hin); [done|].
  intros t. rewrite bool_decide_eq_true_2 by lia.
  unfold vset. by rewrite bool_decide_eq_false_2 by lia.
Qed.

Lemma ppr_negative_seed_faults_witness :
  -1 ∈ [0; -1] ∧ -1 < 0 ∧
  PPREngine.compute 0 5 cycle_graph [0; -1] 0.15 1e-6 = None.
Proof.
  assert (-1 ∈ [0; -1]) as Hin.
  { apply (bool_decide_unpack _). by vm_compute. }
  split; [exact Hin|]. split; [lia|].
  apply (ppr_negative_seed_faults 0 5 cycle_graph [0; -1] 0.15 1e-6 (-1) Hin).
  lia.
Defined.

(** ** More on the random walks *)

Lemma fold_add_acc (l : list Z) (a : Z) :
  fold_left Z.add l a = a + fold_left Z.add l 0.
Proof.
  revert a. induction l as [|x l IH]; intros a; cbn [fold_left]; [lia|].
  rewrite (IH (a + x)), (IH (0 + x)). lia.
Qed.

Lemma total_visits_app l1 l2 :
  total_visits (l1 ++ l2) = total_visits l1 + total_visits l2.
Proof.
  unfold total_visits, for_each. by rewrite fold_left_app, fold_add_acc.
Qed.

Lemma total_visits_cons x l : total_visits (x :: l) = x + total_visits l.
Proof. unfold total_visits, for_each. simpl. by rewrite fold_add_acc. Qed.

Lemma total_visits_insert l (i : nat) c c' :
  l !! i = Some c → total_visits (<[i := c']> l) = total_visits l - c + c'.
Proof.
  intros Hl. pose proof (lookup_lt_Some _ _ _ Hl).
  rewrite insert_take_drop by done.
  rewrite <-(take_drop_middle l i c Hl) at 3.
  rewrite !total_visits_app, !total_visits_cons. lia.
Qed.

Lemma total_visits_zeros n : total_visits (replicate n 0) = 0.
Proof.
  induction n as [|n IH]; [done|].
  simpl. by rewrite total_visits_cons, IH.
Qed.

Lemma count_visit_total visits curr visits' :
  MonteCarloEngine.count_visit visits curr = Some visits' →
  total_visits visits' = total_visits visits + 1.
Proof.
  unfold MonteCarloEngine.count_visit.
  destruct (vget visits curr) as [c|] eqn:Hc; [|done]. simpl.
  case_bool_decide; [|done]. intros [_ ->]%vset_Some.
  apply vget_Some in Hc as [_ Hc].
  rewrite (total_visits_insert _ _ _ _ Hc). lia.
Qed.

Section walk_totals.
Context {G : Type}.
Variable prob : G → float * G.
Variable seed_dist : Z → G → Z * G.
Variables (g : CSRGraph) (seeds : list Z) (alpha : float).

Lemma walk_total fuel visits curr gen visits' gen' :
  MonteCarloEngine.walk prob g alpha fuel visits curr gen
  = Ok (visits', gen') →
  total_visits visits + 1 ≤ total_visits visits'.
Proof.
  revert visits curr gen.
  induction fuel as [|fuel IH]; intros visits curr gen; [done|].
  cbn [MonteCarloEngine.walk].
  destruct (MonteCarloEngine.count_visit visits curr) as [v1|] eqn:Hc;
    [|done].
  apply count_visit_total in Hc. cbn [mbind outcome_bind defined].
  destruct (prob gen) as [x gen1].
  destruct (x <? alpha)%float; [intros [= <- <-]; lia|].
  destruct (vget (out_weight_sum g) curr) as [ows|]; [|done].
  cbn [mbind outcome_bind defined].
  destruct (ows =? 0)%float; [intros [= <- <-]; lia|].
  destruct (prob gen1) as [y gen2].
  destruct (MonteCarloEngine.select_neighbor g curr _) as [next|]; [|done].
  cbn [mbind outcome_bind defined]. intros Hw. apply IH in Hw. lia.
Qed.

Lemma simulate_total fuel n visits gen visits' gen' :
  MonteCarloEngine.simulate prob seed_dist g seeds alpha fuel n visits gen
  = Ok (visits', gen') →
  total_visits visits + Z.of_nat n ≤ total_visits visits'.
Proof.
  revert visits gen. induction n as [|n IH]; intros visits gen.
  - intros [= <- <-]. lia.
  - cbn [MonteCarloEngine.simulate].
    destruct (seed_dist _ gen) as [idx gen1].
    destruct (vget seeds idx) as [curr|]; [|done].
    cbn [mbind outcome_bind defined].
    destruct (MonteCarloEngine.walk prob g alpha fuel visits curr gen1)
      as [[v1 gen2]| |] eqn:Hw; [|done|done].
    cbn [mbind outcome_bind]. intros Hs. apply IH in Hs.
    apply walk_total in Hw. lia.
Qed.
End walk_totals.

(** X8. Every walk records at least one visit: when the random-walk
    engine returns from a run with seeds, the visit counters add up to at
    least the number of walks, so that a positive walk count always
    reaches the normalization. *)
Theorem mc_every_walk_is_counted {G : Type} (prob : G → float * G)
  (seed_dist : Z → G → Z * G) (start end_ : Z) (g : CSRGraph)
  (seeds : list Z) (alpha : float) (fuel : nat) (total_walks : Z) (gen : G)
  (res : AlgorithmResult) (gen' : G) :
  seeds ≠ [] →
  MonteCarloEngine.compute prob seed_dist start end_ g seeds alpha fuel
    total_walks gen = Ok (res, gen') →
  ∃ visits,
    MonteCarloEngine.simulate prob seed_dist g seeds alpha fuel
      (Z.to_nat total_walks) (replicate (Z.to_nat (num_nodes g)) 0) gen
    = Ok (visits, gen') ∧
    total_walks ≤ total_visits visits ∧
    iterations res = total_walks.
Proof.
  intros Hseeds. unfold MonteCarloEngine.compute.
  destruct (valloc (num_nodes g) 0) as [zeros|] eqn:Hz; [|done].
  apply valloc_Some in Hz as [HN ->]. cbn [mbind outcome_bind defined].
  destruct seeds as [|id seeds']; [done|].
  destruct (MonteCarloEngine.simulate _ _ _ _ _ _ _ _ _)
    as [[visits gen1]| |] eqn:Hsim; [|done|done].
  cbn [mbind outcome_bind].
  destruct (MonteCarloEngine.normalize _ visits) as [sc|]; [|done].
  cbn [mbind outcome_bind defined]. intros [= <- <-].
  exists visits. split; [done|]. split; [|done].
  apply simulate_total in Hsim. rewrite total_visits_zeros in Hsim. lia.
Qed.

Lemma mc_every_walk_is_counted_witness :
  [0; 1; 2; 3; 4; 5] ≠ [] ∧
  MonteCarloEngine.compute tape_prob tape_seed_dist 0 9 six_nodes
    [0; 1; 2; 3; 4; 5] 1 1 6 ([], [0; 1; 2; 3; 4; 5])
  = Ok ({| scores := replicate 6 (1 / 6)%float; duration_us := 9;
           iterations := 6 |}, ([], [])) ∧
  ∃ visits,
    MonteCarloEngine.simulate tape_prob tape_seed_dist six_nodes
      [0; 1; 2; 3; 4; 5] 1 1 (Z.to_nat 6)
      (replicate (Z.to_nat (num_nodes six_nodes)) 0) ([], [0; 1; 2; 3; 4; 5])
    = Ok (visits, ([], [])) ∧
    6 ≤ total_visits visits ∧
    iterations {| scores := replicate 6 (1 / 6)%float; duration_us := 9;
                  iterations := 6 |} = 6.
Proof.
  split; [discriminate|]. split; [reflexivity|].
  apply (mc_every_walk_is_counted tape_prob tape_seed_dist 0 9 six_nodes
           [0; 1; 2; 3; 4; 5] 1 1 6 ([], [0; 1; 2; 3; 4; 5])
           {| scores := replicate 6 (1 / 6)%float; duration_us := 9;
              iterations := 6 |} ([], []));
    [discriminate|reflexivity].
Defined.

Lemma select_neighbor_in_range g curr target :
  wf_graph g → 0 ≤ curr < num_nodes g →
  ∃ next, MonteCarloEngine.select_neighbor g curr target = Some next ∧
          0 ≤ next < num_nodes g.
Proof.
  intros Hwf Hcurr. pose proof Hwf as (HN & Hrl & Hol & Hel & Hrp & Hcol).
  destruct (vget_is_Some (row_ptr g) curr) as [lo Hlo]; [lia|].
  destruct (vget_is_Some (row_ptr g) (curr + 1)) as [hi Hhi]; [lia|].
  pose proof (wf_row_bounds g Hwf curr lo Hlo) as [Hlo0 _].
  pose proof (wf_row_bounds g Hwf (curr + 1) hi Hhi) as [_ HhiE].
  destruct (select_neighbor_spec g curr target lo hi Hlo Hhi Hlo0 HhiE Hel)
    as (next & Hsel & Hres).
  exists next. split; [done|].
  destruct Hres as [(k & _ & Hk)|[_ ->]]; [|done].
  apply vget_Some in Hk as [_ Hk].
  by apply (Forall_lookup_1 _ _ _ _ Hcol Hk).
Qed.

Lemma normalize_total N visits :
  0 ≤ N → length visits = Z.to_nat N →
  is_Some (MonteCarloEngine.normalize N visits).
Proof.
  intros HN Hlen. unfold MonteCarloEngine.normalize, valloc.
  rewrite (bool_decide_eq_true_2 (0 ≤ N)) by done. cbn [mbind option_bind].
  case_bool_decide; [|by eexists].
  destruct (for_range_inv (λ _ (sc : list float), length sc = Z.to_nat N)
              0 N
              (λ i scores, v ← vget visits i;
                 vset scores i
                   (of_count v / of_count (for_each visits Z.add 0%Z))%float)
              (replicate (Z.to_nat N) 0%float)) as (sc & Hrun & _);
    [done|apply length_replicate| |by rewrite Hrun].
  intros j t Hj Ht.
  destruct (vget_is_Some visits j) as [c Hc]; [lia|].
  rewrite Hc. simpl. rewrite vset_in_range by lia.
  eexists. split; [done|]. by rewrite length_insert.
Qed.

Section walk_safety.
Context {G : Type}.
Variable prob : G → float * G.
Variable seed_dist : Z → G → Z * G.
Variables (g : CSRGraph) (seeds : list Z) (alpha : float).
Hypothesis Hwf : wf_graph g.
Hypothesis Hseeds : Forall (λ id, 0 ≤ id < num_nodes g) seeds.
Hypothesis Hdist : ∀ b gen, 0 ≤ b → 0 ≤ (seed_dist b gen).1 ≤ b.

Lemma walk_no_fault fuel visits curr gen B :
  length visits = Z.to_nat (num_nodes g) → 0 ≤ curr < num_nodes g →
  Forall (λ c, c ≤ B) visits → B + Z.of_nat fuel ≤ INT_MAX →
  match MonteCarloEngine.walk prob g alpha fuel visits curr gen with
  | Ok (visits', _) =>
      length visits' = Z.to_nat (num_nodes g) ∧
      Forall (λ c, c ≤ B + Z.of_nat fuel) visits'
  | Undefined => False
  | OutOfFuel => True
  end.
Proof.
  revert visits curr gen B.
  induction fuel as [|fuel IH]; intros visits curr gen B Hlen Hcurr HB Hfuel;
    [done|].
  pose proof Hwf as (HN & Hrl & Hol & Hel & Hrp & Hcol).
  cbn [MonteCarloEngine.walk]. unfold MonteCarloEngine.count_visit.
  destruct (vget_is_Some visits curr) as [c Hc]; [lia|].
  rewrite Hc. cbn [mbind option_bind].
  pose proof Hc as [_ Hc']%vget_Some.
  pose proof (Forall_lookup_1 _ _ _ _ HB Hc') as HcB. simpl in HcB.
  rewrite (bool_decide_eq_true_2 (c < INT_MAX)) by lia.
  rewrite vset_in_range by lia. cbn [mbind outcome_bind defined].
  assert (Forall (λ c, c ≤ B + 1) (<[Z.to_nat curr := c + 1]> visits)) as HB1.
  { apply Forall_insert; [|lia].
    eapply Forall_impl; [done|]. intros x ?. simpl in *. lia. }
  assert (∀ f : nat, (f ≤ S fuel)%nat → 
            Forall (λ c, c ≤ B + Z.of_nat (S fuel))
              (<[Z.to_nat curr := c + 1]> visits)) as Hdone.
  { intros _ _. eapply Forall_impl; [exact HB1|]. intros x ?. simpl in *. lia. }
  destruct (prob gen) as [x gen1].
  destruct (x <? alpha)%float.
  { split; [by rewrite length_insert|]. by apply (Hdone O); lia. }
  destruct (vget_is_Some (out_weight_sum g) curr) as [ows Hows]; [lia|].
  rewrite Hows. cbn [mbind outcome_bind defined].
  destruct (ows =? 0)%float.
  { split; [by rewrite length_insert|]. by apply (Hdone O); lia. }
  destruct (prob gen1) as [y gen2].
  destruct (select_neighbor_in_range g curr (y * ows)%float Hwf Hcurr)
    as (next & Hsel & Hnext).
  rewrite Hsel. cbn [mbind outcome_bind defined].
  specialize (IH (<[Z.to_nat curr := c + 1]> visits) next gen2 (B + 1)).
  destruct (MonteCarloEngine.walk prob g alpha fuel _ next gen2)
    as [[v' gen']| |]; [|apply IH|done]; try (by rewrite ?length_insert);
    try lia.
  destruct IH as [Hl HF]; [by rewrite length_insert|done|done|lia|].
  split; [done|]. eapply Forall_impl; [done|]. intros z ?. simpl in *. lia.
Qed.

Lemma simulate_no_fault fuel n visits gen B :
  seeds ≠ [] →
  length visits = Z.to_nat (num_nodes g) →
  Forall (λ c, c ≤ B) visits →
  B + Z.of_nat n * Z.of_nat fuel ≤ INT_MAX →
  match MonteCarloEngine.simulate prob seed_dist g seeds alpha fuel n visits
          gen with
  | Ok (visits', _) => length visits' = Z.to_nat (num_nodes g)
  | Undefined => False
  | OutOfFuel => True
  end.
Proof.
  intros Hne. revert visits gen B.
  induction n as [|n IH]; intros visits gen B Hlen HB Hbudget; [done|].
  cbn [MonteCarloEngine.simulate].
  assert (0 < Z.of_nat (length seeds)) as Hpos.
  { destruct seeds; [done|]. simpl. lia. }
  pose proof (Hdist (Z.of_nat (length seeds) - 1) gen ltac:(lia)) as Hidx.
  destruct (seed_dist _ gen) as [idx gen1]. simpl in Hidx.
  destruct (vget_is_Some seeds idx) as [curr Hcurr]; [lia|].
  rewrite Hcurr. cbn [mbind outcome_bind defined].
  pose proof Hcurr as [_ Hcurr']%vget_Some.
  pose proof (Forall_lookup_1 _ _ _ _ Hseeds Hcurr') as Hin. simpl in Hin.
  pose proof (walk_no_fault fuel visits curr gen1 B Hlen Hin HB) as Hw.
  destruct (MonteCarloEngine.walk prob g alpha fuel visits curr gen1)
    as [[v1 gen2]| |]; [|apply Hw; lia|done].
  destruct Hw as [Hl1 HB1]; [lia|]. cbn [mbind outcome_bind].
  apply (IH v1 gen2 (B + Z.of_nat fuel)); [done|done|lia].
Qed.
End walk_safety.

Lemma mc_compute_no_fault {G : Type} (prob : G → float * G)
  (seed_dist : Z → G → Z * G) (start end_ : Z) (g : CSRGraph)
  (seeds : list Z) (alpha : float) (fuel : nat) (total_walks : Z) (gen : G) :
  wf_graph g →
  Forall (λ id, 0 ≤ id < num_nodes g) seeds →
  (∀ b gen, 0 ≤ b → 0 ≤ (seed_dist b gen).1 ≤ b) →
  Z.of_nat (Z.to_nat total_walks) * Z.of_nat fuel ≤ INT_MAX →
  match MonteCarloEngine.compute prob seed_dist start end_ g seeds alpha fuel
          total_walks gen with
  | Ok (res, _) => length (scores res) = Z.to_nat (num_nodes g)
  | Undefined => False
  | OutOfFuel => True
  end.
Proof.
  intros Hwf Hseeds Hdist Hbudget. pose proof Hwf as (HN & _).
  unfold MonteCarloEngine.compute, valloc.
  rewrite (bool_decide_eq_true_2 (0 ≤ num_nodes g)) by done. cbn [mbind outcome_bind defined].
  destruct seeds as [|id seeds'] eqn:Hs.
  { simpl. apply length_replicate. }
  rewrite <-Hs in *.
  pose proof (simulate_no_fault prob seed_dist g seeds alpha Hwf Hseeds Hdist
                fuel (Z.to_nat total_walks)
                (replicate (Z.to_nat (num_nodes g)) 0) gen 0) as Hsim.
  destruct (MonteCarloEngine.simulate _ _ _ _ _ _ _ _ _)
    as [[visits gen1]| |]; [|apply Hsim|done].
  - cbn [mbind outcome_bind].
    assert (length visits = Z.to_nat (num_nodes g)) as Hlen.
    { apply Hsim; [by rewrite Hs|apply length_replicate| |lia].
      apply Forall_replicate. lia. }
    destruct (normalize_total (num_nodes g) visits HN Hlen) as [sc Hsc].
    rewrite Hsc. cbn [mbind outcome_bind defined].
    by apply normalize_spec in Hsc as [? _].
  - by rewrite Hs.
  - apply length_replicate.
  - apply Forall_replicate. lia.
  - lia.
Qed.

(** X9. The random-walk engine indexes no vector out of range and
    overflows no counter when the graph is well formed, the seeds are
    nodes of the graph, the seed distribution draws within its bounds and
    the walks are short enough for an [int] counter: it returns a score
    vector of length [N], or a walk is still going when the step budget
    ends. *)
Theorem mc_never_out_of_range {G : Type} (prob : G → float * G)
  (seed_dist : Z → G → Z * G) (start end_ : Z) (g : CSRGraph)
  (seeds : list Z) (alpha : float) (fuel : nat) (total_walks : Z) (gen : G) :
  wf_graph g →
  Forall (λ id, 0 ≤ id < num_nodes g) seeds →
  (∀ b gen, 0 ≤ b → 0 ≤ (seed_dist b gen).1 ≤ b) →
  Z.of_nat (Z.to_nat total_walks) * Z.of_nat fuel ≤ INT_MAX →
  match MonteCarloEngine.compute prob seed_dist start end_ g seeds alpha fuel
          total_walks gen with
  | Ok (res, _) => length (scores res) = Z.to_nat (num_nodes g)
  | Undefined => False
  | OutOfFuel => True
  end.
Proof.
  intros Hwf Hseeds Hdist Hbudget. by apply mc_compute_no_fault.
Qed.

Lemma mc_never_out_of_range_witness :
  wf_graph chain_graph ∧
  Forall (λ id, 0 ≤ id < num_nodes chain_graph) [0; 1] ∧
  (∀ b gen, 0 ≤ b → 0 ≤ (counting_seed_dist b gen).1 ≤ b) ∧
  Z.of_nat (Z.to_nat 1500) * Z.of_nat 10 ≤ INT_MAX ∧
  match MonteCarloEngine.compute counting_prob counting_seed_dist 0 9
          chain_graph [0; 1] 0.15 10 1500 0%nat with
  | Ok (res, _) => length (scores res) = Z.to_nat (num_nodes chain_graph)
  | Undefined => False
  | OutOfFuel => True
  end.
Proof.
  assert (Forall (λ id, 0 ≤ id < num_nodes chain_graph) [0; 1]) as Hseeds.
  { apply (bool_decide_unpack _). by vm_compute. }
  assert (∀ b (gen : nat), 0 ≤ b → 0 ≤ (counting_seed_dist b gen).1 ≤ b)
    as Hdist.
  { intros b gen Hb. simpl. lia. }
  assert (Z.of_nat (Z.to_nat 1500) * Z.of_nat 10 ≤ INT_MAX) as Hbudget.
  { by vm_compute. }
  split; [apply chain_graph_wf|]. split; [exact Hseeds|].
  split; [exact Hdist|]. split; [exact Hbudget|].
  exact (mc_never_out_of_range counting_prob counting_seed_dist 0 9
           chain_graph [0; 1] 0.15 10 1500 0%nat chain_graph_wf Hseeds Hdist
           Hbudget).
Defined.

(** X10. A walk budget of zero, or a negative one, makes no walk: with
    seeds, the engine draws nothing, returns an all-zero score vector and
    reports the budget it was given as the walk count. *)
Theorem mc_no_walks_no_scores {G : Type} (prob : G → float * G)
  (seed_dist : Z → G → Z * G) (start end_ : Z) (g : CSRGraph)
  (seeds : list Z) (alpha : float) (fuel : nat) (total_walks : Z) (gen : G) :
  0 ≤ num_nodes g → seeds ≠ [] → total_walks ≤ 0 →
  MonteCarloEngine.compute prob seed_dist start end_ g seeds alpha fuel
    total_walks gen
  = Ok ({| scores := replicate (Z.to_nat (num_nodes g)) 0%float;
           duration_us := end_ - start; iterations := total_walks |}, gen).
Proof.
  intros HN Hseeds Hw. unfold MonteCarloEngine.compute, valloc.
  rewrite (bool_decide_eq_true_2 (0 ≤ num_nodes g)) by done. cbn [mbind outcome_bind defined].
  destruct seeds as [|id seeds']; [done|].
  replace (Z.to_nat total_walks) with O by lia.
  cbn [MonteCarloEngine.simulate mbind outcome_bind].
  unfold MonteCarloEngine.normalize, valloc.
  rewrite (bool_decide_eq_true_2 (0 ≤ num_nodes g)) by done. cbn [mbind option_bind].
  fold (total_visits (replicate (Z.to_nat (num_nodes g)) 0)).
  rewrite total_visits_zeros. by rewrite bool_decide_eq_false_2 by lia.
Qed.

Lemma mc_no_walks_no_scores_witness :
  0 ≤ num_nodes cycle_graph ∧ [0] ≠ [] ∧ -3 ≤ 0 ∧
  MonteCarloEngine.compute counting_prob counting_seed_dist 0 9 cycle_graph
    [0] 0.15 10 (-3) 0%nat
  = Ok ({| scores := replicate (Z.to_nat (num_nodes cycle_graph)) 0%float;
           duration_us := 9 - 0; iterations := -3 |}, 0%nat).
Proof.
  split; [simpl; lia|]. split; [discriminate|]. split; [lia|].
  apply (mc_no_walks_no_scores counting_prob counting_seed_dist 0 9
           cycle_graph [0] 0.15 10 (-3) 0%nat);
    [simpl; lia|discriminate|lia].
Defined.

(** ** The seed loop *)

Lemma read_seeds_done typed rest rand acc m :
  mapper_bij m → Forall seed_name typed →
  ∃ ids m',
    read_seeds (typed ++ "done"%string :: rest) rand acc m
    = Ok (acc ++ ids, m') ∧
    mapper_bij m' ∧ keeps_names m m' ∧
    Forall2 (λ n id, vget (id_to_name m') id = Some n) typed ids.
Proof.
  revert acc m. induction typed as [|n typed IH]; intros acc m Hbij Hty.
  - exists [], m. cbn. rewrite app_nil_r. split_and!; try done. by intros ??.
  - apply Forall_cons in Hty as [[Hd Hr] Hty].
    cbn [app read_seeds].
    rewrite !bool_decide_eq_false_2 by done.
    destruct (getId n m) as [id m1] eqn:Hid.
    destruct (getId_bij _ _ _ _ Hbij Hid) as (Hbij1 & Hn & Hkeep1 & _).
    destruct (IH (acc ++ [id]) m1 Hbij1 Hty)
      as (ids & m' & Hrun & Hbij' & Hkeep' & Hids).
    exists (id :: ids), m'. rewrite Hrun, <-app_assoc.
    split_and!; try done.
    + intros n0 i Hi. by apply Hkeep', Hkeep1.
    + constructor; [|done]. by apply Hkeep', Hbij1.
Qed.

Lemma id_in_old m m' id n :
  mapper_bij m' → keeps_names m m' →
  vget (id_to_name m') id = Some n →
  (id < getNumNodes m ↔ n ∈ id_to_name m).
Proof.
  intros Hbij' Hkeep Hid. pose proof (vget_in_range _ _ _ Hid) as Hr.
  unfold getNumNodes. split.
  - intros Hlt. destruct (vget_is_Some (id_to_name m) id) as [n0 Hn0]; [lia|].
    pose proof (Hkeep _ _ Hn0) as Hn0'. rewrite Hid in Hn0'. simplify_eq.
    apply vget_Some in Hn0 as [_ Hn0]. by apply list_elem_of_lookup_2 in Hn0.
  - intros [i Hi]%list_elem_of_lookup_1.
    pose proof (lookup_lt_Some _ _ _ Hi) as Hlt.
    rewrite <-vget_lookup in Hi. apply Hkeep in Hi.
    apply Hbij' in Hi, Hid. rewrite Hi in Hid. simplify_eq. lia.
Qed.

(** X11. The seed loop turns the words before ["done"] into ids that the
    mapper, as the loop leaves it, names back. A name of the mapper that
    the loop was given keeps its id; any other word is not rejected: it
    gets a fresh id, past the ids of that mapper. *)
Theorem seed_loop_ids (typed rest : list string) (rand : Z)
  (m : NodeMapper) :
  mapper_bij m → Forall seed_name typed →
  ∃ seeds m',
    read_seeds (typed ++ "done"%string :: rest) rand [] m = Ok (seeds, m') ∧
    Forall2 (λ n id, getName id m' = Some n ∧ 0 ≤ id ∧
                     (id < getNumNodes m ↔ n ∈ id_to_name m)) typed seeds ∧
    (∀ n i, 0 ≤ i < getNumNodes m → getName i m = Some n →
            getName i m' = Some n).
Proof.
  intros Hbij Hty.
  destruct (read_seeds_done typed rest rand [] m Hbij Hty)
    as (ids & m' & Hrun & Hbij' & Hkeep & Hids).
  assert (∀ i n, vget (id_to_name m') i = Some n → getName i m' = Some n)
    as Hname'.
  { intros i n Hi. pose proof (vget_in_range _ _ _ Hi). unfold getName.
    by rewrite !bool_decide_eq_true_2 by lia. }
  exists ids, m'. split; [done|]. split.
  - eapply Forall2_impl; [done|]. intros n id Hid. simpl in Hid.
    split; [by apply Hname'|].
    split; [apply vget_in_range in Hid; lia|by apply (id_in_old m m')].
  - intros n i Hi Hn. apply Hname', Hkeep.
    unfold getName, getNumNodes in *.
    by rewrite !bool_decide_eq_true_2 in Hn by lia.
Qed.

Lemma seed_loop_ids_witness :
  mapper_bij new_mapper ∧
  Forall seed_name ["a"; "b"; "a"]%string ∧
  ∃ seeds m',
    read_seeds (["a"; "b"; "a"]%string ++ "done"%string :: ["zz"%string]) 7 []
      new_mapper = Ok (seeds, m') ∧
    Forall2 (λ n id, getName id m' = Some n ∧ 0 ≤ id ∧
                     (id < getNumNodes new_mapper ↔
                      n ∈ id_to_name new_mapper))
      ["a"; "b"; "a"]%string seeds ∧
    (∀ n i, 0 ≤ i < getNumNodes new_mapper → getName i new_mapper = Some n →
            getName i m' = Some n).
Proof.
  assert (Forall seed_name ["a"; "b"; "a"]%string) as Hty.
  { repeat constructor; discriminate. }
  split; [exact new_mapper_bij|]. split; [exact Hty|].
  exact (seed_loop_ids ["a"; "b"; "a"]%string ["zz"%string] 7 new_mapper
           new_mapper_bij Hty).
Defined.

(** X12. ["random"] ends the seed loop with one more seed: the id
    [rand() % size] of a name of the mapper, which stays as it was. On an
    empty mapper the empty name is registered instead and its id 0 becomes
    the seed. *)
Theorem seed_loop_random_pick (rest : list string) (rand : Z)
  (acc : list Z) (m : NodeMapper) :
  mapper_bij m → 0 ≤ rand →
  (id_to_name m ≠ [] →
   read_seeds ("random"%string :: rest) rand acc m
   = Ok (acc ++ [rand `mod` getNumNodes m], m)) ∧
  (id_to_name m = [] →
   ∃ m', read_seeds ("random"%string :: rest) rand acc m
         = Ok (acc ++ [0], m') ∧ id_to_name m' = [""%string]).
Proof.
  intros Hbij Hrand. cbn [read_seeds].
  rewrite bool_decide_eq_false_2 by discriminate.
  rewrite bool_decide_eq_true_2 by done. unfold getRandomNodeName, getNumNodes.
  split.
  - intros Hne. destruct (id_to_name m) as [|n0 names] eqn:Hnames; [done|].
    rewrite <-Hnames.
    assert (0 < Z.of_nat (length (id_to_name m))) as Hpos.
    { rewrite Hnames. simpl. lia. }
    pose proof (Z.mod_pos_bound rand _ Hpos) as Hmod.
    destruct (vget_is_Some (id_to_name m)
                (rand `mod` Z.of_nat (length (id_to_name m)))) as [rnd Hrnd];
      [lia|].
    rewrite Hrnd. cbn [defined mbind outcome_bind].
    apply Hbij in Hrnd. unfold getId. by rewrite Hrnd.
  - intros Hnil. rewrite Hnil. cbn [defined mbind outcome_bind].
    unfold getId.
    destruct (name_to_id m !! ""%string) as [i|] eqn:Hi.
    { apply Hbij in Hi. rewrite Hnil in Hi. by apply vget_Some in Hi as [_ ?]. }
    rewrite Hnil. eexists. split; [done|done].
Qed.

Lemma seed_loop_random_pick_witness :
  mapper_bij (getId "b" (getId "a" new_mapper).2).2 ∧ 0 ≤ 7 ∧
  read_seeds ("random"%string :: []) 7 [5]
    (getId "b" (getId "a" new_mapper).2).2
  = Ok ([5; 1], (getId "b" (getId "a" new_mapper).2).2).
Proof.
  assert (mapper_bij (getId "b" (getId "a" new_mapper).2).2) as Hbij.
  { eapply (getId_bij "b" (getId "a" new_mapper).2); [|apply surjective_pairing].
    eapply (getId_bij "a" new_mapper); [|apply surjective_pairing].
    exact new_mapper_bij. }
  split; [exact Hbij|]. split; [lia|].
  apply (seed_loop_random_pick [] 7 [5]
           (getId "b" (getId "a" new_mapper).2).2 Hbij); [lia|discriminate].
Defined.

(** ** A seed outside the graph in the random walks *)

Lemma mc_seed_outside_walk {G : Type} (prob : G → float * G)
  (seed_dist : Z → G → Z * G) (start end_ : Z) (g : CSRGraph)
  (seeds : list Z) (alpha : float) (fuel : nat) (total_walks : Z) (gen : G)
  (id : Z) :
  0 ≤ num_nodes g → 0 < total_walks →
  vget seeds (seed_dist (Z.of_nat (length seeds) - 1) gen).1 = Some id →
  ¬ (0 ≤ id < num_nodes g) →
  MonteCarloEngine.compute prob seed_dist start end_ g seeds alpha (S fuel)
    total_walks gen = Undefined.
Proof.
  intros HN Hw Hid Hout. unfold MonteCarloEngine.compute, valloc.
  rewrite (bool_decide_eq_true_2 (0 ≤ num_nodes g)) by done.
  cbn [mbind outcome_bind defined].
  destruct seeds as [|id0 seeds'] eqn:Hs.
  { by apply vget_Some in Hid as [_ ?]. }
  rewrite <-Hs in *.
  destruct (Z.to_nat total_walks) as [|n] eqn:Hn; [lia|].
  cbn [MonteCarloEngine.simulate].
  destruct (seed_dist _ gen) as [idx gen1]. simpl in Hid. rewrite Hid.
  cbn [mbind outcome_bind defined MonteCarloEngine.walk].
  unfold MonteCarloEngine.count_visit.
  destruct (vget (replicate (Z.to_nat (num_nodes g)) 0) id) as [c|] eqn:Hc;
    [|done].
  apply vget_in_range in Hc. rewrite length_replicate in Hc. lia.
Qed.

(** X13. The random-walk engine does not check its seeds against the
    graph: when the first walk starts at a seed that is not a node, the
    visit counter of that seed is outside the vector. *)
Theorem mc_seed_outside_graph_faults {G : Type} (prob : G → float * G)
  (seed_dist : Z → G → Z * G) (start end_ : Z) (g : CSRGraph)
  (seeds : list Z) (alpha : float) (fuel : nat) (total_walks : Z) (gen : G)
  (id : Z) :
  0 ≤ num_nodes g → 0 < total_walks →
  vget seeds (seed_dist (Z.of_nat (length seeds) - 1) gen).1 = Some id →
  ¬ (0 ≤ id < num_nodes g) →
  MonteCarloEngine.compute prob seed_dist start end_ g seeds alpha (S fuel)
    total_walks gen = Undefined.
Proof. apply mc_seed_outside_walk. Qed.

Lemma mc_seed_outside_graph_faults_witness :
  0 ≤ num_nodes chain_graph ∧ 0 < 1500 ∧
  vget [3]
    (counting_seed_dist (Z.of_nat (length [3]) - 1) 0%nat).1 = Some 3 ∧
  ¬ (0 ≤ 3 < num_nodes chain_graph) ∧
  MonteCarloEngine.compute counting_prob counting_seed_dist 0 9 chain_graph
    [3] 0.15 (S 9) 1500 0%nat = Undefined.
Proof.
  assert (¬ (0 ≤ 3 < num_nodes chain_graph)) as Hout by (simpl; lia).
  split; [simpl; lia|]. split; [lia|]. split; [reflexivity|].
  split; [exact Hout|].
  apply (mc_seed_outside_graph_faults counting_prob counting_seed_dist 0 9
           chain_graph [3] 0.15 9 1500 0%nat 3);
    [simpl; lia|lia|reflexivity|exact Hout].
Defined.

(** ** The loader, the seed loop and the engines together *)

Lemma loader_mapper_spec lines g m :
  loadGraphFromFile lines new_mapper = Some (g, m) →
  wf_graph g ∧ mapper_bij m ∧ num_nodes g = getNumNodes m ∧
  ∀ n, n ∈ id_to_name m ↔ n ∈ line_names lines.
Proof.
  intros Hload.
  destruct (loadGraphFromFile_spec lines new_mapper new_mapper_ok)
    as (g0 & m0 & edges & Hl & Hread & _ & _ & _ & Hlen & Hcsr).
  rewrite Hl in Hload. simplify_eq.
  destruct (read_lines_names _ _ _ _ _ new_mapper_bij Hread) as [Hbij Hn].
  split; [by apply (loadGraphFromFile_wf lines new_mapper g m new_mapper_ok)|].
  split; [done|]. split.
  - unfold getNumNodes. by rewrite (csr_nodes _ _ _ Hcsr), Hlen.
  - intros n. rewrite Hn. simpl. rewrite elem_of_nil. tauto.
Qed.

Lemma read_seeds_known typed rest rand acc m :
  mapper_bij m → Forall seed_name typed →
  Forall (λ n, n ∈ id_to_name m) typed →
  ∃ ids,
    read_seeds (typed ++ "done"%string :: rest) rand acc m
    = Ok (acc ++ ids, m) ∧
    Forall2 (λ n id, name_to_id m !! n = Some id) typed ids.
Proof.
  intros Hbij. revert acc.
  induction typed as [|n typed IH]; intros acc Hty Hin.
  - exists []. cbn. by rewrite app_nil_r.
  - apply Forall_cons in Hty as [[Hd Hr] Hty].
    apply Forall_cons in Hin as [[i Hi]%list_elem_of_lookup_1 Hin].
    rewrite <-vget_lookup in Hi. apply Hbij in Hi.
    cbn [app read_seeds]. rewrite !bool_decide_eq_false_2 by done.
    unfold getId. rewrite Hi.
    destruct (IH (acc ++ [Z.of_nat i]) Hty Hin) as (ids & Hrun & Hids).
    exists (Z.of_nat i :: ids). rewrite Hrun, <-app_assoc.
    split; [done|]. by constructor.
Qed.

(** X14. Seed names that all occur in the dataset leave the mapper as the
    loader built it and become ids of graph nodes; the power iteration
    then returns a result, and the random walks index no vector out of
    range. *)
Theorem main_known_seeds_run {G : Type} (prob : G → float * G)
  (seed_dist : Z → G → Z * G) (lines : list edge_line)
  (typed rest : list string) (rand start end_ : Z) (g : CSRGraph)
  (m : NodeMapper) (alpha epsilon : float) (fuel : nat) (w : Z) (gen : G) :
  loadGraphFromFile lines new_mapper = Some (g, m) →
  Forall seed_name typed →
  Forall (λ n, n ∈ line_names lines) typed →
  dynamic_walks g = Some w →
  (∀ b gen, 0 ≤ b → 0 ≤ (seed_dist b gen).1 ≤ b) →
  Z.of_nat (Z.to_nat w) * Z.of_nat fuel ≤ INT_MAX →
  ∃ seeds,
    read_seeds (typed ++ "done"%string :: rest) rand [] m = Ok (seeds, m) ∧
    Forall2 (λ n id, getName id m = Some n ∧ 0 ≤ id < num_nodes g)
      typed seeds ∧
    is_Some (PPREngine.compute start end_ g seeds alpha epsilon) ∧
    MonteCarloEngine.compute prob seed_dist start end_ g seeds alpha fuel w
      gen ≠ Undefined.
Proof.
  intros Hload Hty Hin Hw Hdist Hbudget.
  destruct (loader_mapper_spec _ _ _ Hload) as (Hwf & Hbij & HN & Hnames).
  destruct (read_seeds_known typed rest rand [] m Hbij Hty) as (ids & Hrun & Hids).
  { eapply Forall_impl; [done|]. intros n. by rewrite Hnames. }
  assert (Forall2 (λ n id, getName id m = Some n ∧ 0 ≤ id < num_nodes g)
            typed ids) as Hids'.
  { eapply Forall2_impl; [done|]. intros n id Hid. simpl in Hid.
    apply Hbij in Hid. pose proof (vget_in_range _ _ _ Hid).
    unfold getName. rewrite !bool_decide_eq_true_2 by lia.
    split; [done|]. rewrite HN. unfold getNumNodes. lia. }
  assert (Forall (λ id, 0 ≤ id < num_nodes g) ids) as Hseeds.
  { clear -Hids'. induction Hids' as [|???? [_ ?]]; by constructor. }
  exists ids. split; [done|]. split; [done|]. split.
  - destruct (compute_total g ids alpha epsilon Hwf) as (sc & it & Hc).
    { eapply Forall_impl; [done|]. intros id ?. simpl in *. lia. }
    by rewrite Hc.
  - pose proof (mc_compute_no_fault prob seed_dist start end_ g ids alpha fuel
                  w gen Hwf Hseeds Hdist Hbudget) as Hmc.
    intros Hu. by rewrite Hu in Hmc.
Qed.

Lemma main_known_seeds_run_witness :
  loadGraphFromFile cycle_lines new_mapper = Some (cycle_graph, cycle_mapper) ∧
  Forall seed_name ["2"; "0"]%string ∧
  Forall (λ n, n ∈ line_names cycle_lines) ["2"; "0"]%string ∧
  dynamic_walks cycle_graph = Some 1500 ∧
  (∀ b gen, 0 ≤ b → 0 ≤ (counting_seed_dist b gen).1 ≤ b) ∧
  Z.of_nat (Z.to_nat 1500) * Z.of_nat 10 ≤ INT_MAX ∧
  ∃ seeds,
    read_seeds (["2"; "0"]%string ++ "done"%string :: []) 7 [] cycle_mapper
    = Ok (seeds, cycle_mapper) ∧
    Forall2 (λ n id, getName id cycle_mapper = Some n ∧
                     0 ≤ id < num_nodes cycle_graph)
      ["2"; "0"]%string seeds ∧
    is_Some (PPREngine.compute 0 9 cycle_graph seeds 0.15 1e-6) ∧
    MonteCarloEngine.compute counting_prob counting_seed_dist 0 9 cycle_graph
      seeds 0.15 10 1500 0%nat ≠ Undefined.
Proof.
  assert (loadGraphFromFile cycle_lines new_mapper
          = Some (cycle_graph, cycle_mapper)) as Hload by reflexivity.
  assert (Forall seed_name ["2"; "0"]%string) as Hty.
  { repeat constructor; discriminate. }
  assert (Forall (λ n, n ∈ line_names cycle_lines) ["2"; "0"]%string) as Hin.
  { apply (bool_decide_unpack _). by vm_compute. }
  assert (∀ b (gen : nat), 0 ≤ b → 0 ≤ (counting_seed_dist b gen).1 ≤ b)
    as Hdist.
  { intros b gen Hb. simpl. lia. }
  assert (Z.of_nat (Z.to_nat 1500) * Z.of_nat 10 ≤ INT_MAX) as Hbudget.
  { by vm_compute. }
  split; [exact Hload|]. split; [exact Hty|]. split; [exact Hin|].
  split; [reflexivity|]. split; [exact Hdist|]. split; [exact Hbudget|].
  exact (main_known_seeds_run counting_prob counting_seed_dist cycle_lines
           ["2"; "0"]%string [] 7 0 9 cycle_graph cycle_mapper 0.15 1e-6 10
           1500 0%nat Hload Hty Hin eq_refl Hdist Hbudget).
Defined.

(** X15. A seed name that does not occur in the dataset is not turned
    down: the seed loop gives it an id from [num_nodes] on, and when the
    first random walk draws that seed, the walk counts its visit outside
    the visit vector. *)
Theorem main_unknown_seed_name_faults {G : Type} (prob : G → float * G)
  (seed_dist : Z → G → Z * G) (lines : list edge_line)
  (typed rest : list string) (rand start end_ : Z) (g : CSRGraph)
  (m : NodeMapper) (alpha : float) (fuel : nat) (w : Z) (gen : G)
  (k : nat) (name : string) :
  loadGraphFromFile lines new_mapper = Some (g, m) →
  lines ≠ [] →
  Forall seed_name typed →
  typed !! k = Some name → name ∉ line_names lines →
  dynamic_walks g = Some w →
  (seed_dist (Z.of_nat (length typed) - 1) gen).1 = Z.of_nat k →
  ∃ seeds m' id,
    read_seeds (typed ++ "done"%string :: rest) rand [] m = Ok (seeds, m') ∧
    seeds !! k = Some id ∧ num_nodes g ≤ id ∧ getName id m' = Some name ∧
    MonteCarloEngine.compute prob seed_dist start end_ g seeds alpha (S fuel)
      w gen = Undefined.
Proof.
  intros Hload Hlines Hty Hk Hname Hw Hdraw.
  destruct (loader_mapper_spec _ _ _ Hload) as (Hwf & Hbij & HN & Hnames).
  destruct (read_seeds_done typed rest rand [] m Hbij Hty)
    as (ids & m' & Hrun & Hbij' & Hkeep & Hids).
  destruct (Forall2_lookup_l _ _ _ _ _ Hids Hk) as (id & Hid & Hget).
  pose proof (id_in_old m m' id name Hbij' Hkeep Hget) as Hold.
  rewrite Hnames in Hold.
  assert (num_nodes g ≤ id) as Hge.
  { rewrite HN. destruct (decide (id < getNumNodes m)) as [Hlt|]; [|lia].
    by apply Hold in Hlt. }
  exists ids, m', id. split; [done|]. split; [done|]. split; [done|]. split.
  { pose proof (vget_in_range _ _ _ Hget). unfold getName.
    by rewrite !bool_decide_eq_true_2 by lia. }
  assert (0 < num_nodes g) as Hpos.
  { rewrite HN. unfold getNumNodes.
    destruct lines as [|l lines']; [done|].
    assert (u_str l ∈ id_to_name m) as [i Hi]%list_elem_of_lookup_1.
    { apply Hnames. unfold line_names. rewrite fmap_cons. cbn [concat].
      apply elem_of_app. left. apply elem_of_cons. by left. }
    apply lookup_lt_Some in Hi. lia. }
  unfold dynamic_walks in Hw. case_bool_decide; [|done]. simplify_eq.
  apply (mc_seed_outside_walk prob seed_dist start end_ g ids alpha fuel
           (num_nodes g * 500) gen id); [lia|lia| |lia].
  rewrite <-(Forall2_length _ _ _ Hids), Hdraw, vget_lookup. done.
Qed.

Lemma main_unknown_seed_name_faults_witness :
  loadGraphFromFile cycle_lines new_mapper = Some (cycle_graph, cycle_mapper) ∧
  cycle_lines ≠ [] ∧
  Forall seed_name ["7"; "1"]%string ∧
  ["7"; "1"]%string !! O = Some "7"%string ∧
  ("7"%string ∉ line_names cycle_lines) ∧
  dynamic_walks cycle_graph = Some 1500 ∧
  (counting_seed_dist (Z.of_nat (length ["7"; "1"]%string) - 1) 0%nat).1
  = Z.of_nat 0 ∧
  ∃ seeds m' id,
    read_seeds (["7"; "1"]%string ++ "done"%string :: []) 7 [] cycle_mapper
    = Ok (seeds, m') ∧
    seeds !! O = Some id ∧ num_nodes cycle_graph ≤ id ∧
    getName id m' = Some "7"%string ∧
    MonteCarloEngine.compute counting_prob counting_seed_dist 0 9 cycle_graph
      seeds 0.15 (S 9) 1500 0%nat = Undefined.
Proof.
  assert (loadGraphFromFile cycle_lines new_mapper
          = Some (cycle_graph, cycle_mapper)) as Hload by reflexivity.
  assert (Forall seed_name ["7"; "1"]%string) as Hty.
  { repeat constructor; discriminate. }
  assert ("7"%string ∉ line_names cycle_lines) as Hname.
  { apply (bool_decide_unpack _). by vm_compute. }
  split; [exact Hload|]. split; [discriminate|]. split; [exact Hty|].
  split; [reflexivity|]. split; [exact Hname|]. split; [reflexivity|].
  split; [reflexivity|].
  apply (main_unknown_seed_name_faults counting_prob counting_seed_dist
           cycle_lines ["7"; "1"]%string [] 7 0 9 cycle_graph cycle_mapper
           0.15 9 1500 0%nat 0%nat "7"%string Hload);
    [discriminate|exact Hty|reflexivity|exact Hname|reflexivity|reflexivity].
Defined.

(** ** The result files *)

Lemma insert_sorted_perm x l : insert_sorted x l ≡ₚ x :: l.
Proof.
  induction l as [|y l IH]; [done|]. simpl.
  destruct (pair_lt x y); [done|]. by rewrite IH, Permutation_swap.
Qed.

Lemma insertion_sort_perm l : insertion_sort l ≡ₚ l.
Proof.
  induction l as [|x l IH]; [done|]. simpl.
  by rewrite insert_sorted_perm, IH.
Qed.

Lemma imap_snoc {A B : Type} (f : nat → A → B) l x :
  imap f (l ++ [x]) = imap f l ++ [f (length l) x].
Proof. rewrite imap_app. simpl. by rewrite Nat.add_0_r. Qed.

Lemma saveToCSV_rows sort scores mapper seeds :
  Forall (λ e, 0 ≤ e.2 < Z.of_nat (length (id_to_name mapper)))
    (rank_scores sort scores) →
  ∃ names,
    Forall2 (λ e n, vget (id_to_name mapper) e.2 = Some n)
      (rank_scores sort scores) names ∧
    saveToCSV sort scores mapper seeds
    = Some (imap (λ k en, mk_row (Z.of_nat k + 1) en.2 en.1.1
                            (status_of (bool_decide (en.1.2 ∈ seeds)) en.1.1))
              (zip (rank_scores sort scores) names)).
Proof.
  unfold saveToCSV. generalize (rank_scores sort scores) as L.
  intros L HL.
  assert (∃ names, Forall2 (λ e n, vget (id_to_name mapper) e.2 = Some n)
                     L names) as [names Hnames].
  { induction HL as [|e L He _ [names IH]]; [by exists []|].
    destruct (vget_is_Some (id_to_name mapper) e.2) as [n Hn]; [lia|].
    exists (n :: names). by constructor. }
  exists names. split; [done|].
  set (g := λ (k : nat) (en : float * Z * string),
              mk_row (Z.of_nat k + 1) en.2 en.1.1
                (status_of (bool_decide (en.1.2 ∈ seeds)) en.1.1)).
  pose proof (Forall2_length _ _ _ Hnames) as Hlen.
  destruct (for_range_inv
    (λ j file, file = imap g (take (Z.to_nat j) (zip L names)))
    0 (Z.of_nat (length L))
    (λ i file,
       e ← vget L i;
       name ← getName e.2 mapper;
       Some (file ++ [mk_row (i + 1) name e.1
                        (status_of (bool_decide (e.2 ∈ seeds)) e.1)]))
    []) as (rows & Hrun & ->); [lia|done| |].
  - intros j file Hj ->.
    destruct (vget_is_Some L j) as [e He]; [lia|].
    rewrite He. cbn [mbind option_bind].
    pose proof He as [_ He']%vget_Some.
    destruct (Forall2_lookup_l _ _ _ _ _ Hnames He') as (n & Hn' & Hn).
    pose proof (vget_in_range _ _ _ Hn) as Hr.
    unfold getName.
    rewrite (bool_decide_eq_true_2 (0 ≤ e.2)) by lia.
    rewrite (bool_decide_eq_true_2 (e.2 < _)) by lia.
    cbn [andb]. rewrite Hn. cbn [mbind option_bind].
    eexists. split; [done|].
    replace (Z.to_nat (j + 1)) with (S (Z.to_nat j)) by lia.
    assert (zip L names !! Z.to_nat j = Some (e, n)) as Hz.
    { rewrite lookup_zip_with, He'. simpl. by rewrite Hn'. }
    rewrite (take_S_r _ _ _ Hz), imap_snoc. f_equal.
    rewrite length_take, length_zip_with.
    unfold g. simpl. do 2 f_equal.
    apply lookup_lt_Some in He', Hn'. lia.
  - rewrite Hrun. do 2 f_equal.
    rewrite take_ge; [done|]. rewrite length_zip_with. lia.
Qed.

Lemma rank_scores_perm sort scores :
  sort (reverse (imap (λ i s, (s, Z.of_nat i)) scores))
  ≡ₚ reverse (imap (λ i s, (s, Z.of_nat i)) scores) →
  rank_scores sort scores ≡ₚ imap (λ i s, (s, Z.of_nat i)) scores.
Proof.
  intros Hperm. unfold rank_scores.
  by rewrite reverse_Permutation, Hperm, reverse_Permutation.
Qed.

(** X16. When [std::sort] returns a sorted rearrangement of the ranked
    scores and the mapper names every index of the score vector, the
    result file has one line for each node: the ranks count from 1, every
    node appears once with its own name, its score and its status, and no
    line has a score below that of the line after it. *)
Theorem saveToCSV_lists_every_node
  (sort : list (float * Z) → list (float * Z)) (scores : list float)
  (mapper : NodeMapper) (seeds : list Z) :
  sort (reverse (imap (λ i s, (s, Z.of_nat i)) scores))
  ≡ₚ reverse (imap (λ i s, (s, Z.of_nat i)) scores) →
  is_sorted (sort (reverse (imap (λ i s, (s, Z.of_nat i)) scores))) →
  (length scores ≤ length (id_to_name mapper))%nat →
  ∃ rows,
    saveToCSV sort scores mapper seeds = Some rows ∧
    row_rank <$> rows = seqZ 1 (Z.of_nat (length scores)) ∧
    (λ r, (row_name r, row_score r, row_status r)) <$> rows
    ≡ₚ imap (λ i ns, (ns.1, ns.2,
                      status_of (bool_decide (Z.of_nat i ∈ seeds)) ns.2))
         (zip (id_to_name mapper) scores) ∧
    (∀ (k : nat) r1 r2,
       rows !! k = Some r1 → rows !! S k = Some r2 →
       (row_score r1 <? row_score r2)%float = false).
Proof.
  intros Hperm Hsorted Hlen.
  pose proof (rank_scores_perm sort scores Hperm) as HL.
  assert (length (rank_scores sort scores) = length scores) as HlenL.
  { by rewrite HL, length_imap. }
  destruct (saveToCSV_rows sort scores mapper seeds)
    as (names & Hnames & Hrun).
  { rewrite HL. apply Forall_forall. intros e He.
    apply list_elem_of_lookup_1 in He as [i Hi].
    rewrite list_lookup_imap in Hi.
    destruct (scores !! i) as [s|] eqn:Hs; [|done]. simplify_eq/=.
    apply lookup_lt_Some in Hs. lia. }
  pose proof (Forall2_length _ _ _ Hnames) as Hlenn.
  eexists. split; [exact Hrun|]. split; [|split].
  - apply list_eq. intros k.
    rewrite list_lookup_fmap, list_lookup_imap.
    destruct (decide (k < length scores)%nat) as [Hk|Hk].
    + rewrite lookup_seqZ_lt by lia.
      destruct (lookup_lt_is_Some_2 (zip (rank_scores sort scores) names) k)
        as [en Hen]; [rewrite length_zip_with; lia|].
      rewrite Hen. simpl. f_equal. lia.
    + rewrite lookup_seqZ_ge by lia.
      rewrite (lookup_ge_None_2 (zip _ _)); [done|].
      rewrite length_zip_with. lia.
  - set (h := λ e : float * Z,
                (default ""%string (id_to_name mapper !! Z.to_nat e.2), e.1,
                 status_of (bool_decide (e.2 ∈ seeds)) e.1)).
    assert ((λ r, (row_name r, row_score r, row_status r))
              <$> imap (λ (k : nat) (en : float * Z * string),
                          mk_row (Z.of_nat k + 1) en.2 en.1.1
                            (status_of (bool_decide (en.1.2 ∈ seeds)) en.1.1))
                    (zip (rank_scores sort scores) names)
            = h <$> rank_scores sort scores) as ->.
    { apply list_eq. intros k.
      rewrite !list_lookup_fmap, list_lookup_imap, lookup_zip_with.
      destruct (rank_scores sort scores !! k) as [e|] eqn:He; [|done].
      destruct (Forall2_lookup_l _ _ _ _ _ Hnames He) as (n & Hn' & Hn).
      rewrite Hn'. simpl. unfold h.
      apply vget_Some in Hn as [_ Hn]. by rewrite Hn. }
    rewrite HL.
    assert (h <$> imap (λ (i : nat) (s : float), (s, Z.of_nat i)) scores
            = imap (λ (i : nat) (ns : string * float),
                      (ns.1, ns.2,
                       status_of (bool_decide (Z.of_nat i ∈ seeds)) ns.2))
                (zip (id_to_name mapper) scores)) as ->; [|done].
    apply list_eq. intros k.
    rewrite list_lookup_fmap, !list_lookup_imap, lookup_zip_with.
    destruct (scores !! k) as [s|] eqn:Hs; simpl;
      [|by destruct (id_to_name mapper !! k)].
    destruct (lookup_lt_is_Some_2 (id_to_name mapper) k) as [n Hn].
    { apply lookup_lt_Some in Hs. lia. }
    rewrite Hn. simpl. unfold h. simpl. by rewrite Nat2Z.id, Hn.
  - intros k r1 r2. rewrite !list_lookup_imap, !lookup_zip_with.
    destruct (rank_scores sort scores !! k) as [e1|] eqn:He1; [|done].
    destruct (rank_scores sort scores !! S k) as [e2|] eqn:He2;
      [|by destruct (names !! k)].
    simpl. destruct (names !! k) as [n1|]; [|done].
    destruct (names !! S k) as [n2|]; [|done]. simpl.
    intros [= <-] [= <-]. simpl.
    unfold rank_scores in He1, He2.
    pose proof (lookup_lt_Some _ _ _ He2) as Hk.
    rewrite length_reverse in Hk.
    rewrite reverse_lookup in He1, He2 by lia.
    specialize (Hsorted _ e2 e1 He2).
    replace (S (length (sort (reverse (imap (λ i s, (s, Z.of_nat i)) scores)))
                - S (S k)))
      with (length (sort (reverse (imap (λ i s, (s, Z.of_nat i)) scores)))
            - S k)%nat in Hsorted by lia.
    specialize (Hsorted He1). unfold pair_lt in Hsorted.
    by apply orb_false_elim in Hsorted as [? _].
Qed.

Lemma saveToCSV_lists_every_node_witness :
  insertion_sort
    (reverse (imap (λ i s, (s, Z.of_nat i)) [0.2; 0.5; 0.3]%float))
  ≡ₚ reverse (imap (λ i s, (s, Z.of_nat i)) [0.2; 0.5; 0.3]%float) ∧
  is_sorted
    (insertion_sort
       (reverse (imap (λ i s, (s, Z.of_nat i)) [0.2; 0.5; 0.3]%float))) ∧
  (length [0.2; 0.5; 0.3]%float ≤ length (id_to_name cycle_mapper))%nat ∧
  ∃ rows,
    saveToCSV insertion_sort [0.2; 0.5; 0.3]%float cycle_mapper [0] = Some rows ∧
    row_rank <$> rows = seqZ 1 (Z.of_nat (length [0.2; 0.5; 0.3]%float)) ∧
    (λ r, (row_name r, row_score r, row_status r)) <$> rows
    ≡ₚ imap (λ i ns, (ns.1, ns.2,
                      status_of (bool_decide (Z.of_nat i ∈ [0])) ns.2))
         (zip (id_to_name cycle_mapper) [0.2; 0.5; 0.3]%float) ∧
    (∀ (k : nat) r1 r2,
       rows !! k = Some r1 → rows !! S k = Some r2 →
       (row_score r1 <? row_score r2)%float = false).
Proof.
  assert (is_sorted
            (insertion_sort
               (reverse (imap (λ i s, (s, Z.of_nat i)) [0.2; 0.5; 0.3]%float))))
    as Hsorted.
  { intros k a b. destruct k as [|[|[|k]]]; vm_compute;
      intros Ha Hb; by simplify_eq. }
  assert (length [0.2; 0.5; 0.3]%float ≤ length (id_to_name cycle_mapper))%nat
    as Hlen by (vm_compute; lia).
  split; [apply insertion_sort_perm|]. split; [exact Hsorted|].
  split; [exact Hlen|].
  exact (saveToCSV_lists_every_node insertion_sort [0.2; 0.5; 0.3]%float
           cycle_mapper [0] (insertion_sort_perm _) Hsorted Hlen).
Defined.

(** * Properties of [src/main.cpp] *)

(** ** Counting the edges of a row *)

Lemma vget_fmap_seqZ {A : Type} (f : Z → A) n j :
  0 ≤ j < n → vget (f <$> seqZ 0 n) j = Some (f j).
Proof.
  intros Hj. apply vget_Some. split; [lia|].
  rewrite list_lookup_fmap, lookup_seqZ_lt by lia.
  by replace (0 + Z.of_nat (Z.to_nat j)) with j by lia.
Qed.

Lemma length_fmap_seqZ {A : Type} (f : Z → A) n :
  length (f <$> seqZ 0 n) = Z.to_nat n.
Proof. by rewrite length_fmap, length_seqZ. Qed.

Lemma fmap_seqZ_ext {A : Type} (f g : Z → A) n :
  (∀ j, 0 ≤ j < n → f j = g j) → f <$> seqZ 0 n = g <$> seqZ 0 n.
Proof.
  intros Hfg. apply list_fmap_ext. intros i x Hx.
  apply lookup_seqZ in Hx as [-> ?]. apply Hfg. lia.
Qed.

Lemma count_eq_snoc (l : list (Z * (Z * float))) x i :
  count_eq (l ++ [x]) i
  = count_eq l i + (if bool_decide (x.1 = i) then 1 else 0).
Proof.
  unfold count_eq. rewrite filter_app, length_app.
  case_bool_decide.
  - rewrite filter_cons_True, filter_nil by done. cbn [length]. lia.
  - rewrite filter_cons_False, filter_nil by done. cbn [length]. lia.
Qed.

Lemma count_lt_succ (l : list (Z * (Z * float))) i :
  count_lt l (i + 1) = count_lt l i + count_eq l i.
Proof.
  unfold count_lt, count_eq. induction l as [|x l IH]; [done|].
  rewrite !filter_cons.
  destruct (decide (x.1 < i + 1)), (decide (x.1 < i)), (decide (x.1 = i));
    simpl; lia.
Qed.

Lemma count_lt_perm (l l' : list (Z * (Z * float))) i :
  l ≡ₚ l' → count_lt l i = count_lt l' i.
Proof. intros Hp. unfold count_lt. by rewrite Hp. Qed.

Lemma count_below (l : list (Z * (Z * float))) :
  Forall (λ e, -1 ≤ e.1) l → count_lt l 0 = count_eq l (-1).
Proof.
  unfold count_lt, count_eq. induction 1 as [|x l Hx _ IH]; [done|].
  rewrite !filter_cons.
  destruct (decide (x.1 < 0)), (decide (x.1 = -1)); simpl; lia.
Qed.

Lemma count_lt_mono (l : list (Z * (Z * float))) i j :
  i ≤ j → count_lt l i ≤ count_lt l j.
Proof.
  intros Hij. unfold count_lt. induction l as [|x l IH]; [done|].
  rewrite !filter_cons.
  destruct (decide (x.1 < i)), (decide (x.1 < j)); simpl; lia.
Qed.

Lemma count_lt_le_length (l : list (Z * (Z * float))) i :
  0 ≤ count_lt l i ≤ Z.of_nat (length l).
Proof.
  unfold count_lt. pose proof (length_filter (λ e : Z * (Z * float), e.1 < i) l). lia.
Qed.

(** ** Building the matrix *)

Lemma addValue_loop rows (S : list (Z * (Z * float))) :
  0 ≤ rows → Forall (λ e, -1 ≤ e.1 < rows) S →
  for_each_opt S (λ M e, CSRMatrix.addValue e.1 e.2.1 e.2.2 M)
    {| CSRMatrix.values := []; CSRMatrix.colIndex := [];
       CSRMatrix.rowIndex := replicate (Z.to_nat (rows + 1)) 0;
       CSRMatrix.numRows := rows |}
  = Some {| CSRMatrix.values := (λ e, e.2.2) <$> S;
            CSRMatrix.colIndex := (λ e, e.2.1) <$> S;
            CSRMatrix.rowIndex :=
              (λ j, count_eq S (j - 1)) <$> seqZ 0 (rows + 1);
            CSRMatrix.numRows := rows |}.
Proof.
  intros Hrows HS.
  destruct (for_each_opt_inv
    (λ done M,
       M = {| CSRMatrix.values := (λ e : Z * (Z * float), e.2.2) <$> done;
              CSRMatrix.colIndex := (λ e : Z * (Z * float), e.2.1) <$> done;
              CSRMatrix.rowIndex :=
                (λ j, count_eq done (j - 1)) <$> seqZ 0 (rows + 1);
              CSRMatrix.numRows := rows |})
    (λ M (e : Z * (Z * float)), CSRMatrix.addValue e.1 e.2.1 e.2.2 M) S
    {| CSRMatrix.values := []; CSRMatrix.colIndex := [];
       CSRMatrix.rowIndex := replicate (Z.to_nat (rows + 1)) 0;
       CSRMatrix.numRows := rows |}) as (M & Hrun & ->); [| |done].
  - f_equal. apply vget_ext.
    + by rewrite length_replicate, length_fmap_seqZ.
    + intros i Hi. rewrite length_replicate in Hi.
      rewrite vget_fmap_seqZ by lia. apply vget_Some. split; [lia|].
      apply lookup_replicate_2. lia.
  - intros done x M [rest Hsplit] ->.
    assert (-1 ≤ x.1 < rows) as Hx.
    { rewrite Hsplit, Forall_app, Forall_cons in HS. by destruct HS as (_ & ? & _). }
    unfold CSRMatrix.addValue. cbn [CSRMatrix.rowIndex CSRMatrix.values
      CSRMatrix.colIndex CSRMatrix.numRows].
    rewrite vget_fmap_seqZ by lia. cbn [mbind option_bind].
    rewrite vset_in_range by (rewrite length_fmap_seqZ; lia).
    cbn [mbind option_bind]. eexists. split; [done|].
    rewrite !fmap_app. f_equal. apply vget_ext.
    + by rewrite length_insert, !length_fmap_seqZ.
    + intros i Hi. rewrite length_insert, length_fmap_seqZ in Hi.
      rewrite vget_insert by (rewrite length_fmap_seqZ; lia).
      rewrite !vget_fmap_seqZ by lia. rewrite count_eq_snoc.
      case_bool_decide as Hi1.
      * subst i. replace (x.1 + 1 - 1) with x.1 by lia.
        by rewrite bool_decide_eq_true_2 by done.
      * rewrite bool_decide_eq_false_2 by lia. f_equal. lia.
Qed.

Lemma finalizeRowIndex_counts rows (S : list (Z * (Z * float))) vals cols :
  0 ≤ rows → Forall (λ e, -1 ≤ e.1) S →
  CSRMatrix.finalizeRowIndex
    {| CSRMatrix.values := vals; CSRMatrix.colIndex := cols;
       CSRMatrix.rowIndex := (λ j, count_eq S (j - 1)) <$> seqZ 0 (rows + 1);
       CSRMatrix.numRows := rows |}
  = Some {| CSRMatrix.values := vals; CSRMatrix.colIndex := cols;
            CSRMatrix.rowIndex := (λ j, count_lt S j) <$> seqZ 0 (rows + 1);
            CSRMatrix.numRows := rows |}.
Proof.
  intros Hrows HS. pose proof (count_below S HS) as Hlt0.
  unfold CSRMatrix.finalizeRowIndex.
  cbn [CSRMatrix.rowIndex CSRMatrix.values CSRMatrix.colIndex
       CSRMatrix.numRows].
  destruct (for_range_inv
    (λ i ri, ri = (λ j, if bool_decide (j < i) then count_lt S j
                        else count_eq S (j - 1)) <$> seqZ 0 (rows + 1))
    1 (rows + 1)
    (λ i rowIndex, a ← vget rowIndex i; b ← vget rowIndex (i - 1);
                   vset rowIndex i (a + b))
    ((λ j, count_eq S (j - 1)) <$> seqZ 0 (rows + 1)))
    as (ri & Hrun & ->); [lia| | |].
  - apply fmap_seqZ_ext. intros j Hj. case_bool_decide; [|done].
    replace j with 0 by lia. change (0 - 1) with (-1). lia.
  - intros i ri Hi ->.
    rewrite !vget_fmap_seqZ by lia. cbn [mbind option_bind].
    rewrite bool_decide_eq_false_2 by lia.
    rewrite bool_decide_eq_true_2 by lia.
    rewrite vset_in_range by (rewrite length_fmap_seqZ; lia).
    eexists. split; [done|]. apply vget_ext.
    + by rewrite length_insert, !length_fmap_seqZ.
    + intros j Hj. rewrite length_insert, length_fmap_seqZ in Hj.
      rewrite vget_insert by (rewrite length_fmap_seqZ; lia).
      rewrite !vget_fmap_seqZ by lia.
      case_bool_decide as Hji.
      * subst j. rewrite bool_decide_eq_true_2 by lia. f_equal.
        replace i with (i - 1 + 1) at 3 by lia. rewrite count_lt_succ. lia.
      * destruct (decide (j < i)).
        -- by rewrite !bool_decide_eq_true_2 by lia.
        -- by rewrite !bool_decide_eq_false_2 by lia.
  - rewrite Hrun. cbn [mbind option_bind]. do 2 f_equal.
    apply fmap_seqZ_ext. intros j Hj. by rewrite bool_decide_eq_true_2 by lia.
Qed.

(** ** Rows of a sorted edge list *)

Lemma filter_none {A : Type} (P : A → Prop) `{!∀ x, Decision (P x)}
  (l : list A) : Forall (λ x, ¬ P x) l → filter P l = [].
Proof.
  induction 1 as [|x l HP _ IH]; [done|].
  by rewrite filter_cons, decide_False, IH.
Qed.

Lemma sorted_tail x l : sorted_by_from (x :: l) → sorted_by_from l.
Proof. intros H k a b Ha Hb. by apply (H (S k)). Qed.

Lemma sorted_head x l :
  sorted_by_from (x :: l) → Forall (λ y, x.1 ≤ y.1) l.
Proof.
  revert x. induction l as [|y l IH]; intros x Hs; [done|].
  pose proof (Hs O x y eq_refl eq_refl) as Hxy.
  constructor; [lia|].
  eapply Forall_impl; [apply IH, (sorted_tail x), Hs|].
  intros z ?. simpl in *. lia.
Qed.

Lemma sorted_split (S : list (Z * (Z * float))) i :
  sorted_by_from S →
  S = filter (λ e, e.1 < i) S ++ filter (λ e, ¬ e.1 < i) S.
Proof.
  induction S as [|x l IH]; intros HS; [done|].
  pose proof (sorted_head x l HS) as Hx.
  specialize (IH (sorted_tail x l HS)).
  rewrite !filter_cons. destruct (decide (x.1 < i)) as [Hlt|Hge].
  - rewrite decide_False by tauto. simpl. by rewrite <-IH.
  - rewrite decide_True by done.
    assert (filter (λ e : Z * (Z * float), e.1 < i) l = []) as ->.
    { apply filter_none. eapply Forall_impl; [done|].
      intros y ?. simpl in *. lia. }
    simpl. f_equal. symmetry. apply filter_all.
    eapply Forall_impl; [done|]. intros y ?. simpl in *. lia.
Qed.

Lemma sorted_row (S : list (Z * (Z * float))) i :
  sorted_by_from S →
  slice (count_lt S i) (count_lt S (i + 1)) S = filter (λ e, e.1 = i) S.
Proof.
  intros HS. unfold slice.
  pose proof (sorted_split S i HS) as H1.
  pose proof (sorted_split S (i + 1) HS) as H2.
  assert (filter (λ e : Z * (Z * float), ¬ e.1 < i) S
          = filter (λ e : Z * (Z * float), e.1 = i) S
            ++ filter (λ e : Z * (Z * float), ¬ e.1 < i + 1) S) as H3.
  { rewrite H2 at 1. rewrite filter_app, !list_filter_filter.
    f_equal; apply list_filter_iff; intros e; lia. }
  rewrite count_lt_succ. unfold count_lt, count_eq.
  replace (Z.to_nat (_ + _ - _))
    with (length (filter (λ e : Z * (Z * float), e.1 = i) S)) by lia.
  rewrite Nat2Z.id.
  transitivity
    (take (length (filter (λ e : Z * (Z * float), e.1 = i) S))
       (drop (length (filter (λ e : Z * (Z * float), e.1 < i) S))
          (filter (λ e : Z * (Z * float), e.1 < i) S
           ++ (filter (λ e : Z * (Z * float), e.1 = i) S
               ++ filter (λ e : Z * (Z * float), ¬ e.1 < i + 1) S))));
    [by rewrite <-H3, <-H1|].
  by rewrite drop_app_length, take_app_length.
Qed.

Lemma insert_edge_perm x l : insert_edge x l ≡ₚ x :: l.
Proof.
  induction l as [|y l IH]; [done|]. simpl.
  case_bool_decide; [done|]. by rewrite IH, Permutation_swap.
Qed.

Lemma sort_edges_perm l : sort_edges l ≡ₚ l.
Proof.
  induction l as [|x l IH]; [done|]. simpl.
  by rewrite insert_edge_perm, IH.
Qed.

Lemma readFromFile_spec sort edges rows cols :
  0 ≤ rows → sort edges ≡ₚ edges →
  Forall (λ e, -1 ≤ e.1 < rows) edges →
  CSRMatrix.create rows cols
  = Some {| CSRMatrix.values := []; CSRMatrix.colIndex := [];
            CSRMatrix.rowIndex := replicate (Z.to_nat (rows + 1)) 0;
            CSRMatrix.numRows := rows |} ∧
  CSRMatrix.readFromFile sort edges
    {| CSRMatrix.values := []; CSRMatrix.colIndex := [];
       CSRMatrix.rowIndex := replicate (Z.to_nat (rows + 1)) 0;
       CSRMatrix.numRows := rows |}
  = Some {| CSRMatrix.values := (λ e, e.2.2) <$> sort edges;
            CSRMatrix.colIndex := (λ e, e.2.1) <$> sort edges;
            CSRMatrix.rowIndex :=
              (λ i, count_lt edges i) <$> seqZ 0 (rows + 1);
            CSRMatrix.numRows := rows |}.
Proof.
  intros Hrows Hperm Hedges. split.
  { unfold CSRMatrix.create, valloc.
    by rewrite bool_decide_eq_true_2 by lia. }
  assert (Forall (λ e : Z * (Z * float), -1 ≤ e.1 < rows) (sort edges)) as HS.
  { by rewrite Hperm. }
  unfold CSRMatrix.readFromFile.
  rewrite (addValue_loop rows (sort edges) Hrows HS). cbn [mbind option_bind].
  rewrite finalizeRowIndex_counts; [|done|].
  - do 2 f_equal. apply fmap_seqZ_ext. intros j _. by apply count_lt_perm.
  - eapply Forall_impl; [done|]. intros e ?. simpl in *. lia.
Qed.

(** X17. [readFromFile] builds the compressed rows: for edges whose
    [from] lies in [[-1, rows)], entry [i] of [rowIndex] is the number of
    edges that start below row [i], the values and columns are those of
    the sorted edges, and the entries between [rowIndex[i]] and
    [rowIndex[i+1]] are the edges of row [i]. An edge from [-1] is not
    turned down: it is counted in [rowIndex[0]] and lies before every
    row. *)
Theorem readFromFile_builds_rows
  (sort : list (Z * (Z * float)) → list (Z * (Z * float)))
  (edges : list (Z * (Z * float))) (rows cols : Z) :
  0 ≤ rows → sort edges ≡ₚ edges → sorted_by_from (sort edges) →
  Forall (λ e, -1 ≤ e.1 < rows) edges →
  ∃ M0 M,
    CSRMatrix.create rows cols = Some M0 ∧
    CSRMatrix.readFromFile sort edges M0 = Some M ∧
    CSRMatrix.numRows M = rows ∧
    CSRMatrix.values M = (λ e, e.2.2) <$> sort edges ∧
    CSRMatrix.colIndex M = (λ e, e.2.1) <$> sort edges ∧
    (∀ i, 0 ≤ i ≤ rows →
          vget (CSRMatrix.rowIndex M) i = Some (count_lt edges i)) ∧
    (∀ i, slice (count_lt edges i) (count_lt edges (i + 1)) (sort edges)
          = filter (λ e, e.1 = i) (sort edges) ∧
          filter (λ e, e.1 = i) (sort edges) ≡ₚ filter (λ e, e.1 = i) edges).
Proof.
  intros Hrows Hperm Hsorted Hedges.
  destruct (readFromFile_spec sort edges rows cols Hrows Hperm Hedges)
    as [Hc Hr].
  eexists _, _. split; [exact Hc|]. split; [exact Hr|].
  cbn [CSRMatrix.numRows CSRMatrix.values CSRMatrix.colIndex
       CSRMatrix.rowIndex].
  split_and!; try done.
  - intros i Hi. by rewrite vget_fmap_seqZ by lia.
  - intros i. split; [|by rewrite Hperm].
    rewrite <-!(count_lt_perm _ _ _ Hperm). by apply sorted_row.
Qed.

Lemma readFromFile_builds_rows_witness :
  0 ≤ 3 ∧
  sort_edges ex_edges
  ≡ₚ ex_edges ∧
  sorted_by_from
    (sort_edges ex_edges) ∧
  Forall (λ e, -1 ≤ e.1 < 3)
    ex_edges ∧
  ∃ M0 M,
    CSRMatrix.create 3 3 = Some M0 ∧
    CSRMatrix.readFromFile sort_edges
      ex_edges M0
    = Some M ∧
    CSRMatrix.numRows M = 3 ∧
    CSRMatrix.values M
    = (λ e, e.2.2)
        <$> sort_edges
              ex_edges ∧
    CSRMatrix.colIndex M
    = (λ e, e.2.1)
        <$> sort_edges
              ex_edges ∧
    (∀ i, 0 ≤ i ≤ 3 →
          vget (CSRMatrix.rowIndex M) i
          = Some (count_lt
                    ex_edges
                    i)) ∧
    (∀ i, slice
            (count_lt
               ex_edges i)
            (count_lt
               ex_edges
               (i + 1))
            (sort_edges
               ex_edges)
          = filter (λ e, e.1 = i)
              (sort_edges
                 ex_edges) ∧
          filter (λ e, e.1 = i)
            (sort_edges
               ex_edges)
          ≡ₚ filter (λ e, e.1 = i)
               ex_edges).
Proof.
  assert (sorted_by_from
            (sort_edges
               ex_edges))
    as Hsorted.
  { intros k a b Ha Hb.
    destruct k as [|[|[|[|k]]]]; vm_compute in Ha, Hb; simplify_eq;
      simpl; lia. }
  assert (Forall (λ e : Z * (Z * float), -1 ≤ e.1 < 3)
            ex_edges)
    as Hedges.
  { repeat constructor; simpl; lia. }
  split; [lia|]. split; [apply sort_edges_perm|]. split; [exact Hsorted|].
  split; [exact Hedges|].
  apply (readFromFile_builds_rows sort_edges
           ex_edges 3 3);
    [lia|apply sort_edges_perm|exact Hsorted|exact Hedges].
Defined.

Lemma addValue_length row col value M M' :
  CSRMatrix.addValue row col value M = Some M' →
  length (CSRMatrix.rowIndex M') = length (CSRMatrix.rowIndex M).
Proof.
  unfold CSRMatrix.addValue.
  destruct (vget (CSRMatrix.rowIndex M) (row + 1)) as [c|]; [|done].
  cbn [mbind option_bind].
  destruct (vset (CSRMatrix.rowIndex M) (row + 1) (c + 1)) as [ri|] eqn:Hri;
    [|done].
  cbn [mbind option_bind]. intros [= <-]. simpl.
  by apply vset_length in Hri.
Qed.

Lemma addValue_loop_fails (S : list (Z * (Z * float))) e M :
  e ∈ S →
  ¬ (0 ≤ e.1 + 1 < Z.of_nat (length (CSRMatrix.rowIndex M))) →
  for_each_opt S (λ M e, CSRMatrix.addValue e.1 e.2.1 e.2.2 M) M = None.
Proof.
  revert M. induction S as [|x S IH]; intros M He Hbad;
    [by apply elem_of_nil in He|].
  cbn [for_each_opt].
  destruct (CSRMatrix.addValue x.1 x.2.1 x.2.2 M) as [M1|] eqn:Hadd; [|done].
  cbn [mbind option_bind].
  apply elem_of_cons in He as [->|He].
  - unfold CSRMatrix.addValue in Hadd.
    destruct (vget (CSRMatrix.rowIndex M) (x.1 + 1)) as [c|] eqn:Hc; [|done].
    apply vget_in_range in Hc. lia.
  - apply IH; [done|]. by rewrite (addValue_length _ _ _ _ _ Hadd).
Qed.

(** X18. [readFromFile] does not check the row of an edge against the
    matrix: one edge whose [from] lies outside [[-1, numRows)] makes
    [addValue] count it outside [rowIndex], wherever [std::sort] put it. *)
Theorem readFromFile_row_out_of_range
  (sort : list (Z * (Z * float)) → list (Z * (Z * float)))
  (edges : list (Z * (Z * float))) (rows cols : Z) (M0 : CSRMatrix.t)
  (e : Z * (Z * float)) :
  CSRMatrix.create rows cols = Some M0 →
  sort edges ≡ₚ edges → e ∈ edges → ¬ (-1 ≤ e.1 < rows) →
  CSRMatrix.readFromFile sort edges M0 = None.
Proof.
  intros Hc Hperm He Hbad. unfold CSRMatrix.create in Hc.
  destruct (valloc (rows + 1) 0) as [ri|] eqn:Hri; [|done].
  apply valloc_Some in Hri as [Hrows ->]. simplify_eq/=.
  unfold CSRMatrix.readFromFile.
  rewrite (addValue_loop_fails (sort edges) e); [done|by rewrite Hperm|].
  simpl. rewrite length_replicate. lia.
Qed.

Lemma readFromFile_row_out_of_range_witness :
  CSRMatrix.create 3 3
  = Some {| CSRMatrix.values := []; CSRMatrix.colIndex := [];
            CSRMatrix.rowIndex := [0; 0; 0; 0]; CSRMatrix.numRows := 3 |} ∧
  sort_edges bad_edges
  ≡ₚ bad_edges ∧
  (3, (0, 1%float)) ∈ bad_edges ∧
  ¬ (-1 ≤ (3, (0, 1%float)).1 < 3) ∧
  CSRMatrix.readFromFile sort_edges bad_edges
    {| CSRMatrix.values := []; CSRMatrix.colIndex := [];
       CSRMatrix.rowIndex := [0; 0; 0; 0]; CSRMatrix.numRows := 3 |} = None.
Proof.
  assert ((3, (0, 1%float)) ∈ bad_edges) as He.
  { apply elem_of_cons. right. apply elem_of_cons. by left. }
  assert (¬ (-1 ≤ (3, (0, 1%float)).1 < 3)) as Hbad by (simpl; lia).
  split; [reflexivity|]. split; [apply sort_edges_perm|].
  split; [exact He|]. split; [exact Hbad|].
  exact (readFromFile_row_out_of_range sort_edges
           bad_edges 3 3 _ (3, (0, 1%float)) eq_refl
           (sort_edges_perm _) He Hbad).
Defined.

(** ** The product of the matrix and a vector *)

Lemma length_slice {A : Type} (l : list A) lo hi :
  0 ≤ lo ≤ hi → hi ≤ Z.of_nat (length l) →
  length (slice lo hi l) = Z.to_nat (hi - lo).
Proof. intros ? ?. unfold slice. rewrite length_take, length_drop. lia. Qed.

Lemma slice_empty {A : Type} (l : list A) lo hi : hi ≤ lo → slice lo hi l = [].
Proof.
  intros ?. unfold slice. by replace (Z.to_nat (hi - lo)) with O by lia.
Qed.

Lemma row_dot_snoc vec vals cols v c :
  length vals = length cols →
  row_dot vec (vals ++ [v]) (cols ++ [c])
  = (row_dot vec vals cols + v * default 0 (vget vec c))%float.
Proof.
  intros Hlen. unfold row_dot.
  rewrite zip_with_app by done. by rewrite fold_left_app.
Qed.

Lemma multiply_row M vec n i lo hi res :
  wf_matrix M n → Forall (λ c, 0 ≤ c < Z.of_nat (length vec))
                     (CSRMatrix.colIndex M) →
  0 ≤ i < n → length res = Z.to_nat n →
  vget (CSRMatrix.rowIndex M) i = Some lo →
  vget (CSRMatrix.rowIndex M) (i + 1) = Some hi →
  vget res i = Some 0%float →
  ∃ res',
    for_range lo hi (CSRMatrix.multiply_entry M vec i) res = Some res' ∧
    length res' = Z.to_nat n ∧
    vget res' i
    = Some (row_dot vec (slice lo hi (CSRMatrix.values M))
              (slice lo hi (CSRMatrix.colIndex M))) ∧
    ∀ k, k ≠ i → vget res' k = vget res k.
Proof.
  intros (HnR & Hn & Hrl & Hcl & Hri & Hci) Hvec Hi Hres Hlo Hhi H0.
  assert (0 ≤ lo ≤ Z.of_nat (length (CSRMatrix.values M))) as Hlo'.
  { apply vget_Some in Hlo as [_ Hlo].
    apply (Forall_lookup_1 _ _ _ _ Hri Hlo). }
  assert (0 ≤ hi ≤ Z.of_nat (length (CSRMatrix.values M))) as Hhi'.
  { apply vget_Some in Hhi as [_ Hhi].
    apply (Forall_lookup_1 _ _ _ _ Hri Hhi). }
  destruct (decide (hi ≤ lo)) as [Hle|Hlt].
  { exists res. rewrite for_range_empty, !slice_empty by done.
    split_and!; done. }
  destruct (for_range_inv
    (λ j res',
       length res' = Z.to_nat n ∧
       vget res' i
       = Some (row_dot vec (slice lo j (CSRMatrix.values M))
                 (slice lo j (CSRMatrix.colIndex M))) ∧
       ∀ k, k ≠ i → vget res' k = vget res k)
    lo hi (CSRMatrix.multiply_entry M vec i) res)
    as (res' & Hrun & HJ); [lia| | |by exists res'].
  - rewrite !slice_empty by lia. split_and!; done.
  - intros j t Hj (Ht & Hti & Hk). unfold CSRMatrix.multiply_entry.
    destruct (vget_is_Some (CSRMatrix.values M) j) as [v Hv]; [lia|].
    destruct (vget_is_Some (CSRMatrix.colIndex M) j) as [c Hc]; [lia|].
    assert (0 ≤ c < Z.of_nat (length vec)) as Hc'.
    { pose proof Hc as [_ Hc2]%vget_Some.
      apply (Forall_lookup_1 _ _ _ _ Hvec Hc2). }
    destruct (vget_is_Some vec c) as [x Hx]; [lia|].
    rewrite Hv, Hc. cbn [mbind option_bind]. rewrite Hx, Hti.
    cbn [mbind option_bind]. rewrite vset_in_range by lia.
    eexists. split; [done|]. split_and!.
    + by rewrite length_insert.
    + rewrite vget_insert, bool_decide_eq_true_2 by (done || lia).
      rewrite (slice_snoc _ lo j v), (slice_snoc _ lo j c) by (done || lia).
      rewrite row_dot_snoc, Hx; [done|].
      rewrite !length_slice by lia. done.
    + intros k Hne. rewrite vget_insert by lia.
      rewrite bool_decide_eq_false_2 by done. by apply Hk.
Qed.

Lemma multiply_spec M vec n :
  wf_matrix M n →
  Forall (λ c, 0 ≤ c < Z.of_nat (length vec)) (CSRMatrix.colIndex M) →
  ∃ result,
    CSRMatrix.multiply M vec = Some result ∧
    length result = Z.to_nat n ∧
    ∀ i lo hi,
      vget (CSRMatrix.rowIndex M) i = Some lo →
      vget (CSRMatrix.rowIndex M) (i + 1) = Some hi →
      vget result i
      = Some (row_dot vec (slice lo hi (CSRMatrix.values M))
                (slice lo hi (CSRMatrix.colIndex M))).
Proof.
  intros Hwf Hvec. pose proof Hwf as (HnR & Hn & Hrl & Hcl & Hri & Hci).
  unfold CSRMatrix.multiply.
  replace (Z.of_nat (length (CSRMatrix.rowIndex M)) - 1) with n by lia.
  unfold valloc. rewrite (bool_decide_eq_true_2 (0 ≤ n)) by done.
  cbn [mbind option_bind].
  destruct (for_range_inv
    (λ i res,
       length res = Z.to_nat n ∧
       (∀ k lo hi, 0 ≤ k < i →
          vget (CSRMatrix.rowIndex M) k = Some lo →
          vget (CSRMatrix.rowIndex M) (k + 1) = Some hi →
          vget res k
          = Some (row_dot vec (slice lo hi (CSRMatrix.values M))
                    (slice lo hi (CSRMatrix.colIndex M)))) ∧
       (∀ k, i ≤ k < n → vget res k = Some 0%float))
    0 n
    (λ i result,
       lo ← vget (CSRMatrix.rowIndex M) i;
       hi ← vget (CSRMatrix.rowIndex M) (i + 1);
       for_range lo hi (CSRMatrix.multiply_entry M vec i) result)
    (replicate (Z.to_nat n) 0%float))
    as (result & Hrun & Hlen & Hrows & _); [done| | |].
  - split_and!; [apply length_replicate|intros; lia|].
    intros k Hk. apply vget_Some. split; [lia|].
    apply lookup_replicate_2. lia.
  - intros i res Hi (Hlen & Hdone & Htodo).
    destruct (vget_is_Some (CSRMatrix.rowIndex M) i) as [lo Hlo]; [lia|].
    destruct (vget_is_Some (CSRMatrix.rowIndex M) (i + 1)) as [hi Hhi]; [lia|].
    rewrite Hlo, Hhi. cbn [mbind option_bind].
    destruct (multiply_row M vec n i lo hi res Hwf Hvec Hi Hlen Hlo Hhi)
      as (res' & Hrow & Hlen' & Hi' & Hk'); [apply Htodo; lia|].
    exists res'. split; [done|]. split_and!; [done| |].
    + intros k lo' hi' Hk Hlo2 Hhi2.
      destruct (decide (k = i)) as [->|Hne].
      * rewrite Hlo in Hlo2. rewrite Hhi in Hhi2. by simplify_eq.
      * rewrite Hk' by done. apply Hdone; [lia|done|done].
    + intros k Hk. rewrite Hk' by lia. apply Htodo. lia.
  - exists result. split; [done|]. split; [done|].
    intros i lo hi Hlo Hhi. apply Hrows; [|done|done].
    apply vget_in_range in Hlo, Hhi. lia.
Qed.

(** X19. On a matrix whose row pointers stay within the value array and
    whose columns are indices of the vector, [multiply] makes no access
    out of range and returns the product: entry [i] is the sum, from the
    left and starting at 0, of [values[j] * vec[colIndex[j]]] over the
    entries of row [i]; a row without entries gives 0. *)
Theorem multiply_is_row_product (M : CSRMatrix.t) (vec : list float)
  (n : Z) :
  wf_matrix M n →
  Forall (λ c, 0 ≤ c < Z.of_nat (length vec)) (CSRMatrix.colIndex M) →
  ∃ result,
    CSRMatrix.multiply M vec = Some result ∧
    length result = Z.to_nat n ∧
    ∀ i lo hi,
      vget (CSRMatrix.rowIndex M) i = Some lo →
      vget (CSRMatrix.rowIndex M) (i + 1) = Some hi →
      vget result i
      = Some (row_dot vec (slice lo hi (CSRMatrix.values M))
                (slice lo hi (CSRMatrix.colIndex M))) ∧
      (hi ≤ lo → vget result i = Some 0%float).
Proof.
  intros Hwf Hvec.
  destruct (multiply_spec M vec n Hwf Hvec) as (result & Hrun & Hlen & Hrows).
  exists result. split; [done|]. split; [done|].
  intros i lo hi Hlo Hhi. split; [by apply Hrows|].
  intros Hle. rewrite (Hrows i lo hi Hlo Hhi).
  by rewrite !slice_empty by done.
Qed.

Lemma ex_matrix_wf : wf_matrix ex_matrix 3.
Proof.
  split_and!; try done.
  - apply (bool_decide_unpack _). by vm_compute.
  - apply (bool_decide_unpack _). by vm_compute.
Qed.

Lemma multiply_is_row_product_witness :
  wf_matrix ex_matrix 3 ∧
  Forall (λ c, 0 ≤ c < Z.of_nat (length [1; 10; 100]%float))
    (CSRMatrix.colIndex ex_matrix) ∧
  ∃ result,
    CSRMatrix.multiply ex_matrix [1; 10; 100]%float = Some result ∧
    length result = Z.to_nat 3 ∧
    ∀ i lo hi,
      vget (CSRMatrix.rowIndex ex_matrix) i = Some lo →
      vget (CSRMatrix.rowIndex ex_matrix) (i + 1) = Some hi →
      vget result i
      = Some (row_dot [1; 10; 100]%float
                (slice lo hi (CSRMatrix.values ex_matrix))
                (slice lo hi (CSRMatrix.colIndex ex_matrix))) ∧
      (hi ≤ lo → vget result i = Some 0%float).
Proof.
  assert (Forall (λ c, 0 ≤ c < Z.of_nat (length [1; 10; 100]%float))
            (CSRMatrix.colIndex ex_matrix)) as Hvec.
  { apply (bool_decide_unpack _). by vm_compute. }
  split; [exact ex_matrix_wf|]. split; [exact Hvec|].
  exact (multiply_is_row_product ex_matrix [1; 10; 100]%float 3 ex_matrix_wf
           Hvec).
Defined.

(** ** Normalizing the weights *)

Lemma normalize_row (vals0 : list float) lo hi d (vals : list float) :
  0 ≤ lo ≤ hi → hi ≤ Z.of_nat (length vals0) → length vals = length vals0 →
  (∀ j, lo ≤ j → vget vals j = vget vals0 j) →
  ∃ vals',
    for_range lo hi
      (λ j values, v ← vget values j; vset values j (v / d)%float) vals
    = Some vals' ∧
    length vals' = length vals0 ∧
    (∀ j v, lo ≤ j < hi → vget vals0 j = Some v →
            vget vals' j = Some (v / d)%float) ∧
    (∀ j, hi ≤ j → vget vals' j = vget vals0 j) ∧
    (∀ j, j < lo → vget vals' j = vget vals j).
Proof.
  intros Hlo Hhi Hlen Hrest.
  destruct (for_range_inv
    (λ j vals',
       length vals' = length vals0 ∧
       (∀ k v, lo ≤ k < j → vget vals0 k = Some v →
               vget vals' k = Some (v / d)%float) ∧
       (∀ k, j ≤ k → vget vals' k = vget vals0 k) ∧
       (∀ k, k < lo → vget vals' k = vget vals k))
    lo hi
    (λ j values, v ← vget values j; vset values j (v / d)%float) vals)
    as (vals' & Hrun & HJ); [lia| | |by exists vals'].
  - split_and!; [done|intros; lia|done|done].
  - intros j t Hj (Ht & Hdone & Htodo & Hlow).
    destruct (vget_is_Some vals0 j) as [v Hv]; [lia|].
    rewrite (Htodo j), Hv by lia. cbn [mbind option_bind].
    rewrite vset_in_range by lia. eexists. split; [done|].
    split_and!.
    + by rewrite length_insert.
    + intros k w Hk Hw. rewrite vget_insert by lia.
      case_bool_decide as Hkj.
      * subst k. rewrite Hv in Hw. by simplify_eq.
      * apply Hdone; [lia|done].
    + intros k Hk. rewrite vget_insert by lia.
      rewrite bool_decide_eq_false_2 by lia. apply Htodo. lia.
    + intros k Hk. rewrite vget_insert by lia.
      rewrite bool_decide_eq_false_2 by lia. by apply Hlow.
Qed.

Lemma monotone_vget l a b x y :
  monotone l → a ≤ b → vget l a = Some x → vget l b = Some y → x ≤ y.
Proof.
  intros Hm Hab [Ha Hx]%vget_Some [Hb Hy]%vget_Some.
  apply (Hm (Z.to_nat a) (Z.to_nat b)); [lia|done|done].
Qed.

Lemma normalizeWeights_spec M n :
  wf_matrix M n → monotone (CSRMatrix.rowIndex M) →
  ∃ vals',
    CSRMatrix.normalizeWeights M
    = Some {| CSRMatrix.values := vals';
              CSRMatrix.colIndex := CSRMatrix.colIndex M;
              CSRMatrix.rowIndex := CSRMatrix.rowIndex M;
              CSRMatrix.numRows := CSRMatrix.numRows M |} ∧
    length vals' = length (CSRMatrix.values M) ∧
    ∀ i lo hi j v,
      vget (CSRMatrix.rowIndex M) i = Some lo →
      vget (CSRMatrix.rowIndex M) (i + 1) = Some hi →
      lo ≤ j < hi → vget (CSRMatrix.values M) j = Some v →
      vget vals' j = Some (normalized v (hi - lo)).
Proof.
  intros Hwf Hmono. pose proof Hwf as (HnR & Hn & Hrl & Hcl & Hri & Hci).
  unfold CSRMatrix.normalizeWeights. rewrite HnR.
  destruct (for_range_inv
    (λ i vals,
       length vals = length (CSRMatrix.values M) ∧
       (∀ k lo hi j v, 0 ≤ k < i →
          vget (CSRMatrix.rowIndex M) k = Some lo →
          vget (CSRMatrix.rowIndex M) (k + 1) = Some hi →
          lo ≤ j < hi → vget (CSRMatrix.values M) j = Some v →
          vget vals j = Some (normalized v (hi - lo))) ∧
       (∀ lo j, vget (CSRMatrix.rowIndex M) i = Some lo → lo ≤ j →
                vget vals j = vget (CSRMatrix.values M) j))
    0 n
    (λ i values,
       hi ← vget (CSRMatrix.rowIndex M) (i + 1);
       lo ← vget (CSRMatrix.rowIndex M) i;
       let outDegree := of_int (hi - lo) in
       if (0 <? outDegree)%float then
         for_range lo hi
           (λ j values, v ← vget values j;
                        vset values j (v / outDegree)%float)
           values
       else Some values)
    (CSRMatrix.values M))
    as (vals' & Hrun & Hlen & Hrows & _); [done| | |].
  - split_and!; [done|intros; lia|done].
  - intros i vals Hi (Hlen & Hdone & Htodo).
    destruct (vget_is_Some (CSRMatrix.rowIndex M) i) as [lo Hlo]; [lia|].
    destruct (vget_is_Some (CSRMatrix.rowIndex M) (i + 1)) as [hi Hhi]; [lia|].
    rewrite Hlo, Hhi. cbn [mbind option_bind].
    assert (lo ≤ hi) as Hle.
    { apply (monotone_vget _ i (i + 1) lo hi Hmono); [lia|done|done]. }
    assert (0 ≤ lo ∧ hi ≤ Z.of_nat (length (CSRMatrix.values M))) as [Hlo0 HhiL].
    { pose proof Hlo as [_ Hlo2]%vget_Some. pose proof Hhi as [_ Hhi2]%vget_Some.
      pose proof (Forall_lookup_1 _ _ _ _ Hri Hlo2) as H1.
      pose proof (Forall_lookup_1 _ _ _ _ Hri Hhi2) as H2.
      simpl in *. lia. }
    assert (∀ k lo' hi' j, 0 ≤ k < i →
              vget (CSRMatrix.rowIndex M) k = Some lo' →
              vget (CSRMatrix.rowIndex M) (k + 1) = Some hi' →
              lo' ≤ j < hi' → j < lo) as Hbelow.
    { intros k lo' hi' j Hk _ Hhi2 Hj.
      pose proof (monotone_vget _ (k + 1) i hi' lo Hmono ltac:(lia) Hhi2 Hlo).
      lia. }
    destruct (0 <? of_int (hi - lo))%float eqn:Hpos.
    + destruct (normalize_row (CSRMatrix.values M) lo hi (of_int (hi - lo))
                  vals) as (vals1 & Hrow & Hlen1 & Hin & Hafter & Hbefore);
        [lia|lia|done|intros j ?; by apply (Htodo lo)|].
      exists vals1. split; [done|]. split_and!; [done| |].
      * intros k lo' hi' j v Hk Hlo2 Hhi2 Hj Hv.
        destruct (decide (k = i)) as [->|Hne].
        -- assert (lo' = lo) as -> by congruence.
           assert (hi' = hi) as -> by congruence.
           unfold normalized. rewrite Hpos. by apply Hin.
        -- rewrite Hbefore by (apply (Hbelow k lo' hi' j); [lia|done|done|done]).
           apply (Hdone k lo' hi'); [lia|done|done|done|done].
      * intros lo' j Hlo2 Hj. assert (lo' = hi) as -> by congruence.
        by apply Hafter.
    + exists vals. split; [done|]. split_and!; [done| |].
      * intros k lo' hi' j v Hk Hlo2 Hhi2 Hj Hv.
        destruct (decide (k = i)) as [->|Hne].
        -- assert (lo' = lo) as -> by congruence.
           assert (hi' = hi) as -> by congruence.
           unfold normalized. rewrite Hpos. rewrite <-Hv.
           apply (Htodo lo); [done|lia].
        -- apply (Hdone k lo' hi'); [lia|done|done|done|done].
      * intros lo' j Hlo2 Hj. assert (lo' = hi) as -> by congruence.
        apply (Htodo lo); [done|lia].
  - exists vals'. cbv zeta in Hrun. rewrite Hrun. cbn [mbind option_bind].
    split; [done|]. split; [done|].
    intros i lo hi j v Hlo Hhi Hj Hv.
    apply (Hrows i lo hi); try done.
    apply vget_in_range in Hlo, Hhi. lia.
Qed.

(** X20. On a matrix with non-decreasing row pointers,
    [normalizeWeights] changes the values only: every value of a row is
    divided once by the number of entries of that row, converted to
    [double], whatever the weights of the row are. *)
Theorem normalizeWeights_divides_by_entry_count (M : CSRMatrix.t) (n : Z) :
  wf_matrix M n → monotone (CSRMatrix.rowIndex M) →
  ∃ M',
    CSRMatrix.normalizeWeights M = Some M' ∧
    CSRMatrix.colIndex M' = CSRMatrix.colIndex M ∧
    CSRMatrix.rowIndex M' = CSRMatrix.rowIndex M ∧
    CSRMatrix.numRows M' = CSRMatrix.numRows M ∧
    length (CSRMatrix.values M') = length (CSRMatrix.values M) ∧
    ∀ i lo hi j v,
      vget (CSRMatrix.rowIndex M) i = Some lo →
      vget (CSRMatrix.rowIndex M) (i + 1) = Some hi →
      lo ≤ j < hi → vget (CSRMatrix.values M) j = Some v →
      vget (CSRMatrix.values M') j
      = Some (if (0 <? of_int (hi - lo))%float
              then (v / of_int (hi - lo))%float else v).
Proof.
  intros Hwf Hmono.
  destruct (normalizeWeights_spec M n Hwf Hmono) as (vals' & Hrun & Hlen & Hrows).
  eexists. split; [exact Hrun|]. simpl. split_and!; try done.
Qed.

Lemma ex_matrix_monotone : monotone (CSRMatrix.rowIndex ex_matrix).
Proof.
  intros a b x y Hab Ha Hb.
  destruct a as [|[|[|[|a]]]]; destruct b as [|[|[|[|b]]]];
    simplify_eq/=; lia.
Qed.

Lemma normalizeWeights_divides_by_entry_count_witness :
  wf_matrix ex_matrix 3 ∧ monotone (CSRMatrix.rowIndex ex_matrix) ∧
  ∃ M',
    CSRMatrix.normalizeWeights ex_matrix = Some M' ∧
    CSRMatrix.colIndex M' = CSRMatrix.colIndex ex_matrix ∧
    CSRMatrix.rowIndex M' = CSRMatrix.rowIndex ex_matrix ∧
    CSRMatrix.numRows M' = CSRMatrix.numRows ex_matrix ∧
    length (CSRMatrix.values M') = length (CSRMatrix.values ex_matrix) ∧
    ∀ i lo hi j v,
      vget (CSRMatrix.rowIndex ex_matrix) i = Some lo →
      vget (CSRMatrix.rowIndex ex_matrix) (i + 1) = Some hi →
      lo ≤ j < hi → vget (CSRMatrix.values ex_matrix) j = Some v →
      vget (CSRMatrix.values M') j
      = Some (if (0 <? of_int (hi - lo))%float
              then (v / of_int (hi - lo))%float else v).
Proof.
  split; [exact ex_matrix_wf|]. split; [exact ex_matrix_monotone|].
  exact (normalizeWeights_divides_by_entry_count ex_matrix 3 ex_matrix_wf
           ex_matrix_monotone).
Defined.

(** ** The iteration of [src/main.cpp] *)

Lemma for_range_update {A : Type} (G : Z → A → A)
  (body : Z → list A → option (list A)) n (v : list A) :
  0 ≤ n → length v = Z.to_nat n →
  (∀ i t x, 0 ≤ i < n → length t = Z.to_nat n → vget t i = Some x →
            body i t = Some (<[Z.to_nat i := G i x]> t)) →
  ∃ v', for_range 0 n body v = Some v' ∧ length v' = Z.to_nat n ∧
        ∀ i x, vget v i = Some x → vget v' i = Some (G i x).
Proof.
  intros Hn Hlen Hbody.
  destruct (for_range_inv
    (λ i t, length t = Z.to_nat n ∧
            (∀ k x, 0 ≤ k < i → vget v k = Some x →
                    vget t k = Some (G k x)) ∧
            (∀ k, i ≤ k → vget t k = vget v k))
    0 n body v) as (v' & Hrun & Hlen' & Hdone & _); [done| | |].
  - split_and!; [done|intros; lia|done].
  - intros i t Hi (Ht & Hdone & Htodo).
    destruct (vget_is_Some v i) as [x Hx]; [lia|].
    rewrite (Hbody i t x) by (done || by rewrite Htodo by lia).
    eexists. split; [done|]. split_and!.
    + by rewrite length_insert.
    + intros k y Hk Hy. rewrite vget_insert by lia.
      case_bool_decide as Hki.
      * subst k. rewrite Hx in Hy. by simplify_eq.
      * apply Hdone; [lia|done].
    + intros k Hk. rewrite vget_insert by lia.
      rewrite bool_decide_eq_false_2 by lia. apply Htodo. lia.
  - exists v'. split; [done|]. split; [done|].
    intros i x Hx. apply Hdone; [|done]. apply vget_in_range in Hx. lia.
Qed.

Lemma vget_insert_id {A : Type} (t : list A) i x :
  vget t i = Some x → <[Z.to_nat i := x]> t = t.
Proof. intros [_ Hx]%vget_Some. by apply list_insert_id. Qed.

Lemma start_vector p :
  for_range 0 (Z.of_nat (length p))
    (λ i r, x ← vget p i; if (0 <? x)%float then vset r i x else Some r)
    (replicate (Z.to_nat (Z.of_nat (length p))) 0%float)
  = Some (positive_part p).
Proof.
  destruct (for_range_update
    (λ i (x : float),
       match vget p i with
       | Some y => if (0 <? y)%float then y else x
       | None => x
       end)
    (λ i r, x ← vget p i; if (0 <? x)%float then vset r i x else Some r)
    (Z.of_nat (length p))
    (replicate (Z.to_nat (Z.of_nat (length p))) 0%float))
    as (r & Hrun & Hlen & Hr); [lia|apply length_replicate| |].
  - intros i t x Hi Ht Hx.
    destruct (vget_is_Some p i) as [y Hy]; [lia|].
    rewrite Hy. cbn [mbind option_bind].
    destruct (0 <? y)%float; [by rewrite vset_in_range by lia|].
    by rewrite (vget_insert_id t i x).
  - rewrite Hrun. f_equal. apply vget_ext.
    { unfold positive_part. rewrite length_fmap. lia. }
    intros i Hi.
    assert (vget (replicate (Z.to_nat (Z.of_nat (length p))) 0%float) i
            = Some 0%float) as H0.
    { apply vget_Some. split; [lia|]. apply lookup_replicate_2. lia. }
    rewrite (Hr i _ H0). unfold positive_part.
    destruct (vget_is_Some p i) as [y Hy]; [lia|]. rewrite Hy.
    apply vget_Some in Hy as [? Hy]. symmetry. apply vget_Some.
    split; [done|]. by rewrite list_lookup_fmap, Hy.
Qed.

Lemma handleDeadEnds_spec M n v alpha :
  wf_matrix M n → length v = Z.to_nat n →
  ∃ v',
    CSRMatrix.handleDeadEnds M v alpha = Some v' ∧
    length v' = Z.to_nat n ∧
    ∀ i lo hi x,
      vget (CSRMatrix.rowIndex M) i = Some lo →
      vget (CSRMatrix.rowIndex M) (i + 1) = Some hi →
      vget v i = Some x →
      vget v' i
      = Some (if bool_decide (lo = hi) then (x + alpha / of_int n)%float
              else x).
Proof.
  intros (HnR & Hn & Hrl & Hcl & Hri & Hci) Hlen.
  unfold CSRMatrix.handleDeadEnds. rewrite HnR.
  destruct (for_range_update
    (λ i (x : float),
       match vget (CSRMatrix.rowIndex M) i,
             vget (CSRMatrix.rowIndex M) (i + 1) with
       | Some lo, Some hi =>
           if bool_decide (lo = hi) then (x + alpha / of_int n)%float else x
       | _, _ => x
       end)
    (λ i p,
       lo ← vget (CSRMatrix.rowIndex M) i;
       hi ← vget (CSRMatrix.rowIndex M) (i + 1);
       if bool_decide (lo = hi) then
         x ← vget p i; vset p i (x + alpha / of_int n)%float
       else Some p)
    n v) as (v' & Hrun & Hlen' & Hv'); [done|done| |].
  - intros i t x Hi Ht Hx.
    destruct (vget_is_Some (CSRMatrix.rowIndex M) i) as [lo Hlo]; [lia|].
    destruct (vget_is_Some (CSRMatrix.rowIndex M) (i + 1)) as [hi Hhi]; [lia|].
    rewrite Hlo, Hhi. cbn [mbind option_bind].
    case_bool_decide.
    + rewrite Hx. cbn [mbind option_bind]. by rewrite vset_in_range by lia.
    + by rewrite (vget_insert_id t i x).
  - exists v'. split; [done|]. split; [done|].
    intros i lo hi x Hlo Hhi Hx. rewrite (Hv' i x Hx). by rewrite Hlo, Hhi.
Qed.

Lemma damping_spec (p : list float) alpha n v :
  0 ≤ n → length p = Z.to_nat n → length v = Z.to_nat n →
  ∃ v',
    for_range 0 n
      (λ i r_new, x ← vget r_new i; pi ← vget p i;
                  vset r_new i ((1 - alpha) * x + alpha * pi)%float) v
    = Some v' ∧
    length v' = Z.to_nat n ∧
    ∀ i x pi, vget v i = Some x → vget p i = Some pi →
              vget v' i = Some ((1 - alpha) * x + alpha * pi)%float.
Proof.
  intros Hn Hp Hlen.
  destruct (for_range_update
    (λ i (x : float),
       match vget p i with
       | Some pi => ((1 - alpha) * x + alpha * pi)%float
       | None => x
       end)
    (λ i r_new, x ← vget r_new i; pi ← vget p i;
                vset r_new i ((1 - alpha) * x + alpha * pi)%float)
    n v) as (v' & Hrun & Hlen' & Hv'); [done|done| |].
  - intros i t x Hi Ht Hx.
    destruct (vget_is_Some p i) as [pi Hpi]; [lia|].
    rewrite Hx, Hpi. cbn [mbind option_bind].
    by rewrite vset_in_range by lia.
  - exists v'. split; [done|]. split; [done|].
    intros i x pi Hx Hpi. rewrite (Hv' i x Hx). by rewrite Hpi.
Qed.

Lemma norm_terms (a b : list float) n :
  0 ≤ n → length a = Z.to_nat n → length b = Z.to_nat n →
  ∃ terms,
    mapM (λ i, x ← vget a i; y ← vget b i; Some (abs (x - y))%float)
      (seqZ 0 n) = Some terms ∧
    length terms = Z.to_nat n ∧
    ∀ i x y, vget a i = Some x → vget b i = Some y →
             vget terms i = Some (abs (x - y))%float.
Proof.
  intros Hn Ha Hb.
  destruct (mapM (λ i, x ← vget a i; y ← vget b i; Some (abs (x - y))%float)
              (seqZ 0 n)) as [terms|] eqn:Hm.
  - exists terms. split; [done|].
    apply mapM_Some_1 in Hm.
    pose proof (Forall2_length _ _ _ Hm) as Hlen. rewrite length_seqZ in Hlen.
    split; [done|]. intros i x y Hx Hy.
    pose proof (vget_in_range _ _ _ Hx) as Hi.
    destruct (Forall2_lookup_l _ _ _ (Z.to_nat i) i Hm) as (t & Ht & Hti).
    { rewrite lookup_seqZ. lia. }
    rewrite Hx, Hy in Hti. simpl in Hti. simplify_eq.
    apply vget_Some. split; [lia|done].
  - exfalso. apply mapM_None_1 in Hm. apply Exists_exists in Hm as (i & Hi & Hf).
    apply elem_of_seqZ in Hi.
    destruct (vget_is_Some a i) as [x Hx]; [lia|].
    destruct (vget_is_Some b i) as [y Hy]; [lia|].
    by rewrite Hx, Hy in Hf.
Qed.

Lemma pagerank_iteration_spec (omp_sum : list float → float) M p
  alpha epsilon n iter r :
  wf_matrix M n → length p = Z.to_nat n → length r = Z.to_nat n →
  ∃ r_new terms,
    pagerank_iteration omp_sum M p alpha epsilon n iter r
    = Some (if (omp_sum terms <? epsilon)%float then Break r_new
            else Continue r_new) ∧
    length r_new = Z.to_nat n ∧
    (∀ i lo hi pi,
       vget (CSRMatrix.rowIndex M) i = Some lo →
       vget (CSRMatrix.rowIndex M) (i + 1) = Some hi →
       vget p i = Some pi →
       vget r_new i
       = Some (if bool_decide (lo = hi)
               then ((1 - alpha)
                     * row_dot r (slice lo hi (CSRMatrix.values M))
                         (slice lo hi (CSRMatrix.colIndex M))
                     + alpha * pi + alpha / of_int n)%float
               else ((1 - alpha)
                     * row_dot r (slice lo hi (CSRMatrix.values M))
                         (slice lo hi (CSRMatrix.colIndex M))
                     + alpha * pi)%float)) ∧
    length terms = Z.to_nat n ∧
    (∀ i a b, vget r_new i = Some a → vget r i = Some b →
              vget terms i = Some (abs (a - b))%float).
Proof.
  intros Hwf Hp Hr. pose proof Hwf as (HnR & Hn & Hrl & Hcl & Hri & Hci).
  destruct (multiply_spec M r n Hwf) as (v1 & Hmul & Hlen1 & Hv1).
  { eapply Forall_impl; [done|]. intros c ?. simpl in *. lia. }
  destruct (damping_spec p alpha n v1 Hn Hp Hlen1) as (v2 & Hdamp & Hlen2 & Hv2).
  destruct (handleDeadEnds_spec M n v2 alpha Hwf Hlen2)
    as (v3 & Hdead & Hlen3 & Hv3).
  destruct (norm_terms v3 r n Hn Hlen3 Hr) as (terms & Hterms & Hlent & Hts).
  exists v3, terms. unfold pagerank_iteration.
  rewrite Hmul. cbn [mbind option_bind]. rewrite Hdamp.
  cbn [mbind option_bind]. rewrite Hdead. cbn [mbind option_bind].
  rewrite Hterms. cbn [mbind option_bind].
  split; [by destruct (omp_sum terms <? epsilon)%float|].
  split; [done|]. split; [|done].
  intros i lo hi pi Hlo Hhi Hpi.
  pose proof (Hv1 i lo hi Hlo Hhi) as H1.
  pose proof (Hv2 i _ pi H1 Hpi) as H2.
  rewrite (Hv3 i lo hi _ Hlo Hhi H2). by case_bool_decide.
Qed.

(** X21. One pass of [personalizedPageRank] on a well-formed matrix with
    as many rows as [p] has entries: entry [i] of the new vector is
    [(1 - alpha) * (M r)[i] + alpha * p[i]], a row without entries gets
    [alpha / numRows] on top, and the pass ends the function when the
    reduction of the terms [|r_new[i] - r[i]|] is below [epsilon],
    whatever the order the reduction adds them in. *)
Theorem pagerank_sweep_formula (omp_sum : list float → float)
  (M : CSRMatrix.t) (p : list float) (alpha epsilon : float) (n iter : Z)
  (r : list float) :
  wf_matrix M n → length p = Z.to_nat n → length r = Z.to_nat n →
  ∃ r_new terms,
    pagerank_iteration omp_sum M p alpha epsilon n iter r
    = Some (if (omp_sum terms <? epsilon)%float then Break r_new
            else Continue r_new) ∧
    length r_new = Z.to_nat n ∧
    (∀ i lo hi pi,
       vget (CSRMatrix.rowIndex M) i = Some lo →
       vget (CSRMatrix.rowIndex M) (i + 1) = Some hi →
       vget p i = Some pi →
       vget r_new i
       = Some (if bool_decide (lo = hi)
               then ((1 - alpha)
                     * row_dot r (slice lo hi (CSRMatrix.values M))
                         (slice lo hi (CSRMatrix.colIndex M))
                     + alpha * pi + alpha / of_int n)%float
               else ((1 - alpha)
                     * row_dot r (slice lo hi (CSRMatrix.values M))
                         (slice lo hi (CSRMatrix.colIndex M))
                     + alpha * pi)%float)) ∧
    length terms = Z.to_nat n ∧
    (∀ i a b, vget r_new i = Some a → vget r i = Some b →
              vget terms i = Some (abs (a - b))%float).
Proof. apply pagerank_iteration_spec. Qed.

Lemma pagerank_sweep_formula_witness :
  wf_matrix ex_matrix 3 ∧
  length [0.5; 0; 0.5]%float = Z.to_nat 3 ∧
  length [0.5; 0; 0.5]%float = Z.to_nat 3 ∧
  ∃ r_new terms,
    pagerank_iteration fsum ex_matrix [0.5; 0; 0.5]%float 0.15 1e-6 3 0
      [0.5; 0; 0.5]%float
    = Some (if (fsum terms <? 1e-6)%float then Break r_new
            else Continue r_new) ∧
    length r_new = Z.to_nat 3 ∧
    (∀ i lo hi pi,
       vget (CSRMatrix.rowIndex ex_matrix) i = Some lo →
       vget (CSRMatrix.rowIndex ex_matrix) (i + 1) = Some hi →
       vget [0.5; 0; 0.5]%float i = Some pi →
       vget r_new i
       = Some (if bool_decide (lo = hi)
               then ((1 - 0.15)
                     * row_dot [0.5; 0; 0.5]%float
                         (slice lo hi (CSRMatrix.values ex_matrix))
                         (slice lo hi (CSRMatrix.colIndex ex_matrix))
                     + 0.15 * pi + 0.15 / of_int 3)%float
               else ((1 - 0.15)
                     * row_dot [0.5; 0; 0.5]%float
                         (slice lo hi (CSRMatrix.values ex_matrix))
                         (slice lo hi (CSRMatrix.colIndex ex_matrix))
                     + 0.15 * pi)%float)) ∧
    length terms = Z.to_nat 3 ∧
    (∀ i a b, vget r_new i = Some a → vget [0.5; 0; 0.5]%float i = Some b →
              vget terms i = Some (abs (a - b))%float).
Proof.
  split; [exact ex_matrix_wf|]. split; [reflexivity|]. split; [reflexivity|].
  exact (pagerank_sweep_formula fsum ex_matrix [0.5; 0; 0.5]%float 0.15 1e-6
           3 0 [0.5; 0; 0.5]%float ex_matrix_wf eq_refl eq_refl).
Defined.

Lemma personalizedPageRank_total (omp_sum : list float → float) M p
  alpha epsilon max_iter :
  wf_matrix M (Z.of_nat (length p)) →
  ∃ r,
    personalizedPageRank omp_sum M p alpha epsilon max_iter = Some r ∧
    length r = length p ∧
    (max_iter ≤ 0 → r = positive_part p).
Proof.
  intros Hwf. unfold personalizedPageRank, valloc.
  rewrite (bool_decide_eq_true_2 (0 ≤ Z.of_nat (length p))) by lia.
  cbn [mbind option_bind]. rewrite start_vector. cbn [mbind option_bind].
  unfold for_range_break.
  destruct (for_iter_break_inv
    (λ r : list float, length r = length p)
    (pagerank_iteration omp_sum M p alpha epsilon (Z.of_nat (length p)))
    (Z.to_nat (max_iter - 0)) 0 (positive_part p)) as (r & Hrun & Hlen).
  - unfold positive_part. by rewrite length_fmap.
  - intros j t Ht.
    destruct (pagerank_iteration_spec omp_sum M p alpha epsilon
                (Z.of_nat (length p)) j t Hwf)
      as (r_new & terms & Hit & Hlen & _); [lia|lia|].
    rewrite Hit. eexists. split; [done|].
    destruct (omp_sum terms <? epsilon)%float; simpl; lia.
  - exists r. split; [done|]. split; [done|].
    intros Hmax. replace (Z.to_nat (max_iter - 0)) with O in Hrun by lia.
    simpl in Hrun. by simplify_eq.
Qed.

(** X22. On a well-formed matrix with as many rows as [p] has entries,
    [personalizedPageRank] makes no access out of range and returns a
    vector of the length of [p], for every [max_iter] and every order of
    the reduction. Without a pass ([max_iter <= 0]) the result is the start
    vector: [p] with its entries that are not positive replaced by 0. *)
Theorem personalizedPageRank_returns (omp_sum : list float → float)
  (M : CSRMatrix.t) (p : list float) (alpha epsilon : float) (max_iter : Z) :
  wf_matrix M (Z.of_nat (length p)) →
  ∃ r,
    personalizedPageRank omp_sum M p alpha epsilon max_iter = Some r ∧
    length r = length p ∧
    (max_iter ≤ 0 →
     r = (λ x, if (0 <? x)%float then x else 0%float) <$> p).
Proof. apply personalizedPageRank_total. Qed.

Lemma personalizedPageRank_returns_witness :
  wf_matrix ex_matrix (Z.of_nat (length [0.5; -1; 0.5]%float)) ∧
  ∃ r,
    personalizedPageRank fsum ex_matrix [0.5; -1; 0.5]%float 0.15 1e-6 0
    = Some r ∧
    length r = length [0.5; -1; 0.5]%float ∧
    (0 ≤ 0 →
     r = (λ x, if (0 <? x)%float then x else 0%float)
           <$> [0.5; -1; 0.5]%float).
Proof.
  split; [exact ex_matrix_wf|].
  exact (personalizedPageRank_returns fsum ex_matrix [0.5; -1; 0.5]%float
           0.15 1e-6 0 ex_matrix_wf).
Defined.

(** ** [main] of [src/main.cpp] *)

Lemma loaded_matrix_wf (S edges : list (Z * (Z * float))) rows :
  0 ≤ rows → S ≡ₚ edges →
  Forall (λ e, 0 ≤ e.2.1 < rows) edges →
  wf_matrix
    {| CSRMatrix.values := (λ e, e.2.2) <$> S;
       CSRMatrix.colIndex := (λ e, e.2.1) <$> S;
       CSRMatrix.rowIndex := (λ i, count_lt edges i) <$> seqZ 0 (rows + 1);
       CSRMatrix.numRows := rows |} rows ∧
  monotone ((λ i, count_lt edges i) <$> seqZ 0 (rows + 1)).
Proof.
  intros Hrows Hperm Hto. split.
  - split_and!; cbn [CSRMatrix.values CSRMatrix.colIndex CSRMatrix.rowIndex
                     CSRMatrix.numRows]; try done.
    + apply length_fmap_seqZ.
    + by rewrite !length_fmap.
    + apply Forall_fmap, Forall_forall. intros i _. simpl.
      rewrite length_fmap, Hperm. apply count_lt_le_length.
    + apply Forall_fmap. rewrite Hperm.
      eapply Forall_impl; [done|]. by intros e ?.
  - intros a b x y Hab Ha Hb.
    rewrite list_lookup_fmap in Ha, Hb.
    destruct (seqZ 0 (rows + 1) !! a) as [i|] eqn:Hi; [|done].
    destruct (seqZ 0 (rows + 1) !! b) as [j|] eqn:Hj; [|done].
    apply lookup_seqZ in Hi as [-> _]. apply lookup_seqZ in Hj as [-> _].
    simplify_eq/=. apply count_lt_mono. lia.
Qed.

(** X23. [main] of [src/main.cpp] runs to its end when every transaction
    it reads is between two of its five nodes: whatever order [std::sort]
    and the reduction choose, reading, normalizing and ranking make no
    access out of range, and every node reported is one of the five. *)
Theorem first_main_runs (omp_sum : list float → float)
  (sort : list (Z * (Z * float)) → list (Z * (Z * float)))
  (edges : list (Z * (Z * float))) :
  sort edges ≡ₚ edges →
  Forall (λ e, 0 ≤ e.1 < 5 ∧ 0 ≤ e.2.1 < 5) edges →
  ∃ reported,
    first_main omp_sum sort edges = Some reported ∧
    Forall (λ i, 0 ≤ i < 5) reported.
Proof.
  intros Hperm Hedges.
  destruct (readFromFile_spec sort edges 5 5) as [Hc Hr]; [lia|done| |].
  { eapply Forall_impl; [done|]. intros e [? _]. simpl in *. lia. }
  destruct (loaded_matrix_wf (sort edges) edges 5) as [Hwf Hmono];
    [lia|done| |].
  { eapply Forall_impl; [done|]. by intros e [_ ?]. }
  destruct (normalizeWeights_spec _ 5 Hwf Hmono) as (vals' & Hnorm & Hlen & _).
  cbn [CSRMatrix.values CSRMatrix.colIndex CSRMatrix.rowIndex
       CSRMatrix.numRows] in Hnorm, Hlen.
  unfold first_main. rewrite Hc. cbn [mbind option_bind].
  rewrite Hr. cbn [mbind option_bind]. rewrite Hnorm.
  cbn [mbind option_bind valloc].
  assert (wf_matrix
            {| CSRMatrix.values := vals';
               CSRMatrix.colIndex := (λ e, e.2.1) <$> sort edges;
               CSRMatrix.rowIndex :=
                 (λ i, count_lt edges i) <$> seqZ 0 (5 + 1);
               CSRMatrix.numRows := 5 |} 5) as Hwf'.
  { destruct Hwf as (? & ? & ? & Hcl & Hri & ?).
    cbn [CSRMatrix.values CSRMatrix.colIndex CSRMatrix.rowIndex
         CSRMatrix.numRows] in *.
    split_and!; cbn [CSRMatrix.values CSRMatrix.colIndex CSRMatrix.rowIndex
                     CSRMatrix.numRows]; try done.
    - by rewrite Hlen.
    - by rewrite Hlen. }
  unfold valloc. rewrite (bool_decide_eq_true_2 (0 ≤ 5)) by lia.
  cbn [mbind option_bind].
  set (P := for_each_opt _ _ _).
  assert (∃ p, P = Some p ∧ length p = 5%nat) as (p & -> & Hp5).
  { eexists. split; reflexivity. }
  cbn [mbind option_bind].
  destruct (personalizedPageRank_total omp_sum
              {| CSRMatrix.values := vals';
                 CSRMatrix.colIndex := (λ e, e.2.1) <$> sort edges;
                 CSRMatrix.rowIndex :=
                   (λ i, count_lt edges i) <$> seqZ 0 (5 + 1);
                 CSRMatrix.numRows := 5 |}
              p 0.15 1e-6 100) as (result & Hppr & Hlenr & _).
  { by rewrite Hp5. }
  rewrite Hppr. cbn [mbind option_bind].
  destruct (for_range_inv
    (λ (_ : Z) (reported : list Z), Forall (λ i, 0 ≤ i < 5) reported)
    0 5
    (λ i reported,
       x ← vget result i;
       if (x <? 0.001)%float then Some (reported ++ [i]) else Some reported)
    []) as (reported & Hrun & Hrep); [lia|done| |by exists reported].
  intros i reported Hi Hrep.
  destruct (vget_is_Some result i) as [x Hx]; [lia|].
  rewrite Hx. cbn [mbind option_bind].
  destruct (x <? 0.001)%float; eexists; (split; [done|]); [|done].
  apply Forall_app. split; [done|]. by apply Forall_singleton.
Qed.

Lemma first_main_runs_witness :
  sort_edges tx_edges ≡ₚ tx_edges ∧
  Forall (λ e, 0 ≤ e.1 < 5 ∧ 0 ≤ e.2.1 < 5) tx_edges ∧
  ∃ reported,
    first_main fsum sort_edges tx_edges = Some reported ∧
    Forall (λ i, 0 ≤ i < 5) reported.
Proof.
  assert (Forall (λ e : Z * (Z * float), 0 ≤ e.1 < 5 ∧ 0 ≤ e.2.1 < 5)
            tx_edges) as Hedges.
  { repeat constructor; simpl; lia. }
  split; [apply sort_edges_perm|]. split; [exact Hedges|].
  exact (first_main_runs fsum sort_edges tx_edges (sort_edges_perm _) Hedges).
Defined.

(** * Weight sanitization, edge by edge *)

Lemma getId_lookup name m id m' :
  getId name m = (id, m') →
  name_to_id m' !! name = Some id ∧ name_to_id m ⊆ name_to_id m'.
Proof.
  unfold getId.
  destruct (name_to_id m !! name) as [id0|] eqn:Hl; intros [= <- <-].
  - done.
  - simpl. split; [apply lookup_insert_eq|by apply insert_subseteq].
Qed.

Lemma read_lines_ids lines acc m edges m' :
  for_each lines read_line (acc, m) = (edges, m') →
  name_to_id m ⊆ name_to_id m' ∧
  ∃ new,
    edges = acc ++ new ∧
    Forall2 (λ l e, name_to_id m' !! u_str l = Some (e_u e) ∧
                    name_to_id m' !! v_str l = Some (e_v e) ∧
                    e_w e = line_weight l) lines new.
Proof.
  unfold for_each. revert acc m.
  induction lines as [|l lines IH]; intros acc m Hrun.
  - simplify_eq/=. split; [done|]. exists []. by rewrite app_nil_r.
  - cbn [fold_left] in Hrun. unfold read_line at 2 in Hrun.
    destruct (getId (u_str l) m) as [u m1] eqn:Hu.
    destruct (getId (v_str l) m1) as [v m2] eqn:Hv.
    destruct (getId_lookup _ _ _ _ Hu) as [Hu1 Hsub1].
    destruct (getId_lookup _ _ _ _ Hv) as [Hv2 Hsub2].
    destruct (IH _ _ Hrun) as (Hsub & new & -> & Hnew).
    split; [by etrans; [|etrans]|].
    eexists (_ :: new). rewrite <-app_assoc. split; [done|].
    constructor; [|done]. simpl. split_and!; [|by eapply lookup_weaken|done].
    eapply lookup_weaken; [|done]. by eapply lookup_weaken.
Qed.

(** C7. Every input edge is stored with its sanitized weight: the edges
    read are, line by line, the ids of the two names of the line and the
    absolute value of its weight, with 1e-4 for an input weight of 0 (and
    1.0 for a missing weight), and the row of every node holds the edges
    that leave it, destination and weight, in input order. So the stored
    weights are the sanitized input weights in row-major order, an input
    weight of 0 is stored as 1e-4 and one of -2.5 as 2.5, and every stored
    weight is strictly positive. *)
Theorem loader_sanitizes_each_edge (lines : list edge_line)
  (m : NodeMapper) :
  mapper_ok m → Forall parsed_weight lines →
  ∃ g m' edges,
    loadGraphFromFile lines m = Some (g, m') ∧
    Forall2 (λ l e, name_to_id m' !! u_str l = Some (e_u e) ∧
                    name_to_id m' !! v_str l = Some (e_v e) ∧
                    e_w e = match w_in l with
                            | Some w => sanitized w
                            | None => 1%float
                            end) lines edges ∧
    (∀ u, 0 ≤ u < num_nodes g →
          ∃ lo hi,
            vget (row_ptr g) u = Some lo ∧
            vget (row_ptr g) (u + 1) = Some hi ∧
            slice lo hi (col_indices g) = e_v <$> filter_src edges u ∧
            slice lo hi (edge_weights g) = e_w <$> filter_src edges u) ∧
    edge_weights g
    ≡ₚ (λ l, match w_in l with
             | Some w => sanitized w
             | None => 1%float
             end) <$> lines ∧
    sanitized 0 = 0.0001%float ∧
    sanitized (-2.5) = 2.5%float ∧
    Forall (λ w, (0 <? w)%float = true) (edge_weights g).
Proof.
  intros Hok Hparsed.
  destruct (loadGraphFromFile_spec lines m Hok)
    as (g & m' & edges & Hl & Hread & _ & Hedges & Hw & Hlen & Hcsr).
  destruct (read_lines_ids _ _ _ _ _ Hread) as (_ & new & Hnew & Hids).
  simpl in Hnew. subst new.
  assert (edge_weights g ≡ₚ line_weight <$> lines) as Hperm.
  { rewrite (csr_weights _ _ _ Hcsr), concat_fmap_snd.
    rewrite concat_adj_rows, <-Hw, <-list_fmap_compose;
      [done|unfold getNumNodes; lia|].
    eapply Forall_impl; [done|]. by intros e [? _]. }
  exists g, m', edges. split_and!; try done.
  - eapply Forall2_impl; [done|]. intros l e (Hu & Hv & Hwe).
    by rewrite <-line_weight_sanitized.
  - intros u Hu. rewrite (csr_nodes _ _ _ Hcsr), Hlen in Hu.
    fold (getNumNodes m') in Hu.
    destruct (csr_of_row _ _ _ u _ Hcsr (vget_adj_rows _ edges u Hu))
      as (Hlo & Hhi & Hcols & Hws & _).
    eexists _, _. split; [done|]. split; [done|].
    unfold row_of in *. fold (filter_src edges u) in *.
    rewrite <-!list_fmap_compose in Hcols, Hws. done.
  - rewrite Hperm.
    erewrite list_fmap_ext; [done|]. intros _ l _. apply line_weight_sanitized.
  - rewrite Hperm. apply Forall_fmap.
    eapply Forall_impl; [done|]. intros l. apply line_weight_pos.
Qed.

Lemma loader_sanitizes_each_edge_witness :
  mapper_ok new_mapper ∧ Forall parsed_weight ex_lines ∧
  ∃ g m' edges,
    loadGraphFromFile ex_lines new_mapper = Some (g, m') ∧
    Forall2 (λ l e, name_to_id m' !! u_str l = Some (e_u e) ∧
                    name_to_id m' !! v_str l = Some (e_v e) ∧
                    e_w e = match w_in l with
                            | Some w => sanitized w
                            | None => 1%float
                            end) ex_lines edges ∧
    (∀ u, 0 ≤ u < num_nodes g →
          ∃ lo hi,
            vget (row_ptr g) u = Some lo ∧
            vget (row_ptr g) (u + 1) = Some hi ∧
            slice lo hi (col_indices g) = e_v <$> filter_src edges u ∧
            slice lo hi (edge_weights g) = e_w <$> filter_src edges u) ∧
    edge_weights g
    ≡ₚ (λ l, match w_in l with
             | Some w => sanitized w
             | None => 1%float
             end) <$> ex_lines ∧
    sanitized 0 = 0.0001%float ∧
    sanitized (-2.5) = 2.5%float ∧
    Forall (λ w, (0 <? w)%float = true) (edge_weights g).
Proof.
  assert (Forall parsed_weight ex_lines) as Hparsed.
  { repeat constructor. }
  split; [apply new_mapper_ok|]. split; [done|].
  apply (loader_sanitizes_each_edge ex_lines new_mapper); [|done].
  apply new_mapper_ok.
Defined.

(** * Determinism *)






